(** * Family Finance Hub: the synchronization engine

    A shallow embedding of [js/sync-manager.js] (class [EnhancedSyncManager])
    together with the parts of its collaborators it calls: the IndexedDB
    manager ([IndexedDBManager], bottom of [js/security-manager.js]), the
    encryption helpers of [SecurityManager] and the GitHub Gist endpoint.

    An [async] method is modelled as a computation over an explicit [world]
    that either completes normally or throws (a rejected promise); the world
    holds the manager object, the queue item objects it shares by reference,
    the local store and the remote gist. *)

From Stdlib Require Import ZArith String Ascii List Bool Lia.
From Stdlib Require QArith Qround.
From stdpp Require Import base option list gmap strings pretty fin_maps.

Local Open Scope string_scope.
Local Open Scope Z_scope.

(** ** JavaScript values *)

(** The values a record field read by the engine can hold. *)
Inductive jsval :=
  | JUndefined
  | JNull
  | JNum (n : Z)
  | JStr (s : string).

#[global] Instance jsval_eq_dec : EqDecision jsval.
Proof. solve_decision. Defined.

(** ToBoolean. *)
Definition truthy (v : jsval) : bool :=
  match v with
  | JUndefined | JNull => false
  | JNum n => negb (n =? 0)
  | JStr s => negb (String.eqb s "")
  end.

(** [a || b]. *)
Definition js_or (a b : jsval) : jsval := if truthy a then a else b.

(** A number that may be NaN: [None] is NaN. *)
Definition number := option Z.

(** [a > b] on numbers: false as soon as one side is NaN. *)
Definition js_gt (a b : number) : bool :=
  match a, b with
  | Some x, Some y => y <? x
  | _, _ => false
  end.

(** What a thrown value carries; [message] is its [.message]. *)
Inductive jsError :=
  | TypeError (msg : string)
  | Error (msg : string).

Definition message (e : jsError) : string :=
  match e with TypeError m | Error m => m end.

(** How a call ends: a value, or a thrown error (for an async function, a
    rejected promise). *)
Inductive completion (A : Type) :=
  | Normal (a : A)
  | Throw (e : jsError).
Arguments Normal {A} a.
Arguments Throw {A} e.

(** ** Dates *)

(** TimeClip of the language: a time value is within 8.64e15 ms of the epoch. *)
Definition TimeClip (t : Z) : number :=
  if Z.abs t <=? 8640000000000000 then Some t else None.

(** Days since the epoch of a civil date, proleptic Gregorian. *)
Definition days_from_civil (y m d : Z) : Z :=
  let y' := if m <=? 2 then y - 1 else y in
  let era := y' / 400 in
  let yoe := y' - era * 400 in
  let doy := (153 * (if 2 <? m then m - 3 else m + 9) + 2) / 5 + d - 1 in
  let doe := yoe * 365 + yoe / 4 - yoe / 100 + doy in
  era * 146097 + doe - 719468.

(** The civil date (year, month, day) of a day number. *)
Definition civil_from_days (z : Z) : Z * Z * Z :=
  let z := z + 719468 in
  let era := z / 146097 in
  let doe := z - era * 146097 in
  let yoe := (doe - doe / 1460 + doe / 36524 - doe / 146096) / 365 in
  let doy := doe - (365 * yoe + yoe / 4 - yoe / 100) in
  let mp := (5 * doy + 2) / 153 in
  let d := doy - (153 * mp + 2) / 5 + 1 in
  let m := if mp <? 10 then mp + 3 else mp - 9 in
  ((if m <=? 2 then yoe + era * 400 + 1 else yoe + era * 400), m, d).

Definition digit_char (d : Z) : ascii := ascii_of_nat (48 + Z.to_nat (d mod 10)).

(** [n] in decimal on [w] digits, zero padded. *)
Fixpoint pad (w : nat) (n : Z) : string :=
  match w with
  | O => ""
  | S w' => pad w' (n / 10) ++ String (digit_char n) ""
  end.

(** [Date.prototype.toISOString] of a valid time value: four-digit years as
    [YYYY-MM-DDTHH:mm:ss.sssZ], other years in the expanded six-digit form. *)
Definition toISOString (t : Z) : string :=
  let day := t / 86400000 in
  let ms := t - day * 86400000 in
  let '(y, m, d) := civil_from_days day in
  let year :=
    if (0 <=? y) && (y <=? 9999) then pad 4 y
    else (if y <? 0 then "-" else "+") ++ pad 6 (Z.abs y) in
  year ++ "-" ++ pad 2 m ++ "-" ++ pad 2 d ++ "T" ++
  pad 2 (ms / 3600000) ++ ":" ++ pad 2 (ms / 60000 mod 60) ++ ":" ++
  pad 2 (ms / 1000 mod 60) ++ "." ++ pad 3 (ms mod 1000) ++ "Z".

Definition digit_val (c : ascii) : option Z :=
  let n := Z.of_nat (nat_of_ascii c) in
  if (48 <=? n) && (n <=? 57) then Some (n - 48) else None.

(** The decimal number written by the [w] characters of [s] from [i]. *)
Fixpoint read_digits (w : nat) (i : nat) (s : string) (acc : Z) : option Z :=
  match w with
  | O => Some acc
  | S w' =>
      match String.get i s with
      | Some c =>
          match digit_val c with
          | Some d => read_digits w' (S i) s (acc * 10 + d)
          | None => None
          end
      | None => None
      end
  end.

Definition char_at (i : nat) (c : ascii) (s : string) : bool :=
  match String.get i s with
  | Some c' => Ascii.eqb c c'
  | None => false
  end.

(** A reference [Date.parse]: the date-time string format in its full UTC
    form [YYYY-MM-DDTHH:mm:ss.sssZ], the one [toISOString] writes, and NaN on
    anything else. What an engine accepts beyond that format is its own
    choice, so the engine's parser is a field of [env] below and this one is
    the instance used on concrete inputs. *)
Definition iso_parse (s : string) : number :=
  if negb (Nat.eqb (String.length s) 24) then None
  else if negb (char_at 4 "-" s && char_at 7 "-" s && char_at 10 "T" s &&
                char_at 13 ":" s && char_at 16 ":" s && char_at 19 "." s &&
                char_at 23 "Z" s) then None
  else
    match read_digits 4 0 s 0, read_digits 2 5 s 0, read_digits 2 8 s 0,
          read_digits 2 11 s 0, read_digits 2 14 s 0, read_digits 2 17 s 0,
          read_digits 3 20 s 0 with
    | Some y, Some m, Some d, Some hh, Some mm, Some ss, Some ms =>
        if (1 <=? m) && (m <=? 12) && (1 <=? d) && (d <=? 31) &&
           (hh <=? 23) && (mm <=? 59) && (ss <=? 59)
        then Some (days_from_civil y m d * 86400000 +
                   hh * 3600000 + mm * 60000 + ss * 1000 + ms)
        else None
    | _, _, _, _, _, _, _ => None
    end.


(** ** The data model *)

(** A synchronized record: the three properties the engine reads, and the
    domain fields it carries along untouched. *)
Record record := {
  id : string;
  updatedAt : jsval;
  createdAt : jsval;
  fields : list (string * jsval);
}.

#[global] Instance record_eq_dec : EqDecision record.
Proof. solve_decision. Defined.

(** A [Map] with string keys, or the own properties of an object: the
    entries in insertion order. *)
Definition jsMap (V : Type) := list (string * V).

(** [m.set(k, v)]: a present key keeps its position, a new one goes last. *)
Fixpoint Map_set {V} (k : string) (v : V) (m : jsMap V) : jsMap V :=
  match m with
  | [] => [(k, v)]
  | (k', v') :: m' =>
      if String.eqb k' k then (k, v) :: m' else (k', v') :: Map_set k v m'
  end.

(** [m.get(k)]: [None] is undefined. *)
Fixpoint Map_get {V} (k : string) (m : jsMap V) : option V :=
  match m with
  | [] => None
  | (k', v') :: m' => if String.eqb k' k then Some v' else Map_get k m'
  end.

(** [Array.from(m.values())]. *)
Definition Map_values {V} (m : jsMap V) : list V := snd <$> m.

(** A vector clock entry: an integer, NaN (an absent counter incremented),
    or null (NaN after a trip through JSON). *)
Inductive counter :=
  | Count (n : Z)
  | CountNaN
  | CountNull.

#[global] Instance counter_eq_dec : EqDecision counter.
Proof. solve_decision. Defined.

(** ToNumber of a clock entry. *)
Definition ToNumber (c : counter) : number :=
  match c with
  | Count n => Some n
  | CountNaN => None
  | CountNull => Some 0
  end.

(** ToBoolean of [clock[member]]; [None] is undefined. *)
Definition counter_truthy (c : option counter) : bool :=
  match c with
  | Some (Count n) => negb (n =? 0)
  | _ => false
  end.

(** [x++] on a clock entry ([None]: the property is absent). *)
Definition increment (c : option counter) : counter :=
  match c with
  | Some (Count n) => Count (n + 1)
  | Some CountNull => Count 1
  | Some CountNaN | None => CountNaN
  end.

(** An entry as [JSON.stringify] followed by [JSON.parse] gives it back. *)
Definition counter_json (c : counter) : counter :=
  match c with
  | Count n => Count n
  | CountNaN | CountNull => CountNull
  end.

(** The exported state: one array per collection (the object's properties,
    in order), the clock, the time stamp and the member. A value read from
    the remote document can lack any of them. *)
Record snapshot := {
  collections : jsMap (list record);
  s_vectorClock : option (gmap string counter);
  lastModified : jsval;
  s_memberCode : jsval;
}.

(** A queued operation. [operation] is the caller's payload ([None]: null or
    undefined); [createdAt] and [updatedAt] are added by the local store when
    it saves the item. *)
Record queueItem := {
  q_id : string;
  timestamp : Z;
  q_memberCode : string;
  operation : option (jsMap jsval);
  q_vectorClock : gmap string counter;
  status : string;
  error : option string;
  retryCount : option Z;
  q_createdAt : jsval;
  q_updatedAt : jsval;
}.

(** Queue items are objects shared by reference: an address in the heap. *)
Abbreviation loc := nat.

(** The fields of [EnhancedSyncManager] (the timer handle and the endpoint
    string apart). *)
Record manager := {
  syncInProgress : bool;
  conflictResolutionStrategy : string;
  vectorClock : gmap string counter;
  syncQueue : list loc;
  lastSyncTime : option Z;
  gistToken : option string;
  familyCode : string;
  memberCode : string;
  gistId : option string;
}.

(** The state of a new manager, as the constructor leaves it. *)
Definition constructor : manager :=
  {| syncInProgress := false;
     conflictResolutionStrategy := "last-write-wins";
     vectorClock := ∅;
     syncQueue := [];
     lastSyncTime := None;
     gistToken := None;
     familyCode := "";
     memberCode := "";
     gistId := None |}.

(** ** The collaborators *)

(** The encryption service, idealised: a cipher text opens under the key it
    was sealed with and under no other; anything else in its place is
    garbled. *)
Inductive ciphertext :=
  | Garbled (text : string)
  | Sealed (key : string) (plain : snapshot).

(** A JSON object found in the remote file: its plain properties, its
    [encrypted] flag and its [data] property. *)
Record doc := {
  plain : snapshot;
  encrypted : bool;
  data : option ciphertext;
}.

(** The content of [family-finance-data.json] in the gist. *)
Inductive fileContent :=
  | EmptyText
  | Malformed (text : string)
  | JsonNull
  | JsonOther (truth : bool)
  | JsonDoc (d : doc).

(** What [getRemoteData] returns: null, a JSON value that is no object (only
    its truth value matters to the caller), or an object read as a
    snapshot. *)
Inductive remoteData :=
  | RemoteNull
  | RemoteOther (truth : bool)
  | RemoteObject (s : snapshot).

(** What happens to one HTTP request: the server answers from its state, the
    request fails in the network, the server answers with the error status
    [code], or the body of the answer is no JSON. *)
Inductive netOutcome :=
  | NetOk
  | NetDown
  | NetError (code : Z)
  | NetBadBody.

(** What the engine cannot decide: the engine's date parser, the readings of
    the system clock, the identifiers drawn, and which requests to the local
    store and to the network fail. Each call consumes the next entry. *)
Record env := {
  Date_parse : string → number;
  clock : nat → Z;
  uuid : nat → string;
  dbFault : nat → bool;
  netFault : nat → netOutcome;
}.

(** Everything the engine reads and writes. *)
Record world := {
  this : manager;
  heap : list queueItem;
  onLine : bool;
  appContext : bool;
  uiLog : list (string * string);
  dbOpen : bool;
  dbRecords : jsMap (list record);
  dbSyncQueue : list queueItem;
  remote : gmap string (option fileContent);
  ticks : nat;
  drawn : nat;
  dbCalls : nat;
  netCalls : nat;
}.

(** ** Updating the objects *)

Definition set_syncInProgress (b : bool) (m : manager) : manager :=
  {| syncInProgress := b;
     conflictResolutionStrategy := conflictResolutionStrategy m;
     vectorClock := vectorClock m; syncQueue := syncQueue m;
     lastSyncTime := lastSyncTime m; gistToken := gistToken m;
     familyCode := familyCode m; memberCode := memberCode m;
     gistId := gistId m |}.

Definition set_vectorClock (vc : gmap string counter) (m : manager) : manager :=
  {| syncInProgress := syncInProgress m;
     conflictResolutionStrategy := conflictResolutionStrategy m;
     vectorClock := vc; syncQueue := syncQueue m;
     lastSyncTime := lastSyncTime m; gistToken := gistToken m;
     familyCode := familyCode m; memberCode := memberCode m;
     gistId := gistId m |}.

Definition set_syncQueue (q : list loc) (m : manager) : manager :=
  {| syncInProgress := syncInProgress m;
     conflictResolutionStrategy := conflictResolutionStrategy m;
     vectorClock := vectorClock m; syncQueue := q;
     lastSyncTime := lastSyncTime m; gistToken := gistToken m;
     familyCode := familyCode m; memberCode := memberCode m;
     gistId := gistId m |}.

Definition set_lastSyncTime (t : option Z) (m : manager) : manager :=
  {| syncInProgress := syncInProgress m;
     conflictResolutionStrategy := conflictResolutionStrategy m;
     vectorClock := vectorClock m; syncQueue := syncQueue m;
     lastSyncTime := t; gistToken := gistToken m;
     familyCode := familyCode m; memberCode := memberCode m;
     gistId := gistId m |}.

Definition set_this (f : manager → manager) (w : world) : world :=
  {| this := f (this w); heap := heap w; onLine := onLine w;
     appContext := appContext w; uiLog := uiLog w; dbOpen := dbOpen w;
     dbRecords := dbRecords w; dbSyncQueue := dbSyncQueue w;
     remote := remote w; ticks := ticks w; drawn := drawn w;
     dbCalls := dbCalls w; netCalls := netCalls w |}.

Definition set_heap (f : list queueItem → list queueItem) (w : world) : world :=
  {| this := this w; heap := f (heap w); onLine := onLine w;
     appContext := appContext w; uiLog := uiLog w; dbOpen := dbOpen w;
     dbRecords := dbRecords w; dbSyncQueue := dbSyncQueue w;
     remote := remote w; ticks := ticks w; drawn := drawn w;
     dbCalls := dbCalls w; netCalls := netCalls w |}.

Definition set_uiLog (f : list (string * string) → list (string * string))
    (w : world) : world :=
  {| this := this w; heap := heap w; onLine := onLine w;
     appContext := appContext w; uiLog := f (uiLog w); dbOpen := dbOpen w;
     dbRecords := dbRecords w; dbSyncQueue := dbSyncQueue w;
     remote := remote w; ticks := ticks w; drawn := drawn w;
     dbCalls := dbCalls w; netCalls := netCalls w |}.

Definition set_dbOpen (b : bool) (w : world) : world :=
  {| this := this w; heap := heap w; onLine := onLine w;
     appContext := appContext w; uiLog := uiLog w; dbOpen := b;
     dbRecords := dbRecords w; dbSyncQueue := dbSyncQueue w;
     remote := remote w; ticks := ticks w; drawn := drawn w;
     dbCalls := dbCalls w; netCalls := netCalls w |}.

Definition set_dbRecords (f : jsMap (list record) → jsMap (list record))
    (w : world) : world :=
  {| this := this w; heap := heap w; onLine := onLine w;
     appContext := appContext w; uiLog := uiLog w; dbOpen := dbOpen w;
     dbRecords := f (dbRecords w); dbSyncQueue := dbSyncQueue w;
     remote := remote w; ticks := ticks w; drawn := drawn w;
     dbCalls := dbCalls w; netCalls := netCalls w |}.

Definition set_dbSyncQueue (f : list queueItem → list queueItem)
    (w : world) : world :=
  {| this := this w; heap := heap w; onLine := onLine w;
     appContext := appContext w; uiLog := uiLog w; dbOpen := dbOpen w;
     dbRecords := dbRecords w; dbSyncQueue := f (dbSyncQueue w);
     remote := remote w; ticks := ticks w; drawn := drawn w;
     dbCalls := dbCalls w; netCalls := netCalls w |}.

Definition set_remote
    (f : gmap string (option fileContent) → gmap string (option fileContent))
    (w : world) : world :=
  {| this := this w; heap := heap w; onLine := onLine w;
     appContext := appContext w; uiLog := uiLog w; dbOpen := dbOpen w;
     dbRecords := dbRecords w; dbSyncQueue := dbSyncQueue w;
     remote := f (remote w); ticks := ticks w; drawn := drawn w;
     dbCalls := dbCalls w; netCalls := netCalls w |}.

Definition next_tick (w : world) : world :=
  {| this := this w; heap := heap w; onLine := onLine w;
     appContext := appContext w; uiLog := uiLog w; dbOpen := dbOpen w;
     dbRecords := dbRecords w; dbSyncQueue := dbSyncQueue w;
     remote := remote w; ticks := S (ticks w); drawn := drawn w;
     dbCalls := dbCalls w; netCalls := netCalls w |}.

Definition next_draw (w : world) : world :=
  {| this := this w; heap := heap w; onLine := onLine w;
     appContext := appContext w; uiLog := uiLog w; dbOpen := dbOpen w;
     dbRecords := dbRecords w; dbSyncQueue := dbSyncQueue w;
     remote := remote w; ticks := ticks w; drawn := S (drawn w);
     dbCalls := dbCalls w; netCalls := netCalls w |}.

Definition next_dbCall (w : world) : world :=
  {| this := this w; heap := heap w; onLine := onLine w;
     appContext := appContext w; uiLog := uiLog w; dbOpen := dbOpen w;
     dbRecords := dbRecords w; dbSyncQueue := dbSyncQueue w;
     remote := remote w; ticks := ticks w; drawn := drawn w;
     dbCalls := S (dbCalls w); netCalls := netCalls w |}.

Definition next_netCall (w : world) : world :=
  {| this := this w; heap := heap w; onLine := onLine w;
     appContext := appContext w; uiLog := uiLog w; dbOpen := dbOpen w;
     dbRecords := dbRecords w; dbSyncQueue := dbSyncQueue w;
     remote := remote w; ticks := ticks w; drawn := drawn w;
     dbCalls := dbCalls w; netCalls := S (netCalls w) |}.

Definition set_id (i : string) (r : record) : record :=
  {| id := i; updatedAt := updatedAt r; createdAt := createdAt r;
     fields := fields r |}.

Definition set_createdAt (v : jsval) (r : record) : record :=
  {| id := id r; updatedAt := updatedAt r; createdAt := v;
     fields := fields r |}.

Definition set_updatedAt (v : jsval) (r : record) : record :=
  {| id := id r; updatedAt := v; createdAt := createdAt r;
     fields := fields r |}.

Definition set_q_vectorClock (vc : gmap string counter) (q : queueItem) : queueItem :=
  {| q_id := q_id q; timestamp := timestamp q; q_memberCode := q_memberCode q;
     operation := operation q; q_vectorClock := vc; status := status q;
     error := error q; retryCount := retryCount q;
     q_createdAt := q_createdAt q; q_updatedAt := q_updatedAt q |}.

Definition set_status (s : string) (q : queueItem) : queueItem :=
  {| q_id := q_id q; timestamp := timestamp q; q_memberCode := q_memberCode q;
     operation := operation q; q_vectorClock := q_vectorClock q; status := s;
     error := error q; retryCount := retryCount q;
     q_createdAt := q_createdAt q; q_updatedAt := q_updatedAt q |}.

Definition set_error (e : option string) (q : queueItem) : queueItem :=
  {| q_id := q_id q; timestamp := timestamp q; q_memberCode := q_memberCode q;
     operation := operation q; q_vectorClock := q_vectorClock q;
     status := status q; error := e; retryCount := retryCount q;
     q_createdAt := q_createdAt q; q_updatedAt := q_updatedAt q |}.

Definition set_retryCount (n : option Z) (q : queueItem) : queueItem :=
  {| q_id := q_id q; timestamp := timestamp q; q_memberCode := q_memberCode q;
     operation := operation q; q_vectorClock := q_vectorClock q;
     status := status q; error := error q; retryCount := n;
     q_createdAt := q_createdAt q; q_updatedAt := q_updatedAt q |}.

Definition set_q_stamps (i : string) (c u : jsval) (q : queueItem) : queueItem :=
  {| q_id := i; timestamp := timestamp q; q_memberCode := q_memberCode q;
     operation := operation q; q_vectorClock := q_vectorClock q;
     status := status q; error := error q; retryCount := retryCount q;
     q_createdAt := c; q_updatedAt := u |}.

Definition set_onLine (b : bool) (w : world) : world :=
  {| this := this w; heap := heap w; onLine := b;
     appContext := appContext w; uiLog := uiLog w; dbOpen := dbOpen w;
     dbRecords := dbRecords w; dbSyncQueue := dbSyncQueue w;
     remote := remote w; ticks := ticks w; drawn := drawn w;
     dbCalls := dbCalls w; netCalls := netCalls w |}.

(** The calls that hold the in-progress flag while they run: a sync cycle,
    or a drain with the [pendingOps] it selected when it started. *)
Inductive task := SyncCycle | Drain (pendingOps : list loc).

#[global] Instance task_eq_dec : EqDecision task.
Proof. solve_decision. Defined.

(** What can happen to the engine from outside: a call of [syncNow] (the
    timer, the visibility listener, the host application), a call of
    [processSyncQueue], a call of [queueOperation], a started call running
    to its end, and the [online] and [offline] events. *)
Inductive trigger :=
  | CallSyncNow
  | CallProcessSyncQueue
  | CallQueueOperation (op : option (jsMap jsval))
  | Finish (t : task)
  | Connectivity (online : bool).

(** ** Computations over the world *)

Definition M (A : Type) : Type := world → completion A * world.

Definition ret {A} (a : A) : M A := λ w, (Normal a, w).

Definition bind {A B} (m : M A) (k : A → M B) : M B :=
  λ w, match m w with
       | (Normal a, w') => k a w'
       | (Throw e, w') => (Throw e, w')
       end.

Definition throw {A} (e : jsError) : M A := λ w, (Throw e, w).

(** A completion of a pure call, taken into the world. *)
Definition lift {A} (c : completion A) : M A := λ w, (c, w).

Definition gets {A} (f : world → A) : M A := λ w, (Normal (f w), w).

Definition modify (f : world → world) : M unit := λ w, (Normal tt, f w).

(** [try { m } catch (error) { h error }]. *)
Definition try_catch {A} (m : M A) (h : jsError → M A) : M A :=
  λ w, match m w with
       | (Normal a, w') => (Normal a, w')
       | (Throw e, w') => h e w'
       end.

(** [try { m } finally { f }]: [f] runs either way; the completion of [m]
    stands unless [f] itself throws. *)
Definition try_finally {A} (m : M A) (f : M unit) : M A :=
  λ w, match m w with
       | (c, w') =>
           match f w' with
           | (Normal _, w'') => (c, w'')
           | (Throw e, w'') => (Throw e, w'')
           end
       end.

Declare Scope M_scope.
Delimit Scope M_scope with M.
Notation "x ← y ; z" := (bind y (λ x, z))
  (at level 20, y at level 100, z at level 200, only parsing) : M_scope.
Notation "x ;; z" := (bind x (λ _, z))
  (at level 100, z at level 200, only parsing, right associativity) : M_scope.
Local Open Scope M_scope.

(** [for (const x of l) { await f(x) }]: the first throw ends the loop. *)
Fixpoint forEach {A} (f : A → M unit) (l : list A) : M unit :=
  match l with
  | [] => ret tt
  | x :: l' => f x ;; forEach f l'
  end.

(** The loop that also collects what each step returns. *)
Fixpoint mapM {A B} (f : A → M B) (l : list A) : M (list B) :=
  match l with
  | [] => ret []
  | x :: l' => y ← f x; ys ← mapM f l'; ret (y :: ys)
  end.

(** ** The engine *)

(** The collections [mergeData] merges, in its order. *)
Definition dataTypes : list string :=
  ["transactions"; "budgets"; "savingsGoals"; "billReminders"; "accounts";
   "investments"; "shoppingLists"; "familyTasks"; "sharedNotes"; "settings";
   "activityFeed"].

(** [window.dbManager.stores]: the object stores of the local database. *)
Definition stores : list string :=
  ["transactions"; "budgets"; "savingsGoals"; "billReminders"; "accounts";
   "investments"; "shoppingLists"; "familyTasks"; "sharedNotes"; "settings";
   "syncQueue"; "activityFeed"].

(** [store.put(x)] on an object store with key path [id]: the store keeps
    its values in key order, one value per key. *)
Fixpoint store_put {A} (key : A → string) (x : A) (s : list A) : list A :=
  match s with
  | [] => [x]
  | y :: s' =>
      match String.compare (key x) (key y) with
      | Eq => x :: s'
      | Lt => x :: y :: s'
      | Gt => y :: store_put key x s'
      end
  end.

Definition snapshot_with_collections (c : jsMap (list record)) (s : snapshot)
    : snapshot :=
  {| collections := c; s_vectorClock := s_vectorClock s;
     lastModified := lastModified s; s_memberCode := s_memberCode s |}.

(** A record after [JSON.stringify] and [JSON.parse]: a property whose
    value is undefined is left out. *)
Definition record_json (r : record) : record :=
  {| id := id r; updatedAt := updatedAt r; createdAt := createdAt r;
     fields :=
       List.filter (λ p, negb (bool_decide (snd p = JUndefined))) (fields r) |}.

(** A snapshot after [JSON.stringify] and [JSON.parse]. *)
Definition snapshot_json (s : snapshot) : snapshot :=
  {| collections :=
       (λ e : string * list record, (fst e, record_json <$> snd e)) <$>
         (collections s : list (string * list record));
     s_vectorClock := fmap (M := option) (fmap counter_json) (s_vectorClock s);
     lastModified := lastModified s; s_memberCode := s_memberCode s |}.

(** A JSON value that is an object without any of the properties read. *)
Definition empty_snapshot : snapshot :=
  {| collections := []; s_vectorClock := None; lastModified := JUndefined;
     s_memberCode := JUndefined |}.

(** ToBoolean of what [getRemoteData] returned. *)
Definition remote_truthy (r : remoteData) : bool :=
  match r with
  | RemoteNull => false
  | RemoteOther b => b
  | RemoteObject _ => true
  end.

(** The property reads of [mergeData] on a truthy remote value. *)
Definition remote_snapshot (r : remoteData) : snapshot :=
  match r with
  | RemoteObject s => s
  | _ => empty_snapshot
  end.

(** [SecurityManager.decrypt]: null when the cipher text does not open. *)
Definition decrypt (c : option ciphertext) (key : string) : remoteData :=
  match c with
  | Some (Sealed k p) => if String.eqb k key then RemoteObject p else RemoteNull
  | _ => RemoteNull
  end.

(** [SecurityManager.encrypt]. *)
Definition encrypt (d : snapshot) (key : string) : ciphertext :=
  Sealed key (snapshot_json d).

(** The decimal text of a status code in a message. *)
Definition show_status (code : Z) : string := pretty code.

Section Engine.

Variable E : env.

(** [new Date(v).getTime()]. *)
Definition Date_getTime (v : jsval) : number :=
  match v with
  | JUndefined => None
  | JNull => Some 0
  | JNum n => TimeClip n
  | JStr s => Date_parse E s
  end.

(** [Date.now()], and the time value of [new Date()]. *)
Definition Date_now : M Z := λ w, (Normal (clock E (ticks w)), next_tick w).

(** [SecurityManager.generateUUID]. *)
Definition generateUUID : M string :=
  λ w, (Normal (uuid E (drawn w)), next_draw w).

(** *** The conflict resolver *)

(** [new Date(r.updatedAt || r.createdAt || 0).getTime()]. *)
Definition recordTime (r : record) : number :=
  Date_getTime (js_or (js_or (updatedAt r) (createdAt r)) (JNum 0)).

(** [resolveConflict(local, remote, type)]. The class has no method
    [queueConflict] and nothing in the repository gives the manager one:
    under ['manual'] the call of line 445 reads undefined and throws the
    TypeError before [return local] is reached. *)
Definition resolveConflict (self : manager) (local remote : record)
    (type : string) : completion record :=
  let strategy := conflictResolutionStrategy self in
  if String.eqb strategy "last-write-wins" then
    let localTime := recordTime local in
    let remoteTime := recordTime remote in
    Normal (if js_gt localTime remoteTime then local else remote)
  else if String.eqb strategy "remote-wins" then Normal remote
  else if String.eqb strategy "local-wins" then Normal local
  else if String.eqb strategy "manual" then
    Throw (TypeError "this.queueConflict is not a function")
  else Normal local.

(** *** The merge engine *)

(** The [local.forEach] of [mergeCollection]: the map seeded with the local
    items. *)
Definition seed (local : list record) : jsMap record :=
  fold_left (λ m item, Map_set (id item) item m) local [].

(** The [remote.forEach] of [mergeCollection]; a throw of the resolver leaves
    the loop and the function. *)
Fixpoint mergeRemote (self : manager) (type : string) (remote : list record)
    (merged : jsMap record) : completion (jsMap record) :=
  match remote with
  | [] => Normal merged
  | remoteItem :: rest =>
      match Map_get (id remoteItem) merged with
      | None =>
          mergeRemote self type rest (Map_set (id remoteItem) remoteItem merged)
      | Some localItem =>
          match resolveConflict self localItem remoteItem type with
          | Normal resolvedItem =>
              mergeRemote self type rest
                (Map_set (id remoteItem) resolvedItem merged)
          | Throw e => Throw e
          end
      end
  end.

(** [mergeCollection(local, remote, type)]. *)
Definition mergeCollection (self : manager) (local remote : list record)
    (type : string) : completion (list record) :=
  let merged := seed local in
  match mergeRemote self type remote merged with
  | Normal merged => Normal (Map_values merged)
  | Throw e => Throw e
  end.

(** [this.vectorClock[member]] read as a number ([None]: undefined). *)
Definition entry_number (c : option counter) : number :=
  match c with
  | Some c => ToNumber c
  | None => None
  end.

(** The body of the [forEach] of [mergeData], lines 370-374. *)
Definition mergeClockEntry (member : string) (clock : counter)
    (vc : gmap string counter) : gmap string counter :=
  if negb (counter_truthy (vc !! member))
     || js_gt (ToNumber clock) (entry_number (vc !! member))
  then <[member := clock]> vc
  else vc.

(** The clock merge of [mergeData]: the entries of the remote clock [b]
    folded into the manager's clock [a]. *)
Definition mergeClocks (a b : gmap string counter) : gmap string counter :=
  map_fold mergeClockEntry a b.

(** The [for (const type of dataTypes)] of [mergeData]. *)
Fixpoint mergeTypes (self : manager) (localData remoteData : snapshot)
    (types : list string) (merged : jsMap (list record))
    : completion (jsMap (list record)) :=
  match types with
  | [] => Normal merged
  | type :: rest =>
      match mergeCollection self
              (default [] (Map_get type (collections localData)))
              (default [] (Map_get type (collections remoteData))) type with
      | Normal items => mergeTypes self localData remoteData rest
                          (Map_set type items merged)
      | Throw e => Throw e
      end
  end.

(** [mergeData(localData, remoteData)]. The clock of the manager is merged in
    place before the collections are, so it stays merged when a collection
    throws. [localData.vectorClock] is the manager's clock object itself;
    the snapshot returned holds its value at the time of the return. *)
Definition mergeData (localData : snapshot) (remoteData : remoteData)
    : M snapshot :=
  if negb (remote_truthy remoteData) then ret localData
  else
    let remoteData := remote_snapshot remoteData in
    modify (set_this (λ m,
      set_vectorClock
        (mergeClocks (vectorClock m) (default ∅ (s_vectorClock remoteData))) m)) ;;
    self ← gets this;
    merged ← lift (mergeTypes self localData remoteData dataTypes
                     (collections localData));
    now ← Date_now;
    ret {| collections := merged;
           s_vectorClock := Some (vectorClock self);
           lastModified := JStr (toISOString now);
           s_memberCode := s_memberCode localData |}.

(** *** The local store ([IndexedDBManager]) *)

(** One request to the database: the next entry of [dbFault] says whether it
    fails. *)
Definition db_request : M unit :=
  λ w, if dbFault E (dbCalls w)
       then (Throw (Error "The database request failed"), next_dbCall w)
       else (Normal tt, next_dbCall w).

(** [init()]. *)
Definition db_init : M unit := db_request ;; modify (set_dbOpen true).

(** [if (!this.db) await this.init()]. *)
Definition db_ensure : M unit :=
  o ← gets dbOpen; if o then ret tt else db_init.

(** [getAll(storeName)] without a key: the values in key order; a request
    that fails rejects the call. *)
Definition db_getAll (storeName : string) : M (list record) :=
  db_ensure ;; db_request ;;
  gets (λ w, default [] (Map_get storeName (dbRecords w))).

(** [clear(storeName)]. *)
Definition db_clear (storeName : string) : M unit :=
  db_ensure ;; db_request ;;
  modify (set_dbRecords (Map_set storeName [])).

(** The stamps [save] and [saveBatch] write into an item before they put
    it. *)
Definition stampRecord (item : record) : M record :=
  item ← (if negb (truthy (JStr (id item)))
           then u ← generateUUID; ret (set_id u item) else ret item);
  item ← (if negb (truthy (createdAt item))
           then t ← Date_now; ret (set_createdAt (JStr (toISOString t)) item)
           else ret item);
  t ← Date_now;
  ret (set_updatedAt (JStr (toISOString t)) item).

(** [saveBatch(storeName, items)] without a key. The stamps are written into
    the objects of [items] themselves, which the caller still holds: the
    items as the call leaves them are returned. The fault is the
    transaction's; the outcome of the single puts is not awaited. *)
Definition db_saveBatch (storeName : string) (items : list record)
    : M (list record) :=
  db_ensure ;; db_request ;;
  items ← mapM stampRecord items;
  modify (set_dbRecords (λ d,
    Map_set storeName
      (fold_left (λ s x, store_put id x s) items
         (default [] (Map_get storeName d))) d)) ;;
  ret items.

(** [o.property = ...] on the queue item at [l]. *)
Definition update_item (l : loc) (f : queueItem → queueItem) : M unit :=
  modify (set_heap (alter f l)).

(** [save('syncQueue', queueItem)] without a key: the item at [l] is stamped
    in place and a copy of it is put. *)
Definition db_save_syncQueue (l : loc) : M unit :=
  db_ensure ;;
  o ← gets (λ w, heap w !! l);
  match o with
  | None => throw (TypeError "Cannot read properties of undefined (reading 'id')")
  | Some q =>
      i ← (if negb (truthy (JStr (q_id q))) then generateUUID else ret (q_id q));
      c ← (if negb (truthy (q_createdAt q))
           then t ← Date_now; ret (JStr (toISOString t))
           else ret (q_createdAt q));
      t ← Date_now;
      update_item l (set_q_stamps i c (JStr (toISOString t))) ;;
      db_request ;;
      modify (set_dbSyncQueue
                (store_put q_id (set_q_stamps i c (JStr (toISOString t)) q)))
  end.

(** [delete('syncQueue', id)]. *)
Definition db_delete_syncQueue (i : string) : M unit :=
  db_ensure ;; db_request ;;
  modify (set_dbSyncQueue
            (List.filter (λ q, negb (String.eqb (q_id q) i)))).

(** *** The operation queue *)

(** [item.id !== i] for the item at [l]. *)
Definition other_id (w : world) (i : string) (l : loc) : bool :=
  match heap w !! l with
  | Some q => negb (String.eqb (q_id q) i)
  | None => true
  end.

(** [this.syncQueue = this.syncQueue.filter(item => item.id !== i)]. *)
Definition removeFromQueue (i : string) : M unit :=
  modify (λ w,
    set_this (set_syncQueue (List.filter (other_id w i) (syncQueue (this w)))) w).

(** [op.status === 'pending'] for the item at [l]. *)
Definition is_pending (w : world) (l : loc) : bool :=
  match heap w !! l with
  | Some q => String.eqb (status q) "pending"
  | None => false
  end.

(** [syncOperation(operation)]: the transmission is a stub that resolves; it
    throws only on the read of [operation.operation.type] when the payload
    is null or undefined. *)
Definition syncOperation (l : loc) : M unit :=
  modify (set_this (λ m,
    set_vectorClock
      (<[memberCode m := increment (vectorClock m !! memberCode m)]>
         (vectorClock m)) m)) ;;
  vc ← gets (λ w, vectorClock (this w));
  o ← gets (λ w, heap w !! l);
  match o with
  | None =>
      throw (TypeError "Cannot set properties of undefined (setting 'vectorClock')")
  | Some q =>
      update_item l (set_q_vectorClock vc) ;;
      match operation q with
      | Some _ => ret tt
      | None =>
          throw (TypeError "Cannot read properties of undefined (reading 'type')")
      end
  end.

(** What the [catch] of the drain does to the item. *)
Definition mark_failed (error : jsError) (q : queueItem) : queueItem :=
  set_retryCount (Some (default 0 (retryCount q) + 1))
    (set_error (Some (message error)) (set_status "failed" q)).

(** The [try] block of the [for] of [processSyncQueue] for the item at
    [l]: the transmission and, after it, the removal from the queue and from
    the local store. *)
Definition attempt (l : loc) : M unit :=
  syncOperation l ;;
  update_item l (set_status "completed") ;;
  o ← gets (λ w, heap w !! l);
  let i := default "" (q_id <$> o) in
  removeFromQueue i ;;
  db ← gets dbOpen;
  if db then db_delete_syncQueue i else ret tt.

(** Its [catch] block. *)
Definition recordFailure (l : loc) (error : jsError) : M unit :=
  update_item l (mark_failed error) ;;
  o ← gets (λ w, heap w !! l);
  match o with
  | Some q =>
      if 3 <? default 0 (retryCount q) then removeFromQueue (q_id q)
      else ret tt
  | None => ret tt
  end.

(** The body of the [for] of [processSyncQueue] for the item at [l]. *)
Definition processOp (l : loc) : M unit :=
  try_catch (attempt l) (recordFailure l).

(** The guard of [processSyncQueue]. *)
Definition drain_refused (w : world) : bool :=
  Nat.eqb (length (syncQueue (this w))) 0 || syncInProgress (this w).

(** [this.syncQueue.filter(op => op.status === 'pending')]. *)
Definition pending (w : world) : list loc :=
  List.filter (is_pending w) (syncQueue (this w)).

(** [processSyncQueue()] behind its guard and the setting of the flag: the
    [try] with its [finally]. *)
Definition drain_body : M unit :=
  try_finally
    (pendingOps ← gets pending;
     forEach processOp pendingOps)
    (modify (set_this (set_syncInProgress false))).

(** The same from the [for] on, [pendingOps] being selected already. *)
Definition drain_rest (pendingOps : list loc) : M unit :=
  try_finally
    (forEach processOp pendingOps)
    (modify (set_this (set_syncInProgress false))).

(** [processSyncQueue()]. *)
Definition processSyncQueue : M unit :=
  w ← gets (λ w, w);
  if drain_refused w then ret tt
  else modify (set_this (set_syncInProgress true)) ;; drain_body.

(** [queueOperation(operation)] up to the point where it may start a
    drain: the item is built, pushed and saved. *)
Definition enqueue (op : option (jsMap jsval)) : M unit :=
  i ← generateUUID;
  t ← Date_now;
  self ← gets this;
  l ← gets (λ w, length (heap w));
  modify (set_heap (λ h, app h
    [{| q_id := i; timestamp := t; q_memberCode := memberCode self;
        operation := op; q_vectorClock := vectorClock self;
        status := "pending"; error := None; retryCount := None;
        q_createdAt := JUndefined; q_updatedAt := JUndefined |}])) ;;
  modify (set_this (λ m, set_syncQueue (app (syncQueue m) [l]) m)) ;;
  db ← gets dbOpen;
  if db then db_save_syncQueue l else ret tt.

(** [queueOperation(operation)]. The drain it starts is not awaited: what
    the drain throws does not reach the caller. *)
Definition queueOperation (op : option (jsMap jsval)) : M unit :=
  enqueue op ;;
  w ← gets (λ w, w);
  if onLine w && negb (syncInProgress (this w))
  then try_catch processSyncQueue (λ _, ret tt)
  else ret tt.

(** *** The remote document *)

(** One HTTP request: the next entry of [netFault] says what happens to it. *)
Definition net_request : M netOutcome :=
  λ w, (Normal (netFault E (netCalls w)), next_netCall w).

(** ToBoolean of [this.gistId]. *)
Definition gistId_truthy (self : manager) : bool :=
  match gistId self with
  | Some g => negb (String.eqb g "")
  | None => false
  end.

(** The inner [try] of [getRemoteData] on a truthy content: [JSON.parse],
    then the decryption when the document says it is encrypted and a family
    code is set. *)
Definition parseRemote (self : manager) (content : fileContent)
    : completion remoteData :=
  match content with
  | EmptyText | Malformed _ => Throw (Error "Unexpected end of JSON input")
  | JsonNull =>
      Throw (TypeError "Cannot read properties of null (reading 'encrypted')")
  | JsonOther b => Normal (RemoteOther b)
  | JsonDoc parsed =>
      if encrypted parsed && truthy (JStr (familyCode self))
      then Normal (decrypt (data parsed) (familyCode self))
      else Normal (RemoteObject (plain parsed))
  end.

(** [getRemoteData()]. *)
Definition getRemoteData : M remoteData :=
  self ← gets this;
  match gistId self with
  | None => ret RemoteNull
  | Some g =>
      if String.eqb g "" then ret RemoteNull
      else
        try_catch
          (out ← net_request;
           gist ← gets (λ w, remote w !! g);
           match out with
           | NetDown => throw (TypeError "Failed to fetch")
           | NetBadBody => throw (Error "Unexpected end of JSON input")
           | NetError code =>
               throw (Error ("HTTP error! status: " ++ show_status code))
           | NetOk =>
               match gist with
               | None => throw (Error "HTTP error! status: 404")
               | Some None | Some (Some EmptyText) => ret RemoteNull
               | Some (Some content) =>
                   try_catch (lift (parseRemote self content))
                             (λ _, ret RemoteNull)
               end
           end)
          (λ _, ret RemoteNull)
  end.

(** [uploadData(data)]. *)
Definition uploadData (d : snapshot) : M unit :=
  self ← gets this;
  match gistId self with
  | None => ret tt
  | Some g =>
      if String.eqb g "" then ret tt
      else
        let uploadData :=
          {| plain := snapshot_json d; encrypted := true;
             data := Some (encrypt d (familyCode self)) |} in
        out ← net_request;
        gist ← gets (λ w, remote w !! g);
        match out with
        | NetDown => throw (TypeError "Failed to fetch")
        | NetError code =>
            throw (Error ("Upload failed: " ++ show_status code))
        | NetOk | NetBadBody =>
            match gist with
            | None => throw (Error "Upload failed: 404")
            | Some _ =>
                modify (set_remote (<[g := Some (JsonDoc uploadData)]>)) ;;
                match out with
                | NetBadBody => throw (Error "Unexpected end of JSON input")
                | _ => ret tt
                end
            end
        end
  end.

(** *** The sync cycle *)

(** [getLocalData()]. *)
Definition getLocalData : M snapshot :=
  db ← gets dbOpen;
  (if db then ret tt else db_init) ;;
  cols ← mapM (λ type, items ← db_getAll type; ret (type, items)) dataTypes;
  self ← gets this;
  now ← Date_now;
  ret {| collections := cols;
         s_vectorClock := Some (vectorClock self);
         lastModified := JStr (toISOString now);
         s_memberCode := JStr (memberCode self) |}.

(** The body of the [for] of [saveLocalData] for one array property. *)
Definition saveCollection (entry : string * list record)
    : M (string * list record) :=
  let '(type, items) := entry in
  if bool_decide (type ∈ stores) then
    db_clear type ;;
    if Nat.ltb 0 (length items)
    then items ← db_saveBatch type items; ret (type, items)
    else ret (type, items)
  else ret (type, items).

(** [saveLocalData(data)]. Only the collections are arrays. The items of
    [data] are the objects [saveBatch] stamps: [data] as the call leaves it
    is returned. *)
Definition saveLocalData (d : snapshot) : M snapshot :=
  db ← gets dbOpen;
  (if db then ret tt else db_init) ;;
  cols ← mapM saveCollection (collections d);
  ret (snapshot_with_collections cols d).

(** A call of a method of [window.appContext]. *)
Definition ui (method arg : string) : M unit :=
  modify (set_uiLog (λ l, app l [(method, arg)])).

(** The [try] block of [syncNow]; the merged snapshot, as saved, is
    returned for reference. *)
Definition syncCycle : M snapshot :=
  processSyncQueue ;;
  localData ← getLocalData;
  self ← gets this;
  remoteData ← (if gistId_truthy self then getRemoteData else ret RemoteNull);
  mergedData ← mergeData localData remoteData;
  mergedData ← saveLocalData mergedData;
  (if gistId_truthy self then uploadData mergedData else ret tt) ;;
  now ← Date_now;
  modify (set_this (set_lastSyncTime (Some now))) ;;
  ctx ← gets appContext;
  (if ctx
   then ui "setSyncStatus" "success" ;;
        ui "showNotification" "Data synced successfully!"
   else ret tt) ;;
  ret mergedData.

(** The [try] of [syncNow] with its [catch] and its [finally]. *)
Definition syncNow_rest : M unit :=
  try_finally
    (try_catch
       (syncCycle ;; ret tt)
       (λ error,
        ctx ← gets appContext;
        if ctx
        then ui "setSyncStatus" "error" ;;
             ui "showNotification" "Sync failed. Will retry..."
        else ret tt))
    (modify (set_this (set_syncInProgress false))).

(** [syncNow()] from the point where the flag is set: the status update,
    then the [try]. *)
Definition syncNow_body : M unit :=
  ctx ← gets appContext;
  (if ctx then ui "setSyncStatus" "syncing" else ret tt) ;;
  syncNow_rest.

(** The guard of [syncNow]. *)
Definition sync_refused (w : world) : bool :=
  syncInProgress (this w) || negb (onLine w).

(** [syncNow()]. *)
Definition syncNow : M unit :=
  w ← gets (λ w, w);
  if sync_refused w then ret tt
  else modify (set_this (set_syncInProgress true)) ;; syncNow_body.

(** *** Triggers racing for the flag

    Every trigger calls [syncNow] or [processSyncQueue]. A call that passes
    its guard runs up to its first suspension point, where the flag is set,
    and finishes later, other triggers arriving in between; it holds the
    flag until its [finally]. The state is the world and the calls started
    and not yet finished; what a started call has still to do runs in one
    piece when it finishes. *)

(** A call of [processSyncQueue] arriving: refused, or started. *)
Definition start_drain (s : world * list task) : world * list task :=
  let '(w, running) := s in
  if drain_refused w then (w, running)
  else let w' := set_this (set_syncInProgress true) w in
       (w', Drain (pending w') :: running).

(** A call of [syncNow] arriving: refused, or started. *)
Definition start_sync (s : world * list task) : world * list task :=
  let '(w, running) := s in
  if sync_refused w then (w, running)
  else let w' := set_this (set_syncInProgress true) w in
       (if appContext w'
        then snd (ui "setSyncStatus" "syncing" w')
        else w',
        SyncCycle :: running).

(** The rest of a started call. *)
Definition finish (t : task) : M unit :=
  match t with
  | SyncCycle => syncNow_rest
  | Drain pendingOps => drain_rest pendingOps
  end.

(** One trigger. [Finish t] lets the started call [t] run to its end;
    [Connectivity true] is [handleOnline], which calls [processSyncQueue]
    and then [syncNow]. *)
Definition step (s : world * list task) (e : trigger) : world * list task :=
  let '(w, running) := s in
  match e with
  | CallSyncNow => start_sync (w, running)
  | CallProcessSyncQueue => start_drain (w, running)
  | CallQueueOperation op =>
      match enqueue op w with
      | (Normal _, w') =>
          if onLine w' && negb (syncInProgress (this w'))
          then start_drain (w', running)
          else (w', running)
      | (Throw _, w') => (w', running)
      end
  | Finish t =>
      if bool_decide (t ∈ running)
      then (snd (finish t w), List.remove task_eq_dec t running)
      else (w, running)
  | Connectivity true => start_sync (start_drain (set_onLine true w, running))
  | Connectivity false => (set_onLine false w, running)
  end.

(** The triggers of a list, in order. *)
Definition run (s : world * list task) (es : list trigger) : world * list task :=
  fold_left step es s.

End Engine.

(** ** Concrete inputs *)

(** An environment without faults: the reference date parser, a clock that
    advances one second per reading from 2024-01-03T12:00:00Z, identifiers
    [uuid-0], [uuid-1], ... *)
Definition quiet : env :=
  {| Date_parse := iso_parse;
     clock := λ n, 1704283200000 + Z.of_nat n * 1000;
     uuid := λ n, "uuid-" ++ pretty n;
     dbFault := λ _, false;
     netFault := λ _, NetOk |}.

(** The manager of member [alice] after [init], with the given strategy and
    gist. *)
Definition alice (strategy : string) (gist : option string) : manager :=
  {| syncInProgress := false;
     conflictResolutionStrategy := strategy;
     vectorClock := <["alice" := Count 0]> ∅;
     syncQueue := [];
     lastSyncTime := None;
     gistToken := None;
     familyCode := "FAMILY";
     memberCode := "alice";
     gistId := gist |}.

(** Two versions of transaction [t1] with the same [updatedAt]. *)
Definition t1_local : record :=
  {| id := "t1";
     updatedAt := JStr "2024-01-01T10:00:00.000Z";
     createdAt := JStr "2024-01-01T09:00:00.000Z";
     fields := [("amount", JNum 10)] |}.

Definition t1_remote : record :=
  {| id := "t1";
     updatedAt := JStr "2024-01-01T10:00:00.000Z";
     createdAt := JStr "2024-01-01T09:00:00.000Z";
     fields := [("amount", JNum 20)] |}.

(** A later version of [t1], and a second transaction. *)
Definition t1_newer : record :=
  {| id := "t1";
     updatedAt := JStr "2024-01-01T10:05:00.000Z";
     createdAt := JStr "2024-01-01T09:00:00.000Z";
     fields := [("amount", JNum 30)] |}.

Definition t2 : record :=
  {| id := "t2";
     updatedAt := JStr "2024-01-02T08:00:00.000Z";
     createdAt := JStr "2024-01-02T08:00:00.000Z";
     fields := [("amount", JNum 5)] |}.

(** A world at rest: the manager [self] online with the database open, the
    host application attached, the given local stores and the given gists
    on the server. *)
Definition start (self : manager) (local : jsMap (list record))
    (gists : gmap string (option fileContent)) : world :=
  {| this := self; heap := []; onLine := true; appContext := true;
     uiLog := []; dbOpen := true; dbRecords := local; dbSyncQueue := [];
     remote := gists; ticks := 0; drawn := 0; dbCalls := 0; netCalls := 0 |}.

(** As [quiet], but the twelfth request to the database fails: in a sync
    cycle on an open database, the first one of [saveLocalData], after the
    eleven reads of [getLocalData]. *)
Definition save_fails : env :=
  {| Date_parse := iso_parse;
     clock := λ n, 1704283200000 + Z.of_nat n * 1000;
     uuid := λ n, "uuid-" ++ pretty n;
     dbFault := λ n, Nat.eqb n 11;
     netFault := λ _, NetOk |}.

(** As [quiet], but the first request to the database fails. *)
Definition store_fails : env :=
  {| Date_parse := iso_parse;
     clock := λ n, 1704283200000 + Z.of_nat n * 1000;
     uuid := λ n, "uuid-" ++ pretty n;
     dbFault := λ n, Nat.eqb n 0;
     netFault := λ _, NetOk |}.

(** Alice's device with one transaction and no gist configured. *)
Definition household : world :=
  start (alice "last-write-wins" None) [("transactions", [t1_local])] ∅.

(** Alice's device after [queueOperation(null)]: the item is queued
    and, the device being online, a first drain has run. *)
Definition queued_no_payload : world :=
  snd (queueOperation quiet None household).

(** Alice's device with gist [g1] configured, whose file is no JSON. *)
Definition garbled_remote : world :=
  start (alice "last-write-wins" (Some "g1")) [("transactions", [t1_local])]
    (<["g1" := Some (Malformed "{oops")]> ∅).

(** Two vector clocks. *)
Definition clock_a : gmap string counter :=
  <["alice" := Count 2]> (<["bob" := Count 1]> ∅).

Definition clock_b : gmap string counter :=
  <["bob" := Count 3]> (<["carol" := Count 0]> ∅).

(** The snapshot member [bob] has uploaded: a later version of [t1] and his
    clock. *)
Definition bob_snapshot : snapshot :=
  {| collections := [("transactions", [t1_newer])];
     s_vectorClock := Some clock_b;
     lastModified := JStr "2024-01-01T10:05:01.000Z";
     s_memberCode := JStr "bob" |}.

(** Alice's device with two transactions and gist [g1] configured, holding
    bob's snapshot in the clear. *)
Definition shared_home : world :=
  start (alice "last-write-wins" (Some "g1"))
    [("transactions", [t1_local; t2])]
    (<["g1" := Some (JsonDoc {| plain := bob_snapshot; encrypted := false;
                                 data := None |})]> ∅).

(** That device after one [syncNow], and after a second one. *)
Definition once : world := snd (syncNow quiet shared_home).

Definition twice : world := snd (syncNow quiet once).

(** A payload of [queueOperation]. *)
Definition add_transaction : jsMap jsval :=
  [("type", JStr "ADD_TRANSACTION"); ("amount", JNum 10)].

(** ** Notions used in the statements *)

(** The remote snapshot of gist [g] is unavailable in world [w]: the fetch
    fails, the content is missing, or the content does not parse or does not
    decrypt. *)
Inductive unavailable (E : env) (w : world) (g : string) : Prop :=
  | fetch_fails :
      netFault E (netCalls w) = NetDown → unavailable E w g
  | fetch_refused code :
      netFault E (netCalls w) = NetError code → unavailable E w g
  | fetch_bad_body :
      netFault E (netCalls w) = NetBadBody → unavailable E w g
  | fetch_not_found :
      netFault E (netCalls w) = NetOk → remote w !! g = None →
      unavailable E w g
  | content_missing :
      netFault E (netCalls w) = NetOk → remote w !! g = Some None →
      unavailable E w g
  | content_empty :
      netFault E (netCalls w) = NetOk →
      remote w !! g = Some (Some EmptyText) → unavailable E w g
  | parse_fails text :
      netFault E (netCalls w) = NetOk →
      remote w !! g = Some (Some (Malformed text)) → unavailable E w g
  | parse_null :
      netFault E (netCalls w) = NetOk →
      remote w !! g = Some (Some JsonNull) → unavailable E w g
  | decrypt_fails d :
      netFault E (netCalls w) = NetOk →
      remote w !! g = Some (Some (JsonDoc d)) →
      encrypted d = true → familyCode (this w) ≠ "" →
      decrypt (data d) (familyCode (this w)) = RemoteNull →
      unavailable E w g.

(** A map of records is keyed when every entry sits under its own id. *)
Definition keyed (m : jsMap record) : Prop :=
  ∀ k v, Map_get k m = Some v → id v = k.

(** A valid vector clock: every counter is a non-negative integer. *)
Definition valid_clock (a : gmap string counter) : Prop :=
  ∀ k c, a !! k = Some c → ∃ n, c = Count n ∧ 0 ≤ n.

(** [clock[actor] ?? 0] on a valid clock. *)
Definition count_of (c : option counter) : Z :=
  match c with
  | Some (Count n) => n
  | _ => 0
  end.

(** No request to the local store or to the network fails. *)
Definition calm (E : env) : Prop :=
  (∀ n, dbFault E n = false) ∧ (∀ n, netFault E n = NetOk).

(** The records of the object store [type]. *)
Definition store (w : world) (type : string) : list record :=
  default [] (Map_get type (dbRecords w)).

(** What [getRemoteData] returns when its request is answered. *)
Definition remote_view (w : world) : remoteData :=
  match gistId (this w) with
  | None => RemoteNull
  | Some g =>
      if String.eqb g "" then RemoteNull
      else
        match remote w !! g with
        | None | Some None | Some (Some EmptyText) => RemoteNull
        | Some (Some content) =>
            match parseRemote (this w) content with
            | Normal r => r
            | Throw _ => RemoteNull
            end
        end
  end.

(** The remote collection [type] as [mergeData] reads it. *)
Definition remote_items (w : world) (type : string) : list record :=
  default [] (Map_get type (collections (remote_snapshot (remote_view w)))).

(** The remote clock as [mergeData] reads it. *)
Definition remote_clock (w : world) : gmap string counter :=
  default ∅ (s_vectorClock (remote_snapshot (remote_view w))).

(** The collection [type] as a cycle started in [w] merges it. *)
Definition merged_items (E : env) (w : world) (type : string) : list record :=
  if remote_truthy (remote_view w) then
    match mergeCollection E (this w) (store w type) (remote_items w type) type with
    | Normal items => items
    | Throw _ => []
    end
  else store w type.

(** The clock a cycle started in [w] leaves in the manager. *)
Definition merged_clock (w : world) : gmap string counter :=
  if remote_truthy (remote_view w)
  then mergeClocks (vectorClock (this w)) (remote_clock w)
  else vectorClock (this w).

(** An object store after [clear] and the puts of [items]. *)
Definition saved (items : list record) : list record :=
  fold_left (λ s x, store_put id x s) items [].

(** A record that JSON carries as it is: none of its fields is undefined. *)
Definition json_data (r : record) : Prop :=
  Forall (λ p, snd p ≠ JUndefined) (fields r).

(** A collection as the engine expects it: ids unique and not empty,
    records that JSON carries as they are. *)
Definition well_keyed (items : list record) : Prop :=
  NoDup (id <$> items) ∧ Forall (λ r, id r ≠ "") items ∧
  Forall json_data items.

(** What [stampRecord] makes of an item: the id [u] when it has none, the
    creation stamp [c] when it has none, the update stamp [t]. *)
Definition stamp (u : string) (c t : jsval) (r : record) : record :=
  set_updatedAt t
    ((λ r, if negb (truthy (createdAt r)) then set_createdAt c r else r)
       (if negb (truthy (JStr (id r))) then set_id u r else r)).

(** [r'] is [r] stamped by a save. *)
Definition stamped (r r' : record) : Prop :=
  ∃ u c t, r' = stamp u c t r ∧ truthy c = true.

(** [r'] is [r] but for its [updatedAt]. *)
Definition restamped (r r' : record) : Prop :=
  r' = set_updatedAt (updatedAt r') r.

(** What the sync cycle reads and writes, the counters and the log of the
    host application apart. *)
Definition view (w : world) :=
  (this w, onLine w, dbOpen w, dbRecords w, remote w).

(** The part of the manager that a cycle reads and never writes. *)
Definition config (m : manager) :=
  (conflictResolutionStrategy m, gistId m, familyCode m).

(** What a cycle started in [w] and completed in [w'] has left, [S type]
    being the collection [type] as it was saved and uploaded. *)
Record completed (E : env) (w w' : world) (S : string → list record)
    : Prop := {
  completed_stamped :
    ∀ t, t ∈ dataTypes → Forall2 stamped (merged_items E w t) (S t);
  completed_store : ∀ t, t ∈ dataTypes → store w' t = saved (S t);
  completed_clock : vectorClock (this w') = merged_clock w;
  completed_config : config (this w') = config (this w);
  completed_onLine : onLine w' = onLine w;
  completed_dbOpen : dbOpen w' = true;
  completed_remote :
    ∀ g, gistId (this w) = Some g → g ≠ "" →
    ∃ d, remote w' !! g =
           Some (Some (JsonDoc
             {| plain := snapshot_json d; encrypted := true;
                data := Some (encrypt d (familyCode (this w))) |})) ∧
         collections d = (λ t, (t, S t)) <$> dataTypes ∧
         s_vectorClock d = Some (merged_clock w);
}.

#[global] Instance well_keyed_dec items : Decision (well_keyed items).
Proof. unfold well_keyed, json_data. apply _. Defined.

(** [m] keeps the observation [f] of the world, however it completes. *)
Definition keeps {A B} (f : world → B) (m : M A) : Prop :=
  ∀ w, f (snd (m w)) = f w.

(** At most one call holds the flag, and the flag is up exactly while one
    does. *)
Definition exclusive (s : world * list task) : Prop :=
  (length (snd s) ≤ 1)%nat ∧
  (syncInProgress (this (fst s)) = true ↔ snd s ≠ []).

(** [n] calls of [processSyncQueue] in a row. *)
Fixpoint drains (E : env) (n : nat) (w : world) : world :=
  match n with
  | O => w
  | S n' => drains E n' (snd (processSyncQueue E w))
  end.

(** The manager after the clock increment of [syncOperation]. *)
Definition bumped (m : manager) : manager :=
  set_vectorClock
    (<[memberCode m := increment (vectorClock m !! memberCode m)]>
       (vectorClock m)) m.


(** ** [SecurityManager]: the helpers that take no key

    A JavaScript string is the sequence of its code units; the strings here
    are those whose code units are below 256, one [ascii] each, so that
    [String.length] is [.length]. *)

Module SecurityManager.

(** The character with the given code. *)
Definition quote : ascii := ascii_of_nat 34.

(** [\d]. *)
Definition is_digit (c : ascii) : bool :=
  (48 <=? nat_of_ascii c)%nat && (nat_of_ascii c <=? 57)%nat.

(** [/^\d+$/.test(s)]. *)
Definition digits_only (s : string) : bool :=
  match s with
  | "" => false
  | _ => forallb is_digit (list_ascii_of_string s)
  end.

(** [/^(\d)\1+$/.test(s)]. *)
Definition one_digit_repeated (s : string) : bool :=
  match s with
  | String c (String _ _ as rest) =>
      is_digit c && forallb (Ascii.eqb c) (list_ascii_of_string rest)
  | _ => false
  end.

(** [s.includes(search)]. *)
Fixpoint includes (s search : string) : bool :=
  String.prefix search s ||
  match s with
  | "" => false
  | String _ s' => includes s' search
  end.

(** What [validatePin] returns. *)
Record validation := { valid : bool; message : string }.

(** [validatePin(pin)]; [None] is null or undefined. *)
Definition validatePin (pin : option string) : validation :=
  let minLength := 4%nat in
  let maxLength := 8%nat in
  match pin with
  | None =>
      {| valid := false; message := "PIN must be at least 4 digits" |}
  | Some pin =>
      if String.eqb pin "" || (String.length pin <? minLength)%nat then
        {| valid := false; message := "PIN must be at least 4 digits" |}
      else if (maxLength <? String.length pin)%nat then
        {| valid := false; message := "PIN must be no more than 8 digits" |}
      else if negb (digits_only pin) then
        {| valid := false; message := "PIN must contain only numbers" |}
      else
        let sequential := "0123456789" in
        let reverseSequential := "9876543210" in
        if includes sequential pin || includes reverseSequential pin then
          {| valid := false; message := "PIN cannot be sequential numbers" |}
        else if one_digit_repeated pin then
          {| valid := false; message := "PIN cannot be all the same digit" |}
        else {| valid := true; message := "PIN is valid" |}
  end.

(** [s.replace(/c/g, by)] for a single character [c] and a replacement
    without [$]. *)
Fixpoint replaceAll (c : ascii) (by_ : string) (s : string) : string :=
  match s with
  | "" => ""
  | String x s' =>
      (if Ascii.eqb x c then by_ else String x "") ++ replaceAll c by_ s'
  end.

(** [sanitizeInput(input)]; [None] is null or undefined. *)
Definition sanitizeInput (input : option string) : string :=
  match input with
  | None => ""
  | Some input =>
      if String.eqb input "" then ""
      else
        replaceAll "/" "&#x2F;"
          (replaceAll "'" "&#x27;"
             (replaceAll quote "&quot;"
                (replaceAll ">" "&gt;"
                   (replaceAll "<" "&lt;"
                      (replaceAll "&" "&amp;" input)))))
  end.

(** [x | 0] on a real number: the integer part, wrapped to 32 bits. *)
Definition ToInt32 (x : QArith_base.Q) : Z :=
  let t := if QArith_base.Qle_bool (QArith_base.Qmake 0 1) x then Qround.Qfloor x else Qround.Qceiling x in
  (t + 2147483648) mod 4294967296 - 2147483648.

Definition hex_digit (v : Z) : ascii :=
  default "0"%char (String.get (Z.to_nat v) "0123456789abcdef").

Fixpoint hex_of (fuel : nat) (v : Z) : string :=
  match fuel with
  | O => ""
  | S fuel' =>
      (if v <? 16 then "" else hex_of fuel' (v / 16)) ++
      String (hex_digit (v mod 16)) ""
  end.

(** [v.toString(16)] on an integer. *)
Definition toString16 (v : Z) : string :=
  if v <? 0 then "-" ++ hex_of (S (Z.to_nat (Z.log2 (- v)))) (- v)
  else hex_of (S (Z.to_nat (Z.log2 v))) v.

(** The callback of [generateUUID] on the character [c], [random] being
    what [Math.random()] returns to it. *)
Definition uuid_char (c : ascii) (random : QArith_base.Q) : string :=
  let r := ToInt32 (QArith_base.Qmult random (QArith_base.Qmake 16 1)) in
  let v := if Ascii.eqb c "x" then r else Z.lor (Z.land r 3) 8 in
  toString16 v.

(** [template.replace(/[xy]/g, callback)]: the calls of [Math.random] are
    numbered from [n]. *)
Fixpoint fill (Math_random : nat → QArith_base.Q) (n : nat) (template : string) : string :=
  match template with
  | "" => ""
  | String c rest =>
      if Ascii.eqb c "x" || Ascii.eqb c "y"
      then uuid_char c (Math_random n) ++ fill Math_random (S n) rest
      else String c (fill Math_random n rest)
  end.

(** [generateUUID()], [Math_random n] being the [n]-th number that
    [Math.random] returns. *)
Definition generateUUID (Math_random : nat → QArith_base.Q) (n : nat) : string :=
  fill Math_random n "xxxxxxxx-xxxx-4xxx-yxxx-xxxxxxxxxxxx".

Definition charset : string :=
  "ABCDEFGHIJKLMNOPQRSTUVWXYZabcdefghijklmnopqrstuvwxyz0123456789".

(** The [for] of [generateRandomString] from index [i] on, [values] being
    the array as [crypto.getRandomValues] filled it. *)
Fixpoint pick (values : list Z) : string :=
  match values with
  | [] => ""
  | v :: rest =>
      String (default "A"%char
                (String.get (Z.to_nat (v mod Z.of_nat (String.length charset)))
                   charset))
        (pick rest)
  end.

(** [generateRandomString(length)] for a length that is a non-negative
    integer, [random i] being the integer drawn for the element [i] of the
    array, which holds it modulo 2^32. [getRandomValues] throws on an array
    of more than 65536 bytes: [None]. *)
Definition generateRandomString (random : nat → Z) (length : nat)
    : option string :=
  if 16384 <? Z.of_nat length then None
  else Some (pick ((λ i, random i mod 4294967296) <$> seq 0 length)).

End SecurityManager.

(** The characters [sanitizeInput] replaces. *)
Definition special : list ascii :=
  ["&"; "<"; ">"; SecurityManager.quote; "'"; "/"]%char.

(** The entity [sanitizeInput] writes for a character. *)
Definition escape (c : ascii) : string :=
  if Ascii.eqb c "&" then "&amp;"
  else if Ascii.eqb c "<" then "&lt;"
  else if Ascii.eqb c ">" then "&gt;"
  else if Ascii.eqb c SecurityManager.quote then "&quot;"
  else if Ascii.eqb c "'" then "&#x27;"
  else if Ascii.eqb c "/" then "&#x2F;"
  else String c "".

(** Every character replaced by its entity, in one pass. *)
Fixpoint escape_all (s : string) : string :=
  match s with
  | "" => ""
  | String c s' => escape c ++ escape_all s'
  end.

(** A number [Math.random] can return: at least 0, less than 1. *)
Definition unit_interval (q : QArith_base.Q) : Prop :=
  QArith_base.Qle (QArith_base.Qmake 0 1) q ∧
  QArith_base.Qlt q (QArith_base.Qmake 1 1).

(** The hexadecimal digits, in lower case. *)
Definition hex_digits : list ascii :=
  list_ascii_of_string "0123456789abcdef".

(** The alphabet of [generateRandomString]. *)
Definition alphanumeric : list ascii :=
  list_ascii_of_string SecurityManager.charset.

(** The code of a character. *)
Definition code (c : ascii) : Z := Z.of_nat (nat_of_ascii c).

(** Every character of [s] is the one before it plus [k]. *)
Definition steps (k : Z) (s : string) : Prop :=
  ∀ i a b, String.get i s = Some a → String.get (S i) s = Some b →
           code b = code a + k.

(** The string of [n] characters that starts at code [c] and goes by
    [k]. *)
Fixpoint ramp (k c : Z) (n : nat) : string :=
  match n with
  | O => ""
  | S n' => String (ascii_of_nat (Z.to_nat c)) (ramp k (c + k) n')
  end.
(** What [fill] puts in the place of a character of the template. *)
Definition filled (c c' : ascii) : Prop :=
  if Ascii.eqb c "x" then c' ∈ hex_digits
  else if Ascii.eqb c "y" then c' ∈ ["8"; "9"; "a"; "b"]%char
  else c' = c.


(** The ids seen so far, with [k] added at the end when it is new. *)
Definition add_id (ks : list string) (k : string) : list string :=
  if bool_decide (k ∈ ks) then ks else (ks ++ [k])%list.

(** The members of [l], each once, in the order of their first
    occurrence. *)
Definition first_seen (l : list string) : list string :=
  fold_left add_id l [].

(** ** The life cycle of the manager *)

(** The assignments of [init] to [familyCode], [memberCode] and
    [gistId]. *)
Definition set_identity (family member : string) (gist : option string)
    (m : manager) : manager :=
  {| syncInProgress := syncInProgress m;
     conflictResolutionStrategy := conflictResolutionStrategy m;
     vectorClock := vectorClock m; syncQueue := syncQueue m;
     lastSyncTime := lastSyncTime m; gistToken := gistToken m;
     familyCode := family; memberCode := member; gistId := gist |}.

Definition set_familyCode (family : string) (m : manager) : manager :=
  set_identity family (memberCode m) (gistId m) m.

Definition set_gistId (gist : option string) (m : manager) : manager :=
  set_identity (familyCode m) (memberCode m) gist m.

(** The file of a gist as [createGist] writes it: a JSON object with the
    properties [created] and [familyCode], none of which the engine reads
    back. *)
Definition new_file : fileContent :=
  JsonDoc {| plain := empty_snapshot; encrypted := false; data := None |}.

Section Lifecycle.

Variable E : env.

(** [getAll('syncQueue')] without a key: the stored items, as values. *)
Definition db_getAll_syncQueue : M (list queueItem) :=
  db_ensure E ;; db_request E ;; gets dbSyncQueue.

(** The objects that hold the values [items]: new ones, at the end of the
    heap. *)
Definition allocate (items : list queueItem) : M (list loc) :=
  l ← gets (λ w, length (heap w));
  modify (set_heap (λ h, app h items)) ;;
  ret (seq l (length items)).

(** [loadSyncQueue()]. *)
Definition loadSyncQueue : M unit :=
  try_catch
    (db ← gets dbOpen;
     if db then
       queue ← db_getAll_syncQueue;
       queue ← allocate queue;
       modify (λ w,
         set_this (set_syncQueue (List.filter (is_pending w) queue)) w)
     else ret tt)
    (λ error, ret tt).

(** [init(familyCode, memberCode, gistId)]. The call of [loadSyncQueue] it
    starts is run to its end here; the timer and the listeners it installs
    are the triggers of [step]. *)
Definition init (familyCode memberCode : string) (gistId : option string)
    : M unit :=
  modify (set_this (set_identity familyCode memberCode gistId)) ;;
  modify (set_this (λ m,
    if negb (counter_truthy (vectorClock m !! memberCode))
    then set_vectorClock (<[memberCode := Count 0]> (vectorClock m)) m
    else m)) ;;
  loadSyncQueue.

(** [createGist()], [newId] being the id of the gist in the answer of the
    server; it is returned in the place of the answer. The clock is read
    for the property [created] before the request is made. *)
Definition createGist (newId : string) : M string :=
  created ← Date_now E;
  out ← net_request E;
  match out with
  | NetDown => throw (TypeError "Failed to fetch")
  | NetError code =>
      throw (Error ("Failed to create gist: " ++ show_status code))
  | NetBadBody =>
      modify (set_remote (<[newId := Some new_file]>)) ;;
      throw (Error "Unexpected end of JSON input")
  | NetOk =>
      modify (set_remote (<[newId := Some new_file]>)) ;;
      modify (set_this (set_gistId (Some newId))) ;;
      ret newId
  end.

End Lifecycle.

(** [m] leaves the observation [f] of the world as it is when it throws. *)
Definition keeps_on_throw {A B} (f : world → B) (m : M A) : Prop :=
  ∀ w e, fst (m w) = Throw e → f (snd (m w)) = f w.

(** [m] never throws. *)
Definition total {A} (m : M A) : Prop :=
  ∀ w, ∃ a, fst (m w) = Normal a.

(** The values of the items of the queue, in order. *)
Definition queued (w : world) : list (option queueItem) :=
  (λ l, heap w !! l) <$> syncQueue (this w).

(** The item [queueOperation] builds in world [w] for the payload [op], as
    the local store has stamped it. *)
Definition new_item (E : env) (op : option (jsMap jsval)) (w : world)
    : queueItem :=
  {| q_id := uuid E (drawn w);
     timestamp := clock E (ticks w);
     q_memberCode := memberCode (this w);
     operation := op;
     q_vectorClock := vectorClock (this w);
     status := "pending";
     error := None;
     retryCount := None;
     q_createdAt := JStr (toISOString (clock E (S (ticks w))));
     q_updatedAt := JStr (toISOString (clock E (S (S (ticks w))))) |}.

(** The id of the item at [l]; [None] when there is no such item. *)
Definition id_at (w : world) (l : loc) : option string :=
  q_id <$> heap w !! l.

(** The item at [l] has a payload. *)
Definition has_payload (w : world) (l : loc) : Prop :=
  ∃ q p, heap w !! l = Some q ∧ operation q = Some p.

(** The clock after the increment of [syncOperation] for [member]. *)
Definition bump (member : string) (vc : gmap string counter)
    : gmap string counter :=
  <[member := increment (vc !! member)]> vc.

(** What the host application and the caller can see of the outcome of a
    sync: the calls made to the host application, whether one is attached,
    and the time of the last sync. *)
Definition report (w : world) :=
  (uiLog w, appContext w, lastSyncTime (this w)).

(** The calls [syncNow] makes to the host application when it succeeds, and
    when it fails. *)
Definition told_success : list (string * string) :=
  [("setSyncStatus", "success");
   ("showNotification", "Data synced successfully!")].

Definition told_error : list (string * string) :=
  [("setSyncStatus", "error");
   ("showNotification", "Sync failed. Will retry...")].

(** ** The local store: single records

    The methods of [IndexedDBManager] that read and write one record,
    without a key, on a store of records: the items of the sync queue are
    kept apart in the world. *)

(** What [get] resolves to. *)
Inductive got :=
  | Found (r : record)
  | GotUndefined
  | GotNull.

(** [!existing]. *)
Definition missing (g : got) : bool :=
  match g with Found _ => false | _ => true end.

(** [{...a, ...b}] on the properties of two objects. *)
Definition spread (a b : jsMap jsval) : jsMap jsval :=
  fold_left (λ o p, Map_set (fst p) (snd p) o) b a.

(** The properties a record holds apart from its [fields]. *)
Definition stamp_names : list string := ["id"; "updatedAt"; "createdAt"].

(** [store.get(i)] on the values of an object store. *)
Definition store_get (i : string) (s : list record) : option record :=
  List.find (λ r, String.eqb (id r) i) s.

(** [store.delete(i)]. *)
Definition store_delete (i : string) (s : list record) : list record :=
  List.filter (λ r, negb (String.eqb (id r) i)) s.

Section Records.

Variable E : env.

(** [this.db.transaction([storeName], mode)]: a name that is not an object
    store of the database throws a NotFoundError. *)
Definition db_transaction (storeName : string) : M unit :=
  if bool_decide (storeName ∈ stores) then ret tt
  else throw (Error "One of the specified object stores was not found.").

(** [save(storeName, data)] without a key: the key of the record put. *)
Definition db_save (storeName : string) (data : record) : M string :=
  db_ensure E ;;
  db_transaction storeName ;;
  data ← stampRecord E data;
  db_request E ;;
  modify (set_dbRecords (λ d,
    Map_set storeName
      (store_put id data (default [] (Map_get storeName d))) d)) ;;
  ret (id data).

(** [get(storeName, id)] without a key. The [try] covers the start of the
    request, not its outcome: a request that fails rejects the call. *)
Definition db_get (storeName i : string) : M got :=
  db_ensure E ;;
  started ← try_catch (db_transaction storeName ;; ret true)
                      (λ error, ret false);
  if started then
    db_request E ;;
    gets (λ w, match store_get i (default [] (Map_get storeName (dbRecords w))) with
               | Some r => Found r
               | None => GotUndefined
               end)
  else ret GotNull.

(** [update(storeName, id, updates)] without a key, [updates] being the
    properties of the object given. *)
Definition db_update (storeName i : string) (updates : jsMap jsval)
    : M string :=
  existing ← db_get storeName i;
  match existing with
  | Found existing =>
      now ← Date_now E;
      db_save storeName
        {| id := i;
           updatedAt := JStr (toISOString now);
           createdAt :=
             default (createdAt existing) (Map_get "createdAt" updates);
           fields :=
             spread (fields existing)
               (List.filter (λ p, negb (bool_decide (fst p ∈ stamp_names)))
                  updates) |}
  | _ =>
      throw (Error ("Item with ID " ++ i ++ " not found in " ++ storeName))
  end.

(** [delete(storeName, id)]. *)
Definition db_delete (storeName i : string) : M unit :=
  db_ensure E ;;
  db_transaction storeName ;;
  db_request E ;;
  modify (set_dbRecords (λ d,
    Map_set storeName
      (store_delete i (default [] (Map_get storeName d))) d)).

End Records.

(** The object store [storeName] holds the record [r] under the key [i]. *)
Definition holds (w : world) (storeName i : string) (r : record) : Prop :=
  store_get i (store w storeName) = Some r.

(** The property [name] of a record; [None] when it has none. *)
Definition property (name : string) (r : record) : option jsval :=
  if String.eqb name "id" then Some (JStr (id r))
  else if String.eqb name "updatedAt" then Some (updatedAt r)
  else if String.eqb name "createdAt" then Some (createdAt r)
  else Map_get name (fields r).

(** What a world keeps of the database while records are stamped. *)
Definition db_state (w : world) := (dbOpen w, dbRecords w, dbCalls w).

(** What leaves the device: the requests made so far and what the server
    holds; with it, the gist the manager is set to. *)
Definition network (w : world) := (netCalls w, remote w).

Definition network_and_gist (w : world) :=
  (netCalls w, remote w, gistId (this w)).

(** * Properties *)

(** ** The monad, step by step *)

Lemma bind_gets {A C} (g : world → A) (k : A → M C) w :
  bind (gets g) k w = k (g w) w.
Proof. reflexivity. Qed.

Lemma bind_modify {C} (g : world → world) (k : unit → M C) w :
  bind (modify g) k w = k tt (g w).
Proof. reflexivity. Qed.

Lemma bind_ret {A C} (a : A) (k : A → M C) w : bind (ret a) k w = k a w.
Proof. reflexivity. Qed.

Lemma try_finally_modify {A} (m : M A) (g : world → world) w :
  try_finally m (modify g) w = (fst (m w), g (snd (m w))).
Proof. unfold try_finally, modify. destruct (m w). reflexivity. Qed.

Lemma bind_throws {A C} (m : M A) (k : A → M C) w e w' :
  m w = (Throw e, w') → bind m k w = (Throw e, w').
Proof. intros H. unfold bind. rewrite H. reflexivity. Qed.

Lemma bind_returns {A C} (m : M A) (k : A → M C) w a w' :
  m w = (Normal a, w') → bind m k w = k a w'.
Proof. intros H. unfold bind. rewrite H. reflexivity. Qed.

Lemma bind_generateUUID {C} (E : env) (k : string → M C) w :
  bind (generateUUID E) k w = k (uuid E (drawn w)) (next_draw w).
Proof. reflexivity. Qed.

Lemma bind_Date_now {C} (E : env) (k : Z → M C) w :
  bind (Date_now E) k w = k (clock E (ticks w)) (next_tick w).
Proof. reflexivity. Qed.

Lemma bind_assoc {A B C} (m : M A) (f : A → M B) (k : B → M C) w :
  bind (bind m f) k w = bind m (λ a, bind (f a) k) w.
Proof. unfold bind. destruct (m w) as [[a|e] w']; reflexivity. Qed.

(** ** What a computation leaves alone *)

Section Keeps.

Context {B : Type} (f : world → B).

Lemma keeps_ret {A} (a : A) : keeps f (ret a).
Proof. intros w. reflexivity. Qed.

Lemma keeps_throw {A} e : keeps f (throw (A := A) e).
Proof. intros w. reflexivity. Qed.

Lemma keeps_lift {A} (c : completion A) : keeps f (lift c).
Proof. intros w. reflexivity. Qed.

Lemma keeps_gets {A} (g : world → A) : keeps f (gets g).
Proof. intros w. reflexivity. Qed.

Lemma keeps_modify (g : world → world) :
  (∀ w, f (g w) = f w) → keeps f (modify g).
Proof. intros H w. apply H. Qed.

Lemma keeps_bind {A C} (m : M A) (k : A → M C) :
  keeps f m → (∀ a, keeps f (k a)) → keeps f (bind m k).
Proof.
  intros Hm Hk w. unfold bind. specialize (Hm w).
  destruct (m w) as [[a|e] w']; simpl in *.
  - rewrite (Hk a w'). exact Hm.
  - exact Hm.
Qed.

Lemma keeps_try_catch {A} (m : M A) (h : jsError → M A) :
  keeps f m → (∀ e, keeps f (h e)) → keeps f (try_catch m h).
Proof.
  intros Hm Hh w. unfold try_catch. specialize (Hm w).
  destruct (m w) as [[a|e] w']; simpl in *.
  - exact Hm.
  - rewrite (Hh e w'). exact Hm.
Qed.

Lemma keeps_try_finally {A} (m : M A) (fin : M unit) :
  keeps f m → keeps f fin → keeps f (try_finally m fin).
Proof.
  intros Hm Hf w. unfold try_finally. specialize (Hm w).
  destruct (m w) as [c w']. specialize (Hf w').
  destruct (fin w') as [[u|e] w'']; simpl in *; congruence.
Qed.

Lemma keeps_forEach {A} (g : A → M unit) (l : list A) :
  (∀ x, x ∈ l → keeps f (g x)) → keeps f (forEach g l).
Proof.
  induction l as [|x l IH]; intros H; cbn [forEach].
  - apply keeps_ret.
  - apply keeps_bind.
    + apply H. apply elem_of_cons. auto.
    + intros _. apply IH. intros y Hy. apply H. apply elem_of_cons. auto.
Qed.

Lemma keeps_mapM {A C} (g : A → M C) (l : list A) :
  (∀ x, keeps f (g x)) → keeps f (mapM g l).
Proof.
  intros H. induction l as [|x l IH]; cbn [mapM].
  - apply keeps_ret.
  - apply keeps_bind; [apply H | intros y].
    apply keeps_bind; [apply IH | intros ys]. apply keeps_ret.
Qed.

End Keeps.

(** Splits a goal [keeps f m] along the structure of [m]. *)
Ltac frame_step :=
  lazymatch goal with
  | |- keeps _ (ret _) => apply keeps_ret
  | |- keeps _ (throw _) => apply keeps_throw
  | |- keeps _ (gets _) => apply keeps_gets
  | |- keeps _ (lift _) => apply keeps_lift
  | |- keeps _ (bind _ _) => apply keeps_bind; [| intros ?]
  | |- keeps _ (try_catch _ _) => apply keeps_try_catch; [| intros ?]
  | |- keeps _ (try_finally _ _) => apply keeps_try_finally
  | |- keeps _ (mapM _ _) => apply keeps_mapM; intros ?
  | |- keeps _ (modify _) => apply keeps_modify; intros ?
  | |- keeps _ (if ?b then _ else _) => destruct b
  | |- keeps _ (match ?x with _ => _ end) => destruct x
  end.

Ltac frame := repeat frame_step.

(** The database calls touch neither the manager nor the heap. *)
Lemma db_request_keeps {B} (E : env) (f : world → B) :
  (∀ w, f (next_dbCall w) = f w) → keeps f (db_request E).
Proof. intros H w. unfold db_request. destruct (dbFault E (dbCalls w)); apply H. Qed.

Lemma Date_now_keeps {B} (E : env) (f : world → B) :
  (∀ w, f (next_tick w) = f w) → keeps f (Date_now E).
Proof. intros H w. apply H. Qed.

Lemma generateUUID_keeps {B} (E : env) (f : world → B) :
  (∀ w, f (next_draw w) = f w) → keeps f (generateUUID E).
Proof. intros H w. apply H. Qed.

Lemma net_request_keeps {B} (E : env) (f : world → B) :
  (∀ w, f (next_netCall w) = f w) → keeps f (net_request E).
Proof. intros H w. apply H. Qed.

(** ** The conflict resolver *)

Lemma js_gt_irrefl (a : number) : js_gt a a = false.
Proof. destruct a as [x|]; simpl; [apply Z.ltb_irrefl | reflexivity]. Qed.

Lemma resolveConflict_lww (E : env) self local remote type :
  conflictResolutionStrategy self = "last-write-wins" →
  resolveConflict E self local remote type =
    Normal (if js_gt (recordTime E local) (recordTime E remote)
            then local else remote).
Proof. intros Hs. unfold resolveConflict. rewrite Hs. reflexivity. Qed.

(** C1, as the code has it: under ['last-write-wins'] the local record is
    returned exactly when its time stamp is strictly the higher one; the
    remote record is returned when its own is higher, when the two are equal,
    and when one of them is no valid date. *)
Theorem resolveConflict_last_write_wins (E : env) self local remote type :
  conflictResolutionStrategy self = "last-write-wins" →
  (∀ tl tr, recordTime E local = Some tl → recordTime E remote = Some tr →
     tr < tl → resolveConflict E self local remote type = Normal local) ∧
  (∀ tl tr, recordTime E local = Some tl → recordTime E remote = Some tr →
     tl < tr → resolveConflict E self local remote type = Normal remote) ∧
  (recordTime E local = recordTime E remote →
     resolveConflict E self local remote type = Normal remote) ∧
  (recordTime E local = None ∨ recordTime E remote = None →
     resolveConflict E self local remote type = Normal remote).
Proof.
  intros Hs. rewrite (resolveConflict_lww E _ _ _ _ Hs).
  repeat split.
  - intros tl tr -> -> Hlt. simpl.
    destruct (Z.ltb_spec tr tl); [reflexivity | lia].
  - intros tl tr -> -> Hlt. simpl.
    destruct (Z.ltb_spec tr tl); [lia | reflexivity].
  - intros ->. rewrite js_gt_irrefl. reflexivity.
  - intros [-> | ->]; [reflexivity |].
    destruct (recordTime E local); reflexivity.
Qed.

Lemma resolveConflict_last_write_wins_witness :
  resolveConflict quiet (alice "last-write-wins" None) t1_newer t1_remote
    "transactions" = Normal t1_newer ∧
  resolveConflict quiet (alice "last-write-wins" None) t1_local t1_newer
    "transactions" = Normal t1_newer ∧
  resolveConflict quiet (alice "last-write-wins" None) t1_local t1_remote
    "transactions" = Normal t1_remote.
Proof.
  pose proof (resolveConflict_last_write_wins quiet
                (alice "last-write-wins" None)) as H.
  split; [| split].
  - destruct (H t1_newer t1_remote "transactions" eq_refl) as (Hl & _).
    apply (Hl 1704103500000 1704103200000); [reflexivity | reflexivity | lia].
  - destruct (H t1_local t1_newer "transactions" eq_refl) as (_ & Hr & _).
    apply (Hr 1704103200000 1704103500000); [reflexivity | reflexivity | lia].
  - destruct (H t1_local t1_remote "transactions" eq_refl) as (_ & _ & Ht & _).
    apply Ht. reflexivity.
Defined.

(** C1 as stated fails on a tie: two versions of [t1] with equal time stamps
    resolve to the remote one, which is not the local one. *)
Lemma resolveConflict_tie_is_remote :
  recordTime quiet t1_local = recordTime quiet t1_remote ∧
  resolveConflict quiet (alice "last-write-wins" None) t1_local t1_remote
    "transactions" = Normal t1_remote ∧
  t1_remote ≠ t1_local.
Proof. split; [reflexivity | split; [reflexivity | discriminate]]. Qed.

(** C9: under ['manual'] the resolver throws at the call of the missing
    [queueConflict]; no record is returned, whatever the pair. *)
Theorem resolveConflict_manual_throws (E : env) self local remote type :
  conflictResolutionStrategy self = "manual" →
  resolveConflict E self local remote type =
    Throw (TypeError "this.queueConflict is not a function").
Proof. intros Hs. unfold resolveConflict. rewrite Hs. reflexivity. Qed.

Lemma resolveConflict_manual_throws_witness :
  resolveConflict quiet (alice "manual" None) t1_local t1_remote "transactions"
    = Throw (TypeError "this.queueConflict is not a function").
Proof. apply (resolveConflict_manual_throws quiet); reflexivity. Defined.

(** C10: a strategy that is none of the four named ones takes the
    [default] branch, which returns the local record. *)
Theorem resolveConflict_default (E : env) self local remote type :
  conflictResolutionStrategy self ≠ "last-write-wins" →
  conflictResolutionStrategy self ≠ "remote-wins" →
  conflictResolutionStrategy self ≠ "local-wins" →
  conflictResolutionStrategy self ≠ "manual" →
  resolveConflict E self local remote type = Normal local.
Proof.
  intros H1 H2 H3 H4. unfold resolveConflict.
  repeat match goal with
  | |- context [String.eqb ?a ?b] =>
      destruct (String.eqb_spec a b); [congruence |]
  end.
  reflexivity.
Qed.

Lemma resolveConflict_default_witness :
  resolveConflict quiet (alice "newest-first" None) t1_local t1_newer
    "transactions" = Normal t1_local.
Proof. apply (resolveConflict_default quiet); discriminate. Defined.
(** ** The map of [mergeCollection] *)

Section MapFacts.

Context {V : Type}.
Implicit Types (m : jsMap V) (k : string) (v : V).

Lemma Map_get_set k v m k' :
  Map_get k' (Map_set k v m) = if String.eqb k k' then Some v else Map_get k' m.
Proof.
  induction m as [|[k0 v0] m IH]; simpl.
  - reflexivity.
  - destruct (String.eqb_spec k0 k) as [->|Hne]; simpl.
    + destruct (String.eqb_spec k k'); reflexivity.
    + rewrite IH. destruct (String.eqb_spec k0 k') as [->|Hne'].
      * destruct (String.eqb_spec k k'); [congruence | reflexivity].
      * reflexivity.
Qed.

Lemma Map_get_set_eq k v m : Map_get k (Map_set k v m) = Some v.
Proof. rewrite Map_get_set, String.eqb_refl. reflexivity. Qed.

Lemma Map_get_set_ne k v m k' :
  k ≠ k' → Map_get k' (Map_set k v m) = Map_get k' m.
Proof.
  intros Hne. rewrite Map_get_set.
  destruct (String.eqb_spec k k'); [congruence | reflexivity].
Qed.

Lemma Map_get_None k m : Map_get k m = None ↔ k ∉ m.*1.
Proof.
  induction m as [|[k0 v0] m IH]; simpl.
  - split; [intros _; apply not_elem_of_nil | reflexivity].
  - rewrite not_elem_of_cons.
    destruct (String.eqb_spec k0 k) as [->|Hne].
    + split; [discriminate | intros [? _]; congruence].
    + rewrite IH. split; [intros ?; split; [congruence | assumption] | intros [_ ?]; assumption].
Qed.

Lemma Map_get_is_Some k m : is_Some (Map_get k m) ↔ k ∈ m.*1.
Proof.
  destruct (Map_get k m) as [v|] eqn:Hg.
  - split; [intros _ | eauto].
    destruct (decide (k ∈ m.*1)) as [|Hn]; [assumption |].
    apply Map_get_None in Hn. congruence.
  - split; [intros [? ?]; discriminate |].
    intros Hin. apply Map_get_None in Hg. contradiction.
Qed.

Lemma Map_set_keys k v m :
  (Map_set k v m).*1 =
    if bool_decide (k ∈ m.*1) then m.*1 else (m.*1 ++ [k])%list.
Proof.
  induction m as [|[k0 v0] m IH]; [reflexivity |].
  cbn [Map_set]. destruct (String.eqb_spec k0 k) as [->|Hne];
    rewrite !fmap_cons; cbn [fst].
  - rewrite bool_decide_eq_true_2 by (apply elem_of_cons; auto). reflexivity.
  - rewrite IH. case_bool_decide as H1.
    + rewrite bool_decide_eq_true_2 by (apply elem_of_cons; auto).
      reflexivity.
    + rewrite bool_decide_eq_false_2; [reflexivity |].
      rewrite elem_of_cons. intros [?|?]; [congruence | contradiction].
Qed.

Lemma Map_set_NoDup k v m : NoDup m.*1 → NoDup (Map_set k v m).*1.
Proof.
  intros Hnd. rewrite Map_set_keys. case_bool_decide as H; [exact Hnd |].
  apply NoDup_app. split; [exact Hnd | split].
  - intros x Hx Hx'. apply list_elem_of_singleton in Hx'. subst. contradiction.
  - apply NoDup_singleton.
Qed.

Lemma Map_get_elem k v m :
  NoDup m.*1 → Map_get k m = Some v ↔ (k, v) ∈ m.
Proof.
  induction m as [|[k0 v0] m IH]; simpl; intros Hnd.
  - split; [discriminate | intros H; inversion H].
  - apply NoDup_cons in Hnd as [Hk0 Hnd].
    rewrite elem_of_cons.
    destruct (String.eqb_spec k0 k) as [->|Hne].
    + split.
      * intros [= ->]. left. reflexivity.
      * intros [[= ->]|Hin]; [reflexivity |].
        exfalso. apply Hk0. apply list_elem_of_fmap. exists (k, v). split; [reflexivity | exact Hin].
    + rewrite (IH Hnd). split; [intros ?; right; assumption |].
      intros [[= ? ?]|?]; [congruence | assumption].
Qed.

End MapFacts.

Lemma keyed_nil : keyed [].
Proof. intros k v. discriminate. Qed.

Lemma keyed_set k v m : keyed m → id v = k → keyed (Map_set k v m).
Proof.
  intros Hm Hv k' v'. rewrite Map_get_set.
  destruct (String.eqb_spec k k') as [->|Hne]; [intros [= <-]; exact Hv | apply Hm].
Qed.

Lemma keyed_values_ids m : keyed m → NoDup m.*1 → id <$> Map_values m = m.*1.
Proof.
  unfold Map_values. induction m as [|[k v] m IH]; simpl; intros Hk Hnd.
  - reflexivity.
  - apply NoDup_cons in Hnd as [Hk0 Hnd]. f_equal.
    + apply Hk. simpl. rewrite String.eqb_refl. reflexivity.
    + apply IH; [| exact Hnd]. intros k' v' Hg. apply Hk. simpl.
      destruct (String.eqb_spec k k') as [->|Hne]; [| exact Hg].
      exfalso. apply Hk0. apply Map_get_is_Some. eauto.
Qed.

Lemma elem_of_Map_values (m : jsMap record) r :
  keyed m → NoDup m.*1 → r ∈ Map_values m ↔ Map_get (id r) m = Some r.
Proof.
  intros Hk Hnd. unfold Map_values. rewrite list_elem_of_fmap. split.
  - intros ([k v] & -> & Hin). simpl.
    apply (Map_get_elem _ _ _ Hnd) in Hin. rewrite (Hk _ _ Hin). exact Hin.
  - intros Hg. exists (id r, r). split; [reflexivity |].
    apply (Map_get_elem _ _ _ Hnd). exact Hg.
Qed.

Lemma seed_snoc local x : seed (local ++ [x]) = Map_set (id x) x (seed local).
Proof. unfold seed. rewrite fold_left_app. reflexivity. Qed.

Lemma seed_keyed local : keyed (seed local).
Proof.
  induction local as [|x local IH] using rev_ind; [apply keyed_nil |].
  rewrite seed_snoc. apply keyed_set; [exact IH | reflexivity].
Qed.

Lemma seed_NoDup local : NoDup (seed local).*1.
Proof.
  induction local as [|x local IH] using rev_ind; [apply NoDup_nil_2 |].
  rewrite seed_snoc. apply Map_set_NoDup. exact IH.
Qed.

Lemma seed_keys local k : k ∈ (seed local).*1 ↔ k ∈ id <$> local.
Proof.
  induction local as [|x local IH] using rev_ind.
  - reflexivity.
  - rewrite seed_snoc, Map_set_keys, fmap_app, elem_of_app. simpl.
    rewrite list_elem_of_singleton.
    case_bool_decide as H.
    + rewrite IH. split; [auto |]. intros [?| ->]; [assumption |]. apply IH. exact H.
    + rewrite elem_of_app, list_elem_of_singleton, IH. reflexivity.
Qed.

Lemma seed_get local r :
  NoDup (id <$> local) → r ∈ local → Map_get (id r) (seed local) = Some r.
Proof.
  induction local as [|x local IH] using rev_ind; intros Hnd Hin.
  - inversion Hin.
  - rewrite seed_snoc, Map_get_set.
    rewrite fmap_app in Hnd. apply NoDup_app in Hnd as (Hnd & Hdisj & _).
    apply elem_of_app in Hin as [Hin|Hin].
    + destruct (String.eqb_spec (id x) (id r)) as [Heq|Hne].
      * exfalso. apply (Hdisj (id r)).
        -- apply list_elem_of_fmap_2. exact Hin.
        -- simpl. apply list_elem_of_singleton. congruence.
      * apply IH; assumption.
    + apply list_elem_of_singleton in Hin. subst. rewrite String.eqb_refl. reflexivity.
Qed.

Lemma seed_get_elem local k v : Map_get k (seed local) = Some v → v ∈ local.
Proof.
  induction local as [|x local IH] using rev_ind.
  - discriminate.
  - rewrite seed_snoc, Map_get_set, elem_of_app, list_elem_of_singleton.
    destruct (String.eqb_spec (id x) k); [intros [= <-]; auto | auto].
Qed.

Lemma resolveConflict_returns (E : env) self l r type :
  conflictResolutionStrategy self ≠ "manual" →
  ∃ v, resolveConflict E self l r type = Normal v ∧ (v = l ∨ v = r).
Proof.
  intros Hs. unfold resolveConflict.
  repeat match goal with
  | |- context [String.eqb ?a ?b] => destruct (String.eqb_spec a b)
  end; try congruence; eauto.
  destruct (js_gt _ _); eauto.
Qed.

Lemma mergeRemote_spec (E : env) self type R :
  conflictResolutionStrategy self ≠ "manual" →
  NoDup (id <$> R) →
  ∀ m, keyed m → NoDup m.*1 →
  ∃ m', mergeRemote E self type R m = Normal m' ∧ keyed m' ∧ NoDup m'.*1 ∧
    (∀ k, k ∉ id <$> R → Map_get k m' = Map_get k m) ∧
    (∀ r, r ∈ R → ∃ v, Map_get (id r) m' = Some v ∧
        (v = r ∨ Map_get (id r) m = Some v) ∧
        (Map_get (id r) m = None → v = r)).
Proof.
  intros Hs. induction R as [|r R IH]; intros Hnd m Hk Hm.
  - exists m. repeat split; try assumption. intros r Hr. inversion Hr.
  - rewrite fmap_cons in Hnd. apply NoDup_cons in Hnd as [Hr Hnd].
    cbn [mergeRemote].
    assert (∃ v, (match Map_get (id r) m with
                  | None => mergeRemote E self type R (Map_set (id r) r m)
                  | Some localItem =>
                      match resolveConflict E self localItem r type with
                      | Normal resolvedItem =>
                          mergeRemote E self type R (Map_set (id r) resolvedItem m)
                      | Throw e => Throw e
                      end
                  end = mergeRemote E self type R (Map_set (id r) v m)) ∧
                 id v = id r ∧
                 (v = r ∨ Map_get (id r) m = Some v) ∧
                 (Map_get (id r) m = None → v = r)) as (v & -> & Hv & Hor & Hnone).
    { destruct (Map_get (id r) m) as [l|] eqn:Hg.
      - destruct (resolveConflict_returns E self l r type Hs) as (v & -> & [->| ->]).
        + exists l. repeat split; [apply Hk; exact Hg | auto | discriminate].
        + exists r. repeat split; auto.
      - exists r. repeat split; auto. }
    destruct (IH Hnd (Map_set (id r) v m)) as (m' & Hrun & Hk' & Hm' & Hout & Hin).
    { apply keyed_set; assumption. }
    { apply Map_set_NoDup. exact Hm. }
    exists m'. split; [exact Hrun |]. split; [exact Hk' |]. split; [exact Hm' |]. split.
    + intros k Hkn. rewrite fmap_cons in Hkn. apply not_elem_of_cons in Hkn as [Hne Hkn].
      rewrite (Hout k Hkn). apply Map_get_set_ne. congruence.
    + intros r' Hr'. apply elem_of_cons in Hr' as [-> | Hr'].
      * exists v. rewrite (Hout (id r) Hr), Map_get_set_eq. auto.
      * destruct (Hin r' Hr') as (v' & Hg' & Hor' & Hnone').
        assert (id r ≠ id r') as Hne.
        { intros Heq. apply Hr. rewrite Heq. apply list_elem_of_fmap_2. exact Hr'. }
        rewrite (Map_get_set_ne _ _ _ _ Hne) in Hor', Hnone'.
        exists v'. auto.
Qed.

(** The outer join of [mergeCollection], under every strategy but
    ['manual']: for collections with unique ids the merge returns a
    collection that holds each id of either side exactly once, only records
    of either side, and every record whose id is on one side only. *)
Theorem mergeCollection_union (E : env) self L R type :
  conflictResolutionStrategy self ≠ "manual" →
  NoDup (id <$> L) → NoDup (id <$> R) →
  ∃ out, mergeCollection E self L R type = Normal out ∧
    NoDup (id <$> out) ∧
    (∀ i, i ∈ id <$> out ↔ i ∈ id <$> L ∨ i ∈ id <$> R) ∧
    (∀ r, r ∈ out → r ∈ L ∨ r ∈ R) ∧
    (∀ r, r ∈ L → id r ∉ id <$> R → r ∈ out) ∧
    (∀ r, r ∈ R → id r ∉ id <$> L → r ∈ out).
Proof.
  intros Hs HL HR. unfold mergeCollection. fold (seed L).
  destruct (mergeRemote_spec E self type R Hs HR (seed L) (seed_keyed L) (seed_NoDup L))
    as (m' & -> & Hk & Hnd & Hout & Hin).
  exists (Map_values m').
  assert (Hids : ∀ i, i ∈ m'.*1 ↔ i ∈ id <$> L ∨ i ∈ id <$> R).
  { intros i. rewrite <- Map_get_is_Some.
    destruct (decide (i ∈ id <$> R)) as [HiR|HiR].
    - split; [auto | intros _].
      apply list_elem_of_fmap in HiR as (r & -> & Hr).
      destruct (Hin r Hr) as (v & -> & _). eauto.
    - rewrite (Hout i HiR), Map_get_is_Some, seed_keys. tauto. }
  split; [reflexivity |]. rewrite (keyed_values_ids m' Hk Hnd).
  split; [exact Hnd |]. split; [exact Hids |]. split; [| split].
  - intros r Hr. apply (elem_of_Map_values m' r Hk Hnd) in Hr.
    destruct (decide (id r ∈ id <$> R)) as [HiR|HiR].
    + apply list_elem_of_fmap in HiR as (r' & Heq & Hr').
      destruct (Hin r' Hr') as (v & Hg & Hor & _). rewrite <- Heq, Hr in Hg.
      injection Hg as <-. destruct Hor as [-> | Hl]; [auto |].
      left. eapply seed_get_elem. exact Hl.
    + rewrite (Hout _ HiR) in Hr. left. eapply seed_get_elem. exact Hr.
  - intros r Hr HiR. apply (elem_of_Map_values m' r Hk Hnd).
    rewrite (Hout _ HiR). apply seed_get; assumption.
  - intros r Hr HiL. apply (elem_of_Map_values m' r Hk Hnd).
    destruct (Hin r Hr) as (v & Hg & _ & Hnone). rewrite Hg. f_equal.
    apply Hnone. apply Map_get_None. rewrite seed_keys. exact HiL.
Qed.

Lemma mergeCollection_union_witness :
  ∃ out, mergeCollection quiet (alice "last-write-wins" None)
           [t1_local; t2] [t1_newer] "transactions" = Normal out ∧
    NoDup (id <$> out) ∧
    (∀ i, i ∈ id <$> out ↔
       i ∈ id <$> [t1_local; t2] ∨ i ∈ id <$> [t1_newer]) ∧
    (∀ r, r ∈ out → r ∈ [t1_local; t2] ∨ r ∈ [t1_newer]) ∧
    (∀ r, r ∈ [t1_local; t2] → id r ∉ id <$> [t1_newer] → r ∈ out) ∧
    (∀ r, r ∈ [t1_newer] → id r ∉ id <$> [t1_local; t2] → r ∈ out).
Proof.
  apply (mergeCollection_union quiet); [discriminate | compute_done ..].
Defined.

(** C2 at a conflicting pair under ['manual']: the merge does not return a
    collection, it throws at the call of the missing [queueConflict]. *)
Lemma mergeCollection_manual_conflict_throws :
  mergeCollection quiet (alice "manual" None) [t1_local; t2] [t1_remote]
    "transactions" = Throw (TypeError "this.queueConflict is not a function").
Proof. reflexivity. Qed.
(** ** The clock merge *)

Lemma mergeClocks_lookup (a b : gmap string counter) k :
  mergeClocks a b !! k =
    match b !! k with
    | None => a !! k
    | Some c =>
        if negb (counter_truthy (a !! k))
           || js_gt (ToNumber c) (entry_number (a !! k))
        then Some c else a !! k
    end.
Proof.
  unfold mergeClocks. revert k.
  apply (map_fold_weak_ind
           (λ r (m : gmap string counter), ∀ k,
              r !! k = match m !! k with
                       | None => a !! k
                       | Some c =>
                           if negb (counter_truthy (a !! k))
                              || js_gt (ToNumber c) (entry_number (a !! k))
                           then Some c else a !! k
                       end)).
  - intros k. rewrite lookup_empty. reflexivity.
  - intros i x m r Hi IH k. unfold mergeClockEntry.
    destruct (decide (i = k)) as [->|Hne].
    + rewrite lookup_insert_eq. rewrite (IH k), Hi.
      destruct (negb (counter_truthy (a !! k)) || js_gt (ToNumber x) (entry_number (a !! k))).
      * apply lookup_insert_eq.
      * rewrite (IH k), Hi. reflexivity.
    + rewrite (lookup_insert_ne _ _ _ _ Hne).
      destruct (negb (counter_truthy (r !! i)) || js_gt (ToNumber x) (entry_number (r !! i))).
      * rewrite (lookup_insert_ne _ _ _ _ Hne). apply IH.
      * apply IH.
Qed.

Lemma mergeClocks_valid_lookup (a b : gmap string counter) k :
  valid_clock a → valid_clock b →
  mergeClocks a b !! k =
    match a !! k, b !! k with
    | None, None => None
    | x, y => Some (Count (Z.max (count_of x) (count_of y)))
    end.
Proof.
  intros Ha Hb. rewrite mergeClocks_lookup.
  destruct (b !! k) as [cb|] eqn:Hbk.
  - destruct (Hb _ _ Hbk) as (nb & -> & Hnb).
    destruct (a !! k) as [ca|] eqn:Hak.
    + destruct (Ha _ _ Hak) as (na & -> & Hna). simpl.
      destruct (Z.eqb_spec na 0) as [->|Hne]; simpl.
      * rewrite Z.max_r by lia. reflexivity.
      * destruct (Z.ltb_spec na nb).
        -- rewrite Z.max_r by lia. reflexivity.
        -- rewrite Z.max_l by lia. reflexivity.
    + simpl. rewrite Z.max_r by lia. reflexivity.
  - destruct (a !! k) as [ca|] eqn:Hak; [| reflexivity].
    destruct (Ha _ _ Hak) as (na & -> & Hna). simpl.
    rewrite Z.max_l by lia. reflexivity.
Qed.

Lemma mergeClocks_valid (a b : gmap string counter) :
  valid_clock a → valid_clock b → valid_clock (mergeClocks a b).
Proof.
  intros Ha Hb k c. rewrite (mergeClocks_valid_lookup a b k Ha Hb).
  destruct (a !! k) as [ca|] eqn:Hak, (b !! k) as [cb|] eqn:Hbk;
    try discriminate; intros [= <-]; eexists; (split; [reflexivity |]).
  - destruct (Ha _ _ Hak) as (na & -> & Hna). simpl. lia.
  - destruct (Ha _ _ Hak) as (na & -> & Hna). simpl. lia.
  - destruct (Hb _ _ Hbk) as (nb & -> & Hnb). simpl. lia.
Qed.

Lemma counter_json_valid (a : gmap string counter) :
  valid_clock a → counter_json <$> a = a.
Proof.
  intros Ha. apply map_eq. intros k. rewrite lookup_fmap.
  destruct (a !! k) as [c|] eqn:Hak; [| reflexivity].
  destruct (Ha _ _ Hak) as (n & -> & _). reflexivity.
Qed.

Lemma mergeClocks_idem (a : gmap string counter) :
  valid_clock a → mergeClocks a a = a.
Proof.
  intros Ha. apply map_eq. intros k.
  rewrite mergeClocks_valid_lookup by assumption.
  destruct (a !! k) as [c|] eqn:Hak; [| reflexivity].
  destruct (Ha _ _ Hak) as (n & -> & _). simpl. rewrite Z.max_id. reflexivity.
Qed.

Lemma mergeData_clock (E : env) localData r w :
  remote_truthy r = true →
  vectorClock (this (snd (mergeData E localData r w))) =
    mergeClocks (vectorClock (this w))
      (default ∅ (s_vectorClock (remote_snapshot r))).
Proof.
  intros Hr. unfold mergeData. rewrite Hr. cbn [negb].
  unfold bind, modify, gets, lift, ret, Date_now. cbn [this set_this].
  match goal with
  | |- context [mergeTypes ?e ?s ?l ?r ?t ?m] => destruct (mergeTypes e s l r t m)
  end; reflexivity.
Qed.


Lemma valid_clock_empty : valid_clock ∅.
Proof. intros k c H. rewrite lookup_empty in H. discriminate. Qed.

Lemma valid_clock_insert k n a :
  0 ≤ n → valid_clock a → valid_clock (<[k := Count n]> a).
Proof.
  intros Hn Ha k' c. rewrite lookup_insert.
  case_decide; [intros [= <-]; eauto | apply Ha].
Qed.

(** ** The in-progress flag *)

Lemma enqueue_keeps_flag (E : env) op :
  keeps (λ w, syncInProgress (this w)) (enqueue E op).
Proof.
  unfold enqueue, db_save_syncQueue, db_ensure, db_init, update_item.
  frame; try reflexivity.
  all: try (first [ apply generateUUID_keeps | apply Date_now_keeps | apply db_request_keeps ]; reflexivity).
Qed.

Lemma syncNow_refused (E : env) w :
  sync_refused w = true → syncNow E w = (Normal tt, w).
Proof. intros H. unfold syncNow. rewrite bind_gets, H. reflexivity. Qed.

Lemma processSyncQueue_refused (E : env) w :
  drain_refused w = true → processSyncQueue E w = (Normal tt, w).
Proof. intros H. unfold processSyncQueue. rewrite bind_gets, H. reflexivity. Qed.

Lemma syncNow_rest_clears (E : env) w :
  syncInProgress (this (snd (syncNow_rest E w))) = false.
Proof. unfold syncNow_rest. rewrite try_finally_modify. reflexivity. Qed.

Lemma syncNow_body_clears (E : env) w :
  syncInProgress (this (snd (syncNow_body E w))) = false.
Proof.
  unfold syncNow_body. rewrite bind_gets.
  destruct (appContext w); unfold ui; rewrite ?bind_modify, ?bind_ret;
    apply syncNow_rest_clears.
Qed.

Lemma drain_rest_clears (E : env) pendingOps w :
  syncInProgress (this (snd (drain_rest E pendingOps w))) = false.
Proof. unfold drain_rest. rewrite try_finally_modify. reflexivity. Qed.

Lemma drain_body_rest (E : env) w : drain_body E w = drain_rest E (pending w) w.
Proof.
  unfold drain_body, drain_rest, try_finally. rewrite bind_gets. reflexivity.
Qed.

Lemma finish_clears (E : env) t w :
  syncInProgress (this (snd (finish E t w))) = false.
Proof.
  destruct t; [apply syncNow_rest_clears | apply drain_rest_clears].
Qed.

Lemma start_exclusive (w w' : world) (running : list task) (t : task) :
  exclusive (w, running) → syncInProgress (this w) = false →
  syncInProgress (this w') = true → exclusive (w', t :: running).
Proof.
  intros [Hlen Hflag] Hp Hp'. simpl in *. rewrite Hp in Hflag.
  destruct running as [|t' running].
  - split; [simpl; lia |]. simpl. split; [intros _ ?; discriminate | intros _; exact Hp'].
  - exfalso. assert (false = true) by (apply Hflag; intros ?; discriminate).
    discriminate.
Qed.

Lemma start_sync_exclusive (s : world * list task) :
  exclusive s → exclusive (start_sync s).
Proof.
  destruct s as [w running]. intros Hs. unfold start_sync.
  destruct (sync_refused w) eqn:Hr; [exact Hs |].
  apply orb_false_elim in Hr as [Hp _].
  apply (start_exclusive w); [assumption | assumption |].
  cbn [appContext set_this]. destruct (appContext w); reflexivity.
Qed.

Lemma start_drain_exclusive (s : world * list task) :
  exclusive s → exclusive (start_drain s).
Proof.
  destruct s as [w running]. intros Hs. unfold start_drain.
  destruct (drain_refused w) eqn:Hr; [exact Hs |].
  apply orb_false_elim in Hr as [_ Hp].
  apply (start_exclusive w); [assumption | assumption | reflexivity].
Qed.

Lemma step_exclusive (E : env) s e : exclusive s → exclusive (step E s e).
Proof.
  intros Hs. destruct s as [w running]. destruct e as [| |op|t|b]; cbn [step].
  - apply start_sync_exclusive. exact Hs.
  - apply start_drain_exclusive. exact Hs.
  - pose proof (enqueue_keeps_flag E op w) as Hk. cbn beta in Hk.
    assert (exclusive (snd (enqueue E op w), running)) as Hs'.
    { destruct Hs as [Hlen Hflag]. split; [exact Hlen |]. simpl in *.
      rewrite Hk. exact Hflag. }
    destruct (enqueue E op w) as [[u|err] w']; simpl in Hs'; [| exact Hs'].
    destruct (onLine w' && negb (syncInProgress (this w'))); [| exact Hs'].
    apply start_drain_exclusive. exact Hs'.
  - case_bool_decide as Hin; [| exact Hs].
    destruct Hs as [Hlen Hflag]. cbn [fst snd] in *.
    destruct running as [|t' [|t'' running]]; simpl in Hlen; try lia.
    + inversion Hin.
    + apply list_elem_of_singleton in Hin. subst t'.
      cbn [List.remove]. destruct (task_eq_dec t t) as [_|Hne]; [| contradiction].
      split; [simpl; lia |]. cbn [fst snd]. rewrite finish_clears.
      split; [discriminate | intros H; contradiction H; reflexivity].
  - destruct b.
    + apply start_sync_exclusive, start_drain_exclusive. exact Hs.
    + exact Hs.
Qed.

Lemma run_exclusive (E : env) es : ∀ s, exclusive s → exclusive (run E s es).
Proof.
  unfold run. induction es as [|e es IH]; intros s Hs; simpl.
  - exact Hs.
  - apply IH. apply step_exclusive. exact Hs.
Qed.

(** C7: a call of [syncNow] or [processSyncQueue] that finds the flag up
    returns at once and leaves the whole world as it was; the trigger is
    dropped, not queued; and over any sequence of triggers from a world with
    the flag down at most one cycle or drain is running, the flag being up
    exactly while one is. *)
Theorem in_progress_flag_excludes (E : env) :
  (∀ w, syncInProgress (this w) = true →
     syncNow E w = (Normal tt, w) ∧ processSyncQueue E w = (Normal tt, w)) ∧
  (∀ w running, syncInProgress (this w) = true →
     step E (w, running) CallSyncNow = (w, running) ∧
     step E (w, running) CallProcessSyncQueue = (w, running)) ∧
  (∀ w es, syncInProgress (this w) = false →
     (length (snd (run E (w, []) es)) ≤ 1)%nat ∧
     (syncInProgress (this (fst (run E (w, []) es))) = true ↔
      snd (run E (w, []) es) ≠ [])).
Proof.
  split; [| split].
  - intros w Hp. split.
    + apply syncNow_refused. unfold sync_refused. rewrite Hp. reflexivity.
    + apply processSyncQueue_refused. unfold drain_refused. rewrite Hp.
      apply orb_true_r.
  - intros w running Hp. cbn [step]. unfold start_sync, start_drain,
      sync_refused, drain_refused. rewrite Hp, orb_true_r. split; reflexivity.
  - intros w es Hp. apply (run_exclusive E es (w, [])).
    split; [simpl; lia |]. simpl. rewrite Hp. split; [discriminate | intros H; contradiction H; reflexivity].
Qed.

(** ** The drain *)

Lemma processOp_keeps_other (E : env) (l l' : loc) :
  l ≠ l' → keeps (λ w, heap w !! l) (processOp E l').
Proof.
  intros Hne.
  unfold processOp, attempt, recordFailure, syncOperation, update_item,
    removeFromQueue, db_delete_syncQueue, db_ensure, db_init.
  frame; try reflexivity.
  all: try (apply db_request_keeps; reflexivity).
  all: simpl; apply list_lookup_alter_ne; congruence.
Qed.

Lemma not_pending_not_selected (w : world) (l : loc) q :
  heap w !! l = Some q → status q ≠ "pending" →
  l ∉ List.filter (is_pending w) (syncQueue (this w)).
Proof.
  intros Hq Hs Hin. apply list_elem_of_In, filter_In in Hin as [_ Hp].
  unfold is_pending in Hp. rewrite Hq in Hp.
  apply String.eqb_eq in Hp. contradiction.
Qed.

(** A drain leaves an item that is not ['pending'] exactly as it is: it is
    not attempted. *)
Theorem drain_skips_non_pending (E : env) w l q :
  heap w !! l = Some q → status q ≠ "pending" →
  heap (snd (processSyncQueue E w)) !! l = Some q.
Proof.
  intros Hq Hs. unfold processSyncQueue. rewrite bind_gets.
  destruct (drain_refused w); [exact Hq |].
  rewrite bind_modify. unfold drain_body, pending. rewrite try_finally_modify.
  cbn [snd set_this heap]. rewrite bind_gets.
  rewrite <- Hq.
  change (heap w !! l) with (heap (set_this (set_syncInProgress true) w) !! l).
  apply (keeps_forEach (λ w, heap w !! l)).
  intros l' Hl'. apply processOp_keeps_other. intros ->.
  revert Hl'. apply (not_pending_not_selected _ _ q); assumption.
Qed.

(** Hence an item marked ['failed'] is never attempted again, however many
    drains follow: its [retryCount] stays what the first failure made it. *)
Theorem failed_operation_is_never_retried (E : env) n : ∀ w l q,
  heap w !! l = Some q → status q = "failed" →
  heap (drains E n w) !! l = Some q.
Proof.
  induction n as [|n IH]; intros w l q Hq Hs; cbn [drains].
  - exact Hq.
  - apply IH; [| exact Hs].
    apply drain_skips_non_pending; [exact Hq |]. rewrite Hs. discriminate.
Qed.

Lemma syncOperation_no_payload l w q :
  heap w !! l = Some q → operation q = None →
  syncOperation l w =
    (Throw (TypeError "Cannot read properties of undefined (reading 'type')"),
     set_heap (alter (set_q_vectorClock (vectorClock (bumped (this w)))) l)
       (set_this bumped w)).
Proof.
  intros Hq Hop. unfold syncOperation.
  rewrite bind_modify, bind_gets, bind_gets. cbn [set_this heap this].
  rewrite Hq. unfold update_item. rewrite bind_modify, Hop. reflexivity.
Qed.

Lemma attempt_no_payload (E : env) l w q :
  heap w !! l = Some q → operation q = None →
  attempt E l w =
    (Throw (TypeError "Cannot read properties of undefined (reading 'type')"),
     set_heap (alter (set_q_vectorClock (vectorClock (bumped (this w)))) l)
       (set_this bumped w)).
Proof.
  intros Hq Hop. unfold attempt. apply bind_throws.
  apply (syncOperation_no_payload l w q); assumption.
Qed.

Lemma recordFailure_marks l e w q :
  heap w !! l = Some q →
  heap (snd (recordFailure l e w)) !! l = Some (mark_failed e q) ∧
  (default 0 (retryCount q) + 1 ≤ 3 →
     syncQueue (this (snd (recordFailure l e w))) = syncQueue (this w)) ∧
  (3 < default 0 (retryCount q) + 1 →
     l ∉ syncQueue (this (snd (recordFailure l e w)))).
Proof.
  intros Hq. unfold recordFailure, update_item.
  rewrite bind_modify, bind_gets. cbn [set_heap set_this heap].
  rewrite !list_lookup_alter_eq, Hq. cbn [fmap option_fmap option_map].
  assert (Hrc : retryCount (mark_failed e q) = Some (default 0 (retryCount q) + 1))
    by reflexivity.
  rewrite Hrc. cbn [default from_option Datatypes.id].
  destruct (Z.ltb_spec 3 (default 0 (retryCount q) + 1)) as [Hgt|Hle].
  - unfold removeFromQueue, modify.
    cbn [snd set_this set_heap set_syncQueue syncQueue heap this].
    rewrite !list_lookup_alter_eq, Hq. cbn [fmap option_fmap option_map].
    repeat split; [lia |].
    intros _ Hin. apply list_elem_of_In, filter_In in Hin as [_ Hf].
    unfold other_id in Hf. cbn [heap set_heap set_this] in Hf.
    rewrite !list_lookup_alter_eq, Hq in Hf.
    cbn [fmap option_fmap option_map] in Hf.
    rewrite String.eqb_refl in Hf. discriminate.
  - unfold ret. cbn [snd set_heap heap this set_this syncQueue].
    rewrite !list_lookup_alter_eq, Hq. cbn [fmap option_fmap option_map].
    repeat split. lia.
Qed.

(** An attempt that throws leaves the item marked ['failed'], with the
    reason recorded and [retryCount] one higher; the item leaves the queue
    when the count has passed 3. *)
Theorem failed_attempt_is_recorded (E : env) l w e w1 q :
  attempt E l w = (Throw e, w1) → heap w1 !! l = Some q →
  heap (snd (processOp E l w)) !! l = Some (mark_failed e q) ∧
  status (mark_failed e q) = "failed" ∧
  error (mark_failed e q) = Some (message e) ∧
  retryCount (mark_failed e q) = Some (default 0 (retryCount q) + 1) ∧
  (default 0 (retryCount q) + 1 ≤ 3 →
     syncQueue (this (snd (processOp E l w))) = syncQueue (this w1)) ∧
  (3 < default 0 (retryCount q) + 1 →
     l ∉ syncQueue (this (snd (processOp E l w)))).
Proof.
  intros Ha Hq. unfold processOp, try_catch. rewrite Ha.
  destruct (recordFailure_marks l e w1 q Hq) as (H1 & H2 & H3).
  repeat split; assumption.
Qed.

Lemma failed_attempt_is_recorded_witness :
  (heap (snd (processOp quiet 0%nat
                (snd (enqueue quiet None (set_onLine false household)))))
     !! 0%nat ≫= retryCount) = Some 1.
Proof.
  edestruct (failed_attempt_is_recorded quiet 0%nat
               (snd (enqueue quiet None (set_onLine false household))))
    as (Hm & _).
  - eapply attempt_no_payload; reflexivity.
  - reflexivity.
  - rewrite Hm. reflexivity.
Defined.

(** C4 on [queueOperation(null)], an input on which the transmission
    throws: the first drain marks the item ['failed'] with [retryCount] 1,
    and four more drains do not attempt it again; it is still queued, its
    count still 1. *)
Lemma failing_operation_stays_queued :
  syncQueue (this queued_no_payload) = [0%nat] ∧
  (heap queued_no_payload !! 0%nat ≫= retryCount) = Some 1 ∧
  syncQueue (this (drains quiet 4 queued_no_payload)) = [0%nat] ∧
  (status <$> heap (drains quiet 4 queued_no_payload) !! 0%nat) = Some "failed" ∧
  (heap (drains quiet 4 queued_no_payload) !! 0%nat ≫= retryCount) = Some 1.
Proof. vm_compute. repeat split. Qed.

Lemma in_progress_flag_excludes_witness :
  (length (snd (run quiet (household, [])
                  [CallSyncNow; CallProcessSyncQueue; CallSyncNow;
                   CallQueueOperation (Some add_transaction);
                   Finish SyncCycle; Connectivity true])) ≤ 1)%nat.
Proof.
  destruct (in_progress_flag_excludes quiet) as (_ & _ & H).
  apply (H household); reflexivity.
Defined.
(** ** The remote snapshot *)

Lemma mergeData_null (E : env) localData w :
  mergeData E localData RemoteNull w = (Normal localData, w).
Proof. reflexivity. Qed.

Lemma getRemoteData_unavailable (E : env) w g :
  gistId (this w) = Some g → g ≠ "" → unavailable E w g →
  getRemoteData E w = (Normal RemoteNull, next_netCall w).
Proof.
  intros Hg Hne Hu. unfold getRemoteData. rewrite bind_gets, Hg.
  destruct (String.eqb_spec g ""); [contradiction |].
  unfold try_catch, bind, net_request, gets, throw, ret, lift, parseRemote.
  cbn [remote next_netCall].
  destruct Hu as [H|code H|H|H Hr|H Hr|H Hr|text H Hr|H Hr|d H Hr He Hf Hd];
    rewrite H; try rewrite Hr; try reflexivity.
  rewrite He. cbn [andb truthy].
  destruct (String.eqb_spec (familyCode (this w)) ""); [contradiction |].
  cbn [negb]. rewrite Hd. reflexivity.
Qed.

(** C5: when the remote snapshot is unavailable, [getRemoteData] returns
    null and changes nothing but the count of requests; [mergeData] on a
    null remote returns the local snapshot itself and leaves the world as it
    is; so does the two in sequence. *)
Theorem unavailable_remote_is_first_sync (E : env) w g :
  gistId (this w) = Some g → g ≠ "" → unavailable E w g →
  getRemoteData E w = (Normal RemoteNull, next_netCall w) ∧
  (∀ localData w', mergeData E localData RemoteNull w' = (Normal localData, w')) ∧
  (∀ localData,
     bind (getRemoteData E) (mergeData E localData) w =
       (Normal localData, next_netCall w)).
Proof.
  intros Hg Hne Hu.
  pose proof (getRemoteData_unavailable E w g Hg Hne Hu) as Hget.
  split; [exact Hget |]. split; [intros; apply mergeData_null |].
  intros localData. unfold bind. rewrite Hget. apply mergeData_null.
Qed.

Lemma unavailable_remote_is_first_sync_witness :
  getRemoteData quiet garbled_remote =
    (Normal RemoteNull, next_netCall garbled_remote).
Proof.
  apply (unavailable_remote_is_first_sync quiet garbled_remote "g1");
    [reflexivity | discriminate |].
  apply (parse_fails _ _ _ "{oops"); reflexivity.
Defined.
(** ** Failures of the local store *)

Lemma db_request_fault (E : env) w :
  dbFault E (dbCalls w) = true →
  db_request E w = (Throw (Error "The database request failed"), next_dbCall w).
Proof. intros H. unfold db_request. rewrite H. reflexivity. Qed.

Lemma db_ensure_open (E : env) w :
  dbOpen w = true → db_ensure E w = (Normal tt, w).
Proof. intros H. unfold db_ensure. rewrite bind_gets, H. reflexivity. Qed.

Lemma db_save_syncQueue_fault (E : env) l w :
  dbOpen w = true → dbFault E (dbCalls w) = true → is_Some (heap w !! l) →
  fst (db_save_syncQueue E l w) = Throw (Error "The database request failed").
Proof.
  intros Hdb Hf [q Hq]. unfold db_save_syncQueue.
  rewrite (bind_returns _ _ _ _ _ (db_ensure_open E w Hdb)), bind_gets, Hq.
  assert (Hstep : ∀ (m : M unit) w1, dbCalls w1 = dbCalls w →
            fst (bind (db_request E) (λ _, m) w1) =
              Throw (Error "The database request failed")).
  { intros m w1 Hw1. erewrite bind_throws; [reflexivity |].
    apply db_request_fault. rewrite Hw1. exact Hf. }
  unfold update_item.
  destruct (negb (truthy (JStr (q_id q)))), (negb (truthy (q_createdAt q)));
    rewrite ?bind_generateUUID, ?bind_ret, ?bind_Date_now, ?bind_ret,
      ?bind_Date_now, ?bind_modify;
    apply Hstep; reflexivity.
Qed.

Lemma enqueue_save_fault (E : env) op w :
  dbOpen w = true → dbFault E (dbCalls w) = true →
  fst (enqueue E op w) = Throw (Error "The database request failed").
Proof.
  intros Hdb Hf. unfold enqueue.
  rewrite bind_generateUUID, bind_Date_now, !bind_gets, !bind_modify, bind_gets.
  cbn [dbOpen set_this set_heap next_tick next_draw]. rewrite Hdb.
  apply db_save_syncQueue_fault; [exact Hdb | exact Hf |].
  cbn [heap set_this set_heap next_tick next_draw].
  rewrite lookup_app_r by reflexivity. rewrite Nat.sub_diag. eexists. reflexivity.
Qed.

Lemma queueOperation_propagates (E : env) op w e w' :
  enqueue E op w = (Throw e, w') → queueOperation E op w = (Throw e, w').
Proof. intros H. unfold queueOperation. apply bind_throws. exact H. Qed.

Lemma syncNow_body_resolves (E : env) w : fst (syncNow_body E w) = Normal tt.
Proof.
  unfold syncNow_body. rewrite bind_gets.
  assert (H : ∀ w1, fst (syncNow_rest E w1) = Normal tt).
  { intros w1. unfold syncNow_rest. rewrite try_finally_modify. cbn [fst].
    unfold try_catch, bind at 1.
    destruct (syncCycle E w1) as [[d|e] w2]; [reflexivity |].
    rewrite bind_gets. destruct (appContext w2); reflexivity. }
  destruct (appContext w); try unfold ui; rewrite ?bind_modify, ?bind_ret; apply H.
Qed.

Lemma syncNow_resolves (E : env) w : fst (syncNow E w) = Normal tt.
Proof.
  unfold syncNow. rewrite bind_gets. destruct (sync_refused w); [reflexivity |].
  rewrite bind_modify. apply syncNow_body_resolves.
Qed.



(** ** Two cycles in a row *)

(** *** The object stores *)

Section StorePut.

Context {A : Type} (key : A → string).

Lemma store_put_fresh (x : A) (s : list A) :
  key x ∉ key <$> s → store_put key x s ≡ₚ x :: s.
Proof.
  induction s as [|y s IH]; intros Hx; cbn [store_put]; [reflexivity |].
  rewrite fmap_cons in Hx. apply not_elem_of_cons in Hx as [Hne Hx].
  destruct (String.compare (key x) (key y)) eqn:Hc.
  - apply String.compare_eq_iff in Hc. contradiction.
  - reflexivity.
  - rewrite (IH Hx). apply Permutation_swap.
Qed.

Lemma store_fold_fresh (l : list A) : ∀ s,
  NoDup (key <$> l) → (∀ x, x ∈ l → key x ∉ key <$> s) →
  fold_left (λ s x, store_put key x s) l s ≡ₚ (l ++ s)%list.
Proof.
  induction l as [|x l IH]; intros s Hnd Hs; cbn [fold_left]; [reflexivity |].
  rewrite fmap_cons in Hnd. apply NoDup_cons in Hnd as [Hx Hnd].
  assert (Hput : store_put key x s ≡ₚ x :: s).
  { apply store_put_fresh. apply Hs. apply elem_of_cons. auto. }
  rewrite IH; [| exact Hnd |].
  - rewrite Hput. symmetry. apply Permutation_middle.
  - intros y Hy. rewrite Hput, fmap_cons. apply not_elem_of_cons. split.
    + intros Heq. apply Hx. rewrite <- Heq. apply list_elem_of_fmap_2. exact Hy.
    + apply Hs. apply elem_of_cons. auto.
Qed.

Lemma store_fold_nil (l : list A) :
  NoDup (key <$> l) → fold_left (λ s x, store_put key x s) l [] ≡ₚ l.
Proof.
  intros Hnd. rewrite store_fold_fresh; [rewrite app_nil_r; reflexivity | exact Hnd |].
  intros x _. rewrite fmap_nil. apply not_elem_of_nil.
Qed.

End StorePut.

(** *** Maps that already hold what is set *)

Lemma Map_set_same {V} k (v : V) (m : jsMap V) :
  Map_get k m = Some v → Map_set k v m = m.
Proof.
  induction m as [|[k0 v0] m IH]; cbn [Map_get Map_set]; [discriminate |].
  destruct (String.eqb_spec k0 k) as [->|Hne].
  - intros [= ->]. reflexivity.
  - intros H. rewrite (IH H). reflexivity.
Qed.

Lemma Map_set_fresh {V} k (v : V) (m : jsMap V) :
  k ∉ m.*1 → Map_set k v m = (m ++ [(k, v)])%list.
Proof.
  induction m as [|[k0 v0] m IH]; cbn [Map_set]; [reflexivity |].
  rewrite fmap_cons. cbn [fst]. intros Hk. apply not_elem_of_cons in Hk as [Hne Hk].
  destruct (String.eqb_spec k0 k); [congruence |]. rewrite (IH Hk). reflexivity.
Qed.

Lemma seed_unique (l : list record) :
  NoDup (id <$> l) → seed l = (λ r, (id r, r)) <$> l.
Proof.
  induction l as [|x l IH] using rev_ind; intros Hnd; [reflexivity |].
  rewrite fmap_app in Hnd. apply NoDup_app in Hnd as (Hnd & Hdisj & _).
  rewrite seed_snoc, (IH Hnd), fmap_app. apply Map_set_fresh.
  rewrite <- list_fmap_compose. intros Hin. apply (Hdisj _ Hin).
  cbn. apply list_elem_of_singleton. reflexivity.
Qed.

Lemma seed_values (l : list record) :
  NoDup (id <$> l) → Map_values (seed l) = l.
Proof.
  intros Hnd. unfold Map_values. rewrite (seed_unique l Hnd).
  rewrite <- list_fmap_compose. apply list_fmap_id.
Qed.

Lemma resolveConflict_same (E : env) self r type :
  conflictResolutionStrategy self ≠ "manual" →
  resolveConflict E self r r type = Normal r.
Proof.
  intros Hs. destruct (resolveConflict_returns E self r r type Hs)
    as (v & -> & [->| ->]); reflexivity.
Qed.

Lemma mergeRemote_same (E : env) self type (R : list record) m :
  conflictResolutionStrategy self ≠ "manual" →
  (∀ r, r ∈ R → Map_get (id r) m = Some r) →
  mergeRemote E self type R m = Normal m.
Proof.
  intros Hs. induction R as [|r R IH]; intros HR; cbn [mergeRemote]; [reflexivity |].
  rewrite (HR r) by (apply elem_of_cons; auto).
  rewrite (resolveConflict_same E self r type Hs).
  rewrite Map_set_same by (apply HR, elem_of_cons; auto).
  apply IH. intros r' Hr'. apply HR, elem_of_cons. auto.
Qed.

(** Merging a collection with a copy of itself, in any order, gives it
    back. *)
Lemma mergeCollection_same (E : env) self type (L R : list record) :
  conflictResolutionStrategy self ≠ "manual" →
  NoDup (id <$> L) → (∀ r, r ∈ R → r ∈ L) →
  mergeCollection E self L R type = Normal L.
Proof.
  intros Hs HL HR. unfold mergeCollection.
  rewrite mergeRemote_same; [| exact Hs |].
  - rewrite (seed_values L HL). reflexivity.
  - intros r Hr. apply seed_get; [exact HL | apply HR; exact Hr].
Qed.

(** *** The collaborators when nothing fails *)

Section Calm.

Variable E : env.
Hypothesis Hcalm : calm E.

Lemma db_request_calm w : db_request E w = (Normal tt, next_dbCall w).
Proof. unfold db_request. rewrite (proj1 Hcalm). reflexivity. Qed.

Lemma net_request_calm w : net_request E w = (Normal NetOk, next_netCall w).
Proof. unfold net_request. rewrite (proj2 Hcalm). reflexivity. Qed.

Lemma db_getAll_calm type w :
  dbOpen w = true → db_getAll E type w = (Normal (store w type), next_dbCall w).
Proof.
  intros Hdb. unfold db_getAll.
  rewrite (bind_returns _ _ _ _ _ (db_ensure_open E w Hdb)).
  rewrite (bind_returns _ _ _ _ _ (db_request_calm w)). reflexivity.
Qed.

Lemma db_clear_calm type w :
  dbOpen w = true →
  db_clear E type w =
    (Normal tt, set_dbRecords (Map_set type []) (next_dbCall w)).
Proof.
  intros Hdb. unfold db_clear.
  rewrite (bind_returns _ _ _ _ _ (db_ensure_open E w Hdb)).
  rewrite (bind_returns _ _ _ _ _ (db_request_calm w)). reflexivity.
Qed.

Lemma getAll_loop types : ∀ w,
  dbOpen w = true →
  ∃ w', mapM (λ type, bind (db_getAll E type) (λ items, ret (type, items)))
          types w = (Normal ((λ t, (t, store w t)) <$> types), w') ∧
        view w' = view w.
Proof.
  induction types as [|t types IH]; intros w Hdb; cbn [mapM].
  - exists w. split; reflexivity.
  - rewrite (bind_returns _ _ _ (t, store w t) (next_dbCall w)).
    2:{ rewrite (bind_returns _ _ _ _ _ (db_getAll_calm t w Hdb)). reflexivity. }
    destruct (IH (next_dbCall w) Hdb) as (w' & Hrun & Hview).
    rewrite (bind_returns _ _ _ _ _ Hrun). exists w'. split; [reflexivity | exact Hview].
Qed.

Lemma getLocalData_calm w :
  dbOpen w = true →
  ∃ d w', getLocalData E w = (Normal d, w') ∧
    collections d = (λ t, (t, store w t)) <$> dataTypes ∧
    s_vectorClock d = Some (vectorClock (this w)) ∧
    view w' = view w.
Proof.
  intros Hdb. unfold getLocalData. rewrite bind_gets, Hdb, bind_ret.
  destruct (getAll_loop dataTypes w Hdb) as (w' & Hrun & Hview).
  rewrite (bind_returns _ _ _ _ _ Hrun), bind_gets, bind_Date_now.
  eexists _, _. split; [reflexivity |]. cbn [collections s_vectorClock].
  assert (this w' = this w) as -> by (injection Hview; auto).
  split; [reflexivity | split; [reflexivity | exact Hview]].
Qed.

End Calm.

(** *** The stamps of a save *)

Lemma append_nonempty (a b : string) : b ≠ "" → (a ++ b)%string ≠ "".
Proof.
  intros Hb. destruct a as [|c a]; cbn; [exact Hb | discriminate].
Qed.

Lemma toISOString_truthy t : truthy (JStr (toISOString t)) = true.
Proof.
  cbn [truthy]. apply negb_true_iff, String.eqb_neq.
  unfold toISOString. destruct (civil_from_days _) as [[y m] d].
  apply append_nonempty. discriminate.
Qed.

Lemma stampRecord_spec (E : env) r w :
  ∃ r' w', stampRecord E r w = (Normal r', w') ∧ stamped r r' ∧
           view w' = view w.
Proof.
  unfold stampRecord, stamped, stamp.
  destruct (negb (truthy (JStr (id r)))) eqn:Hid;
    rewrite ?bind_assoc, ?bind_generateUUID, !bind_ret; cbn [createdAt set_id];
    destruct (negb (truthy (createdAt r))) eqn:Hc;
    rewrite ?bind_assoc, ?bind_Date_now, !bind_ret, bind_Date_now;
    eexists _, _; (split; [reflexivity |]); (split; [| reflexivity]).
  - eexists _, _, _. split; [reflexivity | apply toISOString_truthy].
  - exists (uuid E (drawn w)), (JStr (toISOString 0)), (JStr (toISOString (clock E (ticks (next_draw w))))).
    split; [reflexivity | apply toISOString_truthy].
  - eexists "", _, _. split; [reflexivity | apply toISOString_truthy].
  - exists "", (JStr (toISOString 0)), (JStr (toISOString (clock E (ticks w)))).
    split; [reflexivity | apply toISOString_truthy].
Qed.

Lemma stamp_loop (E : env) items : ∀ w,
  ∃ items' w', mapM (stampRecord E) items w = (Normal items', w') ∧
    Forall2 stamped items items' ∧ view w' = view w.
Proof.
  induction items as [|r items IH]; intros w; cbn [mapM].
  - exists [], w. repeat split. constructor.
  - destruct (stampRecord_spec E r w) as (r' & w1 & Hr & Hs & Hv1).
    destruct (IH w1) as (items' & w2 & Hrun & Hall & Hv2).
    rewrite (bind_returns _ _ _ _ _ Hr), (bind_returns _ _ _ _ _ Hrun).
    exists (r' :: items'), w2. split; [reflexivity |].
    split; [constructor; assumption | congruence].
Qed.

Lemma stamped_id r r' : stamped r r' → id r ≠ "" → id r' = id r.
Proof.
  intros (u & c & t & -> & _) Hid. unfold stamp. cbn [truthy].
  apply String.eqb_neq in Hid. rewrite Hid. cbn [negb].
  destruct (negb (truthy (createdAt r))); reflexivity.
Qed.

Lemma stamped_createdAt r r' : stamped r r' → truthy (createdAt r') = true.
Proof.
  intros (u & c & t & -> & Hc). unfold stamp.
  destruct (negb (truthy (JStr (id r)))); cbn [createdAt set_id];
    destruct (truthy (createdAt r)) eqn:Hr; cbn [negb createdAt set_updatedAt set_createdAt set_id];
    assumption.
Qed.

Lemma stamped_restamped r r' :
  stamped r r' → id r ≠ "" → truthy (createdAt r) = true → restamped r r'.
Proof.
  intros (u & c & t & -> & _) Hid Hc. unfold restamped, stamp. cbn [truthy].
  apply String.eqb_neq in Hid. rewrite Hid. cbn [negb]. cbn beta.
  rewrite Hc. reflexivity.
Qed.

Lemma stamped_ids (l l' : list record) :
  Forall2 stamped l l' → Forall (λ r, id r ≠ "") l → id <$> l' = id <$> l.
Proof.
  induction 1 as [|r r' l l' Hs _ IH]; intros Hall; [reflexivity |].
  apply Forall_cons in Hall as [Hr Hall]. rewrite !fmap_cons.
  rewrite (stamped_id _ _ Hs Hr), (IH Hall). reflexivity.
Qed.

Lemma stamped_fields r r' : stamped r r' → fields r' = fields r.
Proof.
  intros (u & c & t & -> & _). unfold stamp.
  destruct (negb (truthy (JStr (id r)))); cbn [createdAt set_id];
    destruct (negb (truthy (createdAt r))); reflexivity.
Qed.

Lemma stamped_well_keyed (l l' : list record) :
  Forall2 stamped l l' → well_keyed l →
  well_keyed l' ∧ Forall (λ r, truthy (createdAt r) = true) l'.
Proof.
  intros Hs (Hnd & Hids & Hjson). pose proof (stamped_ids l l' Hs Hids) as Heq.
  split; [split; [| split] |].
  - rewrite Heq. exact Hnd.
  - apply Forall_fmap with (f := id) (P := λ i, i ≠ ""). rewrite Heq.
    apply Forall_fmap. exact Hids.
  - clear Heq Hnd Hids. induction Hs as [|r r' l l' Hr _ IH]; [constructor |].
    apply Forall_cons in Hjson as [Hj Hjson]. constructor; [| exact (IH Hjson)].
    unfold json_data. rewrite (stamped_fields _ _ Hr). exact Hj.
  - clear Heq Hnd Hids Hjson.
    induction Hs; constructor; eauto using stamped_createdAt.
Qed.

Lemma record_json_data (r : record) : json_data r → record_json r = r.
Proof.
  destruct r as [i u c fs]. unfold json_data, record_json.
  cbn [id updatedAt createdAt fields]. intros Hall. f_equal.
  induction Hall as [|p fs Hp _ IH]; [reflexivity |].
  cbn [List.filter]. rewrite bool_decide_eq_false_2 by exact Hp.
  cbn [negb]. rewrite IH. reflexivity.
Qed.

Lemma records_json_data (l : list record) :
  Forall json_data l → record_json <$> l = l.
Proof.
  induction 1 as [|r l Hr _ IH]; [reflexivity |].
  rewrite fmap_cons, IH, (record_json_data r Hr). reflexivity.
Qed.

(** *** Saving the merged snapshot *)

Lemma Map_set_set {V} k (v v0 : V) (m : jsMap V) :
  Map_set k v (Map_set k v0 m) = Map_set k v m.
Proof.
  induction m as [|[k1 v1] m IH]; cbn [Map_set].
  - rewrite String.eqb_refl. reflexivity.
  - destruct (String.eqb_spec k1 k) as [->|Hne]; cbn [Map_set].
    + rewrite String.eqb_refl. reflexivity.
    + destruct (String.eqb_spec k1 k); [congruence |]. rewrite IH. reflexivity.
Qed.

Section CalmSave.

Variable E : env.
Hypothesis Hcalm : calm E.

Lemma db_saveBatch_calm type items w :
  dbOpen w = true →
  ∃ items' w', db_saveBatch E type items w = (Normal items', w') ∧
    Forall2 stamped items items' ∧
    view w' = (this w, onLine w, dbOpen w,
               Map_set type
                 (fold_left (λ s x, store_put id x s) items' (store w type))
                 (dbRecords w),
               remote w).
Proof.
  intros Hdb. unfold db_saveBatch.
  rewrite (bind_returns _ _ _ _ _ (db_ensure_open E w Hdb)).
  rewrite (bind_returns _ _ _ _ _ (db_request_calm E Hcalm w)).
  destruct (stamp_loop E items (next_dbCall w)) as (items' & w1 & Hrun & Hs & Hv).
  rewrite (bind_returns _ _ _ _ _ Hrun), bind_modify.
  exists items', (set_dbRecords
    (λ d, Map_set type (fold_left (λ s x, store_put id x s) items'
                          (default [] (Map_get type d))) d) w1).
  split; [reflexivity |]. split; [exact Hs |].
  unfold view, store in *. cbn [this onLine dbOpen dbRecords remote set_dbRecords next_dbCall] in *.
  injection Hv as -> -> -> -> ->. reflexivity.
Qed.

Lemma saveCollection_calm type items w :
  type ∈ stores → dbOpen w = true →
  ∃ items' w', saveCollection E (type, items) w = (Normal (type, items'), w') ∧
    Forall2 stamped items items' ∧
    view w' = (this w, onLine w, dbOpen w,
               Map_set type (saved items') (dbRecords w), remote w).
Proof.
  intros Ht Hdb. unfold saveCollection.
  rewrite (bool_decide_eq_true_2 _ Ht).
  rewrite (bind_returns _ _ _ _ _ (db_clear_calm E Hcalm type w Hdb)).
  destruct items as [|r items].
  - cbn [length Nat.ltb Nat.leb]. exists [], (set_dbRecords (Map_set type []) (next_dbCall w)).
    split; [reflexivity |]. split; [constructor | reflexivity].
  - cbn [length Nat.ltb Nat.leb].
    destruct (db_saveBatch_calm type (r :: items)
                (set_dbRecords (Map_set type []) (next_dbCall w)) Hdb)
      as (items' & w' & Hrun & Hs & Hv).
    rewrite (bind_returns _ _ _ _ _ Hrun).
    exists items', w'. split; [reflexivity |]. split; [exact Hs |].
    rewrite Hv. unfold store, saved.
    cbn [this onLine dbOpen dbRecords remote set_dbRecords next_dbCall].
    rewrite Map_get_set_eq, Map_set_set. reflexivity.
Qed.

Lemma save_loop cols : ∀ w,
  Forall (λ e, e.1 ∈ stores) cols → dbOpen w = true →
  ∃ cols' w', mapM (saveCollection E) cols w = (Normal cols', w') ∧
    Forall2 (λ e e', e'.1 = e.1 ∧ Forall2 stamped e.2 e'.2) cols cols' ∧
    view w' = (this w, onLine w, dbOpen w,
               fold_left (λ d e, Map_set e.1 (saved e.2) d) cols' (dbRecords w),
               remote w).
Proof.
  induction cols as [|[t items] cols IH]; intros w Hall Hdb; cbn [mapM].
  - exists [], w. split; [reflexivity |]. split; [constructor | reflexivity].
  - apply Forall_cons in Hall as [Ht Hall]. cbn [fst] in Ht.
    destruct (saveCollection_calm t items w Ht Hdb) as (items' & w1 & Hrun & Hs & Hv).
    assert (Hdb1 : dbOpen w1 = true) by (injection Hv; congruence).
    destruct (IH w1 Hall Hdb1) as (cols' & w2 & Hrun2 & Hall2 & Hv2).
    rewrite (bind_returns _ _ _ _ _ Hrun), (bind_returns _ _ _ _ _ Hrun2).
    exists ((t, items') :: cols'), w2. split; [reflexivity |].
    split; [constructor; [split; [reflexivity | exact Hs] | exact Hall2] |].
    rewrite Hv2. cbn [fold_left fst snd].
    injection Hv as -> -> -> -> ->. reflexivity.
Qed.

End CalmSave.

(** *** Merging when no conflict throws *)

Lemma Map_get_tabulate {V} (f : string → V) (ks : list string) t :
  t ∈ ks → Map_get t ((λ k, (k, f k)) <$> ks) = Some (f t).
Proof.
  induction ks as [|k ks IH]; intros Hin; [inversion Hin |].
  rewrite fmap_cons. cbn [Map_get].
  destruct (String.eqb_spec k t) as [->|Hne]; [reflexivity |].
  apply IH. apply elem_of_cons in Hin as [?|?]; [congruence | assumption].
Qed.

Lemma resolveConflict_strategy (E : env) s1 s2 l r type :
  conflictResolutionStrategy s1 = conflictResolutionStrategy s2 →
  resolveConflict E s1 l r type = resolveConflict E s2 l r type.
Proof. intros H. unfold resolveConflict. rewrite H. reflexivity. Qed.

Lemma mergeRemote_strategy (E : env) s1 s2 type R :
  conflictResolutionStrategy s1 = conflictResolutionStrategy s2 →
  ∀ m, mergeRemote E s1 type R m = mergeRemote E s2 type R m.
Proof.
  intros H. induction R as [|r R IH]; intros m; cbn [mergeRemote]; [reflexivity |].
  destruct (Map_get (id r) m) as [l|]; [| apply IH].
  rewrite (resolveConflict_strategy E s1 s2 l r type H).
  destruct (resolveConflict E s2 l r type); [apply IH | reflexivity].
Qed.

Lemma mergeCollection_strategy (E : env) s1 s2 L R type :
  conflictResolutionStrategy s1 = conflictResolutionStrategy s2 →
  mergeCollection E s1 L R type = mergeCollection E s2 L R type.
Proof.
  intros H. unfold mergeCollection.
  rewrite (mergeRemote_strategy E s1 s2 type R H). reflexivity.
Qed.

Lemma mergeTypes_returns (E : env) self l r (Mf : string → list record) types :
  (∀ t, t ∈ types →
     mergeCollection E self (default [] (Map_get t (collections l)))
       (default [] (Map_get t (collections r))) t = Normal (Mf t)) →
  ∀ acc, mergeTypes E self l r types acc =
           Normal (fold_left (λ m t, Map_set t (Mf t) m) types acc).
Proof.
  induction types as [|t types IH]; intros H acc; cbn [mergeTypes fold_left];
    [reflexivity |].
  rewrite (H t) by (apply elem_of_cons; auto).
  apply IH. intros t' Ht'. apply H, elem_of_cons. auto.
Qed.

Lemma collections_rewritten (Lf Mf : string → list record) :
  fold_left (λ m t, Map_set t (Mf t) m) dataTypes
    ((λ t, (t, Lf t)) <$> dataTypes) = (λ t, (t, Mf t)) <$> dataTypes.
Proof. reflexivity. Qed.

Lemma merged_items_returns (E : env) w t :
  conflictResolutionStrategy (this w) ≠ "manual" →
  well_keyed (store w t) → well_keyed (remote_items w t) →
  remote_truthy (remote_view w) = true →
  mergeCollection E (this w) (store w t) (remote_items w t) t =
    Normal (merged_items E w t).
Proof.
  intros Hs [HL _] [HR _] Hr. unfold merged_items. rewrite Hr.
  destruct (mergeCollection_union E (this w) _ _ t Hs HL HR) as (out & -> & _).
  reflexivity.
Qed.

Lemma merged_items_well_keyed (E : env) w t :
  conflictResolutionStrategy (this w) ≠ "manual" →
  well_keyed (store w t) → well_keyed (remote_items w t) →
  well_keyed (merged_items E w t).
Proof.
  intros Hs HL HR. unfold merged_items.
  destruct (remote_truthy (remote_view w)); [| exact HL].
  destruct HL as (HL & HLid & HLj), HR as (HR & HRid & HRj).
  destruct (mergeCollection_union E (this w) _ _ t Hs HL HR)
    as (out & -> & Hnd & _ & Hfrom & _).
  split; [exact Hnd |]. split; apply Forall_forall; intros r Hr.
  - destruct (Hfrom r Hr) as [Hin|Hin];
      [apply (proj1 (Forall_forall _ _) HLid r Hin)
      | apply (proj1 (Forall_forall _ _) HRid r Hin)].
  - destruct (Hfrom r Hr) as [Hin|Hin];
      [apply (proj1 (Forall_forall _ _) HLj r Hin)
      | apply (proj1 (Forall_forall _ _) HRj r Hin)].
Qed.

(** *** The steps of a cycle when nothing fails *)

Lemma remote_view_ext (w w' : world) :
  gistId (this w') = gistId (this w) →
  familyCode (this w') = familyCode (this w) →
  remote w' = remote w → remote_view w' = remote_view w.
Proof.
  intros Hg Hf Hr. unfold remote_view. rewrite Hg, Hr.
  destruct (gistId (this w)) as [g|]; [| reflexivity].
  destruct (String.eqb g ""); [reflexivity |].
  destruct (remote w !! g) as [[c|]|]; try reflexivity.
  destruct c; try reflexivity. unfold parseRemote. rewrite Hf. reflexivity.
Qed.

Lemma remote_view_no_gist (w : world) :
  gistId_truthy (this w) = false → remote_view w = RemoteNull.
Proof.
  unfold gistId_truthy, remote_view. destruct (gistId (this w)) as [g|]; [| reflexivity].
  destruct (String.eqb g ""); [reflexivity | discriminate].
Qed.

Lemma getRemoteData_calm (E : env) w :
  calm E → getRemoteData E w = (Normal (remote_view w), next_netCall w) ∨
           (gistId_truthy (this w) = false).
Proof.
  intros Hcalm. unfold getRemoteData, remote_view, gistId_truthy. rewrite bind_gets.
  destruct (gistId (this w)) as [g|]; [| right; reflexivity].
  destruct (String.eqb g ""); [right; reflexivity | left].
  unfold try_catch.
  rewrite (bind_returns _ _ _ _ _ (net_request_calm E Hcalm w)), bind_gets.
  cbn [remote next_netCall].
  destruct (remote w !! g) as [[c|]|]; try reflexivity.
  destruct c; try reflexivity.
  - unfold lift, parseRemote. cbn [this next_netCall].
    destruct (encrypted d && truthy (JStr (familyCode (this w)))); reflexivity.
Qed.

Lemma uploadData_calm (E : env) d w g :
  calm E → gistId (this w) = Some g → g ≠ "" → is_Some (remote w !! g) →
  uploadData E d w =
    (Normal tt,
     set_remote
       (<[g := Some (JsonDoc {| plain := snapshot_json d; encrypted := true;
                                 data := Some (encrypt d (familyCode (this w))) |})]>)
       (next_netCall w)).
Proof.
  intros Hcalm Hg Hne [c Hc]. unfold uploadData. rewrite bind_gets, Hg.
  destruct (String.eqb_spec g ""); [contradiction |].
  rewrite (bind_returns _ _ _ _ _ (net_request_calm E Hcalm w)), bind_gets.
  cbn [remote next_netCall]. rewrite Hc, bind_modify. reflexivity.
Qed.

Lemma mergeData_returns (E : env) d rd w (Mf : string → list record) :
  remote_truthy rd = true →
  (∀ t, t ∈ dataTypes →
     mergeCollection E (this w) (default [] (Map_get t (collections d)))
       (default [] (Map_get t (collections (remote_snapshot rd)))) t
       = Normal (Mf t)) →
  ∃ d' w', mergeData E d rd w = (Normal d', w') ∧
    collections d' = fold_left (λ m t, Map_set t (Mf t) m) dataTypes (collections d) ∧
    s_vectorClock d' =
      Some (mergeClocks (vectorClock (this w))
              (default ∅ (s_vectorClock (remote_snapshot rd)))) ∧
    view w' =
      (set_vectorClock
         (mergeClocks (vectorClock (this w))
            (default ∅ (s_vectorClock (remote_snapshot rd)))) (this w),
       onLine w, dbOpen w, dbRecords w, remote w).
Proof.
  intros Hr HM. unfold mergeData. rewrite Hr. cbn [negb].
  rewrite bind_modify, bind_gets. cbn [this set_this].
  rewrite (bind_returns _ _ _ (fold_left (λ m t, Map_set t (Mf t) m) dataTypes (collections d))
             (set_this (λ m, set_vectorClock
                (mergeClocks (vectorClock m)
                   (default ∅ (s_vectorClock (remote_snapshot rd)))) m) w)).
  2:{ unfold lift. f_equal. apply mergeTypes_returns. intros t Ht.
      rewrite <- (HM t Ht). apply mergeCollection_strategy. reflexivity. }
  rewrite bind_Date_now. eexists _, _. split; [reflexivity |].
  split; [reflexivity |]. split; reflexivity.
Qed.

Lemma save_result (Mf : string → list record) ks : ∀ cols',
  NoDup ks →
  Forall2 (λ e e' : string * list record, e'.1 = e.1 ∧ Forall2 stamped e.2 e'.2)
    ((λ t, (t, Mf t)) <$> ks) cols' →
  ∃ S : string → list record,
    cols' = (λ t, (t, S t)) <$> ks ∧ ∀ t, t ∈ ks → Forall2 stamped (Mf t) (S t).
Proof.
  induction ks as [|k ks IH]; intros cols' Hnd Hall.
  - rewrite fmap_nil in Hall. inversion Hall. exists (λ _, []).
    split; [reflexivity |]. intros t Ht. inversion Ht.
  - rewrite fmap_cons in Hall. apply NoDup_cons in Hnd as [Hk Hnd].
    inversion Hall as [|e [k' items'] l l' [Hfst Hst] Hrest]; subst.
    cbn [fst snd] in *. subst k'.
    destruct (IH _ Hnd Hrest) as (S0 & -> & HS0).
    exists (λ t, if String.eqb t k then items' else S0 t). split.
    + rewrite fmap_cons, String.eqb_refl. f_equal.
      apply list_fmap_ext. intros i t Ht.
      destruct (String.eqb_spec t k) as [->|Hne]; [| reflexivity].
      exfalso. apply Hk. eapply list_elem_of_lookup_2. exact Ht.
    + intros t Ht. apply elem_of_cons in Ht as [->|Ht].
      * rewrite String.eqb_refl. exact Hst.
      * destruct (String.eqb_spec t k) as [->|Hne]; [contradiction | apply HS0, Ht].
Qed.

Lemma saved_untouched (S : string → list record) ks t : ∀ d0,
  t ∉ ks →
  Map_get t (fold_left (λ d (e : string * list record), Map_set e.1 (saved e.2) d)
               ((λ t, (t, S t)) <$> ks) d0) = Map_get t d0.
Proof.
  induction ks as [|k ks IH]; intros d0 Ht; [reflexivity |].
  apply not_elem_of_cons in Ht as [Hne Ht].
  rewrite fmap_cons. cbn [fold_left fst snd]. rewrite (IH _ Ht).
  apply Map_get_set_ne. congruence.
Qed.

Lemma saved_lookup (S : string → list record) ks t : ∀ d0,
  NoDup ks → t ∈ ks →
  Map_get t (fold_left (λ d (e : string * list record), Map_set e.1 (saved e.2) d)
               ((λ t, (t, S t)) <$> ks) d0) = Some (saved (S t)).
Proof.
  induction ks as [|k ks IH]; intros d0 Hnd Ht; [inversion Ht |].
  apply NoDup_cons in Hnd as [Hk Hnd].
  rewrite fmap_cons. cbn [fold_left fst snd].
  destruct (decide (t ∈ ks)) as [Hin|Hout]; [apply IH; assumption |].
  apply elem_of_cons in Ht as [->|Ht]; [| contradiction].
  rewrite (saved_untouched S ks k _ Hout). apply Map_get_set_eq.
Qed.

Lemma dataTypes_NoDup : NoDup dataTypes.
Proof. compute_done. Qed.

Lemma dataTypes_in_stores : Forall (λ t, t ∈ stores) dataTypes.
Proof. compute_done. Qed.

Lemma dataTypes_stores (f : string → list record) :
  Forall (λ e : string * list record, e.1 ∈ stores) ((λ t, (t, f t)) <$> dataTypes).
Proof.
  apply Forall_fmap. eapply Forall_impl; [apply dataTypes_in_stores |].
  intros t Ht. exact Ht.
Qed.

(** *** A cycle when nothing fails *)

Lemma remote_step (E : env) w :
  calm E →
  ∃ w', (if gistId_truthy (this w) then getRemoteData E else ret RemoteNull) w
          = (Normal (remote_view w), w') ∧ view w' = view w.
Proof.
  intros Hcalm. destruct (gistId_truthy (this w)) eqn:Hg.
  - destruct (getRemoteData_calm E w Hcalm) as [->|Hg']; [| congruence].
    eexists. split; reflexivity.
  - rewrite (remote_view_no_gist w Hg). eexists. split; reflexivity.
Qed.

Lemma merge_step (E : env) d w :
  conflictResolutionStrategy (this w) ≠ "manual" →
  (∀ t, t ∈ dataTypes → well_keyed (store w t)) →
  (∀ t, t ∈ dataTypes → well_keyed (remote_items w t)) →
  collections d = (λ t, (t, store w t)) <$> dataTypes →
  s_vectorClock d = Some (vectorClock (this w)) →
  ∃ d' w', mergeData E d (remote_view w) w = (Normal d', w') ∧
    collections d' = (λ t, (t, merged_items E w t)) <$> dataTypes ∧
    s_vectorClock d' = Some (merged_clock w) ∧
    vectorClock (this w') = merged_clock w ∧
    config (this w') = config (this w) ∧
    syncInProgress (this w') = syncInProgress (this w) ∧
    onLine w' = onLine w ∧ dbOpen w' = dbOpen w ∧
    dbRecords w' = dbRecords w ∧ remote w' = remote w.
Proof.
  intros Hs HL HR Hcols Hclock.
  destruct (remote_truthy (remote_view w)) eqn:Hr.
  - destruct (mergeData_returns E d (remote_view w) w (merged_items E w) Hr)
      as (d' & w' & Hrun & Hc & Hvc & Hv).
    { intros t Ht. rewrite Hcols, (Map_get_tabulate _ _ _ Ht).
      apply merged_items_returns; auto. }
    exists d', w'. split; [exact Hrun |].
    rewrite Hc, Hcols, collections_rewritten. split; [reflexivity |].
    unfold merged_clock. rewrite Hr, Hvc. split; [reflexivity |].
    injection Hv as -> -> -> -> ->. repeat split.
  - exists d, w. unfold mergeData. rewrite Hr. split; [reflexivity |].
    unfold merged_clock, merged_items. rewrite Hr, Hcols, Hclock.
    repeat split.
Qed.

Lemma save_step (E : env) d (Mf : string → list record) w :
  calm E → dbOpen w = true →
  collections d = (λ t, (t, Mf t)) <$> dataTypes →
  ∃ (S : string → list record) d' w',
    saveLocalData E d w = (Normal d', w') ∧
    collections d' = (λ t, (t, S t)) <$> dataTypes ∧
    s_vectorClock d' = s_vectorClock d ∧
    (∀ t, t ∈ dataTypes → Forall2 stamped (Mf t) (S t)) ∧
    (∀ t, t ∈ dataTypes → store w' t = saved (S t)) ∧
    this w' = this w ∧ onLine w' = onLine w ∧ dbOpen w' = true ∧
    remote w' = remote w.
Proof.
  intros Hcalm Hdb Hcols. unfold saveLocalData. rewrite bind_gets, Hdb, bind_ret.
  destruct (save_loop E Hcalm (collections d) w) as (cols' & w' & Hrun & Hall & Hv);
    [rewrite Hcols; apply dataTypes_stores | exact Hdb |].
  rewrite (bind_returns _ _ _ _ _ Hrun).
  rewrite Hcols in Hall.
  destruct (save_result Mf dataTypes cols' dataTypes_NoDup Hall) as (S & -> & HS).
  exists S, (snapshot_with_collections ((λ t, (t, S t)) <$> dataTypes) d), w'.
  split; [reflexivity |]. split; [reflexivity |]. split; [reflexivity |].
  split; [exact HS |].
  pose proof (f_equal (λ v, v.1.2) Hv) as Hrecs. cbn [fst snd view] in Hrecs.
  split.
  - intros t Ht. unfold store. rewrite Hrecs.
    rewrite (saved_lookup S dataTypes t _ dataTypes_NoDup Ht). reflexivity.
  - injection Hv as Hthis Honline Hopen _ Hremote. repeat split; congruence.
Qed.

Lemma upload_step (E : env) d w :
  calm E →
  (∀ g, gistId (this w) = Some g → g ≠ "" → is_Some (remote w !! g)) →
  ∃ w', (if gistId_truthy (this w) then uploadData E d else ret tt) w
          = (Normal tt, w') ∧
    this w' = this w ∧ onLine w' = onLine w ∧ dbOpen w' = dbOpen w ∧
    dbRecords w' = dbRecords w ∧
    (∀ g, gistId (this w) = Some g → g ≠ "" →
       remote w' !! g =
         Some (Some (JsonDoc
           {| plain := snapshot_json d; encrypted := true;
              data := Some (encrypt d (familyCode (this w))) |}))).
Proof.
  intros Hcalm Hpresent. unfold gistId_truthy.
  destruct (gistId (this w)) as [g|] eqn:Hg.
  - destruct (String.eqb_spec g "") as [->|Hne]; cbn [negb].
    + exists w. repeat split. intros g [= <-] Hne. contradiction.
    + rewrite (uploadData_calm E d w g Hcalm Hg Hne (Hpresent g eq_refl Hne)).
      eexists. split; [reflexivity |]. repeat split.
      intros g' [= <-] _. cbn [remote set_remote next_netCall].
      apply lookup_insert_eq.
  - exists w. repeat split. intros g Hg'. discriminate.
Qed.

Lemma syncCycle_calm (E : env) w :
  calm E → syncInProgress (this w) = true → dbOpen w = true →
  conflictResolutionStrategy (this w) ≠ "manual" →
  (∀ g, gistId (this w) = Some g → g ≠ "" → is_Some (remote w !! g)) →
  (∀ t, t ∈ dataTypes → well_keyed (store w t)) →
  (∀ t, t ∈ dataTypes → well_keyed (remote_items w t)) →
  ∃ S d' w', syncCycle E w = (Normal d', w') ∧ completed E w w' S ∧
             syncInProgress (this w') = true.
Proof.
  intros Hcalm Hflag Hdb Hs Hpresent HL HR. unfold syncCycle.
  rewrite (bind_returns _ _ _ tt w).
  2:{ apply processSyncQueue_refused. unfold drain_refused. rewrite Hflag.
      apply orb_true_r. }
  destruct (getLocalData_calm E Hcalm w Hdb) as (d & w2 & Hrun2 & Hcols & Hclock & Hv2).
  rewrite (bind_returns _ _ _ _ _ Hrun2), bind_gets.
  injection Hv2 as Hthis2 Honline2 Hopen2 Hrecs2 Hremote2.
  destruct (remote_step E w2 Hcalm) as (w3 & Hrun3 & Hv3).
  rewrite (bind_returns _ _ _ _ _ Hrun3).
  injection Hv3 as Hthis3 Honline3 Hopen3 Hrecs3 Hremote3.
  assert (Hview : remote_view w2 = remote_view w3).
  { symmetry. apply remote_view_ext; congruence. }
  assert (Hstore3 : ∀ t, store w3 t = store w t).
  { intros t. unfold store. congruence. }
  assert (Hview3 : remote_view w3 = remote_view w).
  { apply remote_view_ext; congruence. }
  assert (Hitems3 : ∀ t, remote_items w3 t = remote_items w t).
  { intros t. unfold remote_items. rewrite Hview3. reflexivity. }
  rewrite Hview.
  destruct (merge_step E d w3) as
    (d4 & w4 & Hrun4 & Hcols4 & Hclock4 & Hvc4 & Hcfg4 & Hflag4 & Honline4 &
     Hopen4 & Hrecs4 & Hremote4).
  { congruence. }
  { intros t Ht. rewrite Hstore3. auto. }
  { intros t Ht. rewrite Hitems3. auto. }
  { rewrite Hcols. apply list_fmap_ext. intros i t _. rewrite Hstore3. reflexivity. }
  { congruence. }
  rewrite (bind_returns _ _ _ _ _ Hrun4).
  destruct (save_step E d4 (merged_items E w3) w4 Hcalm) as
    (S & d5 & w5 & Hrun5 & Hcols5 & Hclock5 & Hst5 & Hstore5 & Hthis5 &
     Honline5 & Hopen5 & Hremote5); [congruence | exact Hcols4 |].
  rewrite (bind_returns _ _ _ _ _ Hrun5).
  assert (Hg5 : gistId_truthy (this w2) = gistId_truthy (this w5)).
  { unfold gistId_truthy. rewrite Hthis5.
    injection Hcfg4 as _ -> _. rewrite Hthis3. reflexivity. }
  rewrite Hg5.
  assert (Hcfg5 : config (this w5) = config (this w)) by congruence.
  destruct (upload_step E d5 w5 Hcalm) as
    (w6 & Hrun6 & Hthis6 & Honline6 & Hopen6 & Hrecs6 & Hremote6).
  { intros g Hg Hne. rewrite Hremote5, Hremote4, Hremote3, Hremote2.
    apply Hpresent; [| exact Hne]. injection Hcfg5 as _ <- _. exact Hg. }
  rewrite (bind_returns _ _ _ _ _ Hrun6), bind_Date_now, bind_modify, bind_gets.
  assert (Hmi : ∀ t, merged_items E w3 t = merged_items E w t).
  { intros t. unfold merged_items. rewrite Hview3, Hitems3, Hstore3.
    rewrite (mergeCollection_strategy E (this w3) (this w)); [reflexivity | congruence]. }
  assert (Hmc : merged_clock w3 = merged_clock w).
  { unfold merged_clock, remote_clock. rewrite Hview3, Hthis3, Hthis2. reflexivity. }
  set (w7 := set_this (set_lastSyncTime (Some (clock E (ticks w6)))) (next_tick w6)).
  assert (Hdone : completed E w w7 S).
  { constructor.
    - intros t Ht. rewrite <- Hmi. apply Hst5, Ht.
    - intros t Ht. rewrite <- (Hstore5 t Ht). unfold store, w7.
      cbn [dbRecords set_this next_tick]. rewrite Hrecs6. reflexivity.
    - unfold w7. cbn [this set_this next_tick vectorClock set_lastSyncTime].
      rewrite Hthis6, Hthis5, Hvc4. exact Hmc.
    - unfold w7, config. cbn [this set_this next_tick set_lastSyncTime
        conflictResolutionStrategy gistId familyCode].
      rewrite Hthis6. exact Hcfg5.
    - unfold w7. cbn [onLine set_this next_tick]. congruence.
    - unfold w7. cbn [dbOpen set_this next_tick]. congruence.
    - intros g Hg Hne. exists d5. split; [| split].
      + unfold w7. cbn [remote set_this next_tick].
        rewrite (Hremote6 g); [| injection Hcfg5 as _ -> _; exact Hg | exact Hne].
        injection Hcfg5 as _ _ ->. reflexivity.
      + exact Hcols5.
      + rewrite Hclock5, Hclock4. f_equal. exact Hmc. }
  assert (Hflag7 : syncInProgress (this w7) = true).
  { unfold w7. cbn [this set_this next_tick syncInProgress set_lastSyncTime].
    rewrite Hthis6, Hthis5, Hflag4, Hthis3, Hthis2. exact Hflag. }
  fold w7. cbn [appContext]. 
  destruct (appContext w7) eqn:Hctx.
  - unfold ui. rewrite bind_assoc, !bind_modify. eexists S, d5, _. split; [reflexivity |].
    split; [| exact Hflag7].
    destruct Hdone. constructor; assumption.
  - rewrite bind_ret. exists S, d5, w7. split; [reflexivity |]. split; assumption.
Qed.

Lemma completed_view (E : env) w w' S g :
  completed E w w' S → gistId (this w) = Some g → g ≠ "" →
  ∃ d, remote_view w' = RemoteObject (snapshot_json d) ∧
       collections d = (λ t, (t, S t)) <$> dataTypes ∧
       s_vectorClock d = Some (merged_clock w).
Proof.
  intros Hdone Hg Hne. destruct (completed_remote _ _ _ _ Hdone g Hg Hne)
    as (d & Hdoc & Hcols & Hclock).
  exists d. split; [| split; assumption].
  pose proof (completed_config _ _ _ _ Hdone) as Hcfg.
  injection Hcfg as _ Hg' Hf.
  unfold remote_view. rewrite Hg', Hg.
  destruct (String.eqb_spec g ""); [contradiction |].
  rewrite Hdoc. unfold parseRemote. cbn [encrypted data andb]. rewrite Hf.
  destruct (truthy (JStr (familyCode (this w)))); [| reflexivity].
  unfold encrypt, decrypt. rewrite String.eqb_refl. reflexivity.
Qed.

Lemma completed_no_gist (E : env) w w' S :
  completed E w w' S → gistId_truthy (this w) = false →
  remote_view w' = RemoteNull.
Proof.
  intros Hdone Hg. apply remote_view_no_gist.
  pose proof (completed_config _ _ _ _ Hdone) as Hcfg.
  injection Hcfg as _ Hg' _. unfold gistId_truthy in *. rewrite Hg'. exact Hg.
Qed.

Lemma gistId_truthy_Some (m : manager) :
  gistId_truthy m = true → ∃ g, gistId m = Some g ∧ g ≠ "".
Proof.
  unfold gistId_truthy. destruct (gistId m) as [g|]; [| discriminate].
  destruct (String.eqb_spec g ""); [discriminate |]. eauto.
Qed.

Lemma syncNow_calm (E : env) w :
  calm E → sync_refused w = false → dbOpen w = true →
  conflictResolutionStrategy (this w) ≠ "manual" →
  (∀ g, gistId (this w) = Some g → g ≠ "" → is_Some (remote w !! g)) →
  (∀ t, t ∈ dataTypes → well_keyed (store w t)) →
  (∀ t, t ∈ dataTypes → well_keyed (remote_items w t)) →
  ∃ S, completed E w (snd (syncNow E w)) S ∧
       syncInProgress (this (snd (syncNow E w))) = false.
Proof.
  intros Hcalm Hr Hdb Hs Hpresent HL HR.
  assert (Hclears : syncInProgress (this (snd (syncNow E w))) = false).
  { unfold syncNow. rewrite bind_gets, Hr, bind_modify. apply syncNow_body_clears. }
  assert (Hbody : ∀ w1,
            view w1 = (set_syncInProgress true (this w), onLine w, dbOpen w,
                       dbRecords w, remote w) →
            ∃ S, completed E w (snd (try_finally
                    (try_catch (bind (syncCycle E) (λ _, ret tt))
                       (λ _, bind (gets appContext) (λ ctx,
                          if ctx then bind (ui "setSyncStatus" "error")
                                   (λ _, ui "showNotification" "Sync failed. Will retry...")
                          else ret tt)))
                    (modify (set_this (set_syncInProgress false))) w1)) S).
  { intros w1 Hv. injection Hv as Hthis Honline Hopen Hrecs Hremote.
    assert (Hstore : ∀ t, store w1 t = store w t) by (intros t; unfold store; congruence).
    assert (Hview : remote_view w1 = remote_view w).
    { apply remote_view_ext; [rewrite Hthis | rewrite Hthis | exact Hremote]; reflexivity. }
    assert (Hitems : ∀ t, remote_items w1 t = remote_items w t).
    { intros t. unfold remote_items. rewrite Hview. reflexivity. }
    assert (Hmc : merged_clock w1 = merged_clock w).
    { unfold merged_clock, remote_clock. rewrite Hview, Hthis. reflexivity. }
    destruct (syncCycle_calm E w1 Hcalm) as (S & d' & w' & Hrun & Hdone & Hflag).
    { rewrite Hthis. reflexivity. }
    { congruence. }
    { rewrite Hthis. exact Hs. }
    { intros g Hg Hne. rewrite Hremote. apply Hpresent; [| exact Hne].
      rewrite Hthis in Hg. exact Hg. }
    { intros t Ht. rewrite Hstore. auto. }
    { intros t Ht. rewrite Hitems. auto. }
    exists S. rewrite try_finally_modify. unfold try_catch.
    rewrite (bind_returns _ _ _ _ _ Hrun). cbn [snd ret].
    destruct Hdone as [H1 H2 H3 H4 H5 H6 H7]. constructor.
    - intros t Ht. specialize (H1 t Ht). unfold merged_items in *.
      rewrite Hview, Hitems, Hstore in H1.
      rewrite (mergeCollection_strategy E (this w1) (this w)) in H1;
        [exact H1 | rewrite Hthis; reflexivity].
    - exact H2.
    - cbn [this set_this vectorClock set_syncInProgress]. rewrite H3.
      exact Hmc.
    - unfold config in *. cbn [this set_this set_syncInProgress
        conflictResolutionStrategy gistId familyCode]. rewrite H4, Hthis. reflexivity.
    - cbn [onLine set_this]. congruence.
    - exact H6.
    - intros g Hg Hne. destruct (H7 g) as (d & Hd1 & Hd2 & Hd3);
        [rewrite Hthis; exact Hg | exact Hne |].
      exists d. cbn [remote set_this]. rewrite Hd1, Hd2, Hd3, Hthis, Hmc.
      repeat split. }
  destruct (Hbody (if appContext w
                   then set_uiLog (λ l, app l [("setSyncStatus", "syncing")])
                          (set_this (set_syncInProgress true) w)
                   else set_this (set_syncInProgress true) w)) as (S & HS).
  { destruct (appContext w); reflexivity. }
  exists S. split; [| exact Hclears].
  unfold syncNow. rewrite bind_gets, Hr, bind_modify.
  unfold syncNow_body. rewrite bind_gets. cbn [appContext set_this].
  destruct (appContext w); try unfold ui; rewrite ?bind_modify, ?bind_ret;
    unfold syncNow_rest; exact HS.
Qed.

(** *** The second cycle *)

Lemma well_keyed_perm (l l' : list record) :
  l ≡ₚ l' → well_keyed l → well_keyed l'.
Proof.
  intros Hp (Hnd & Hall & Hjson). split; [| split].
  - rewrite <- Hp. exact Hnd.
  - rewrite <- Hp. exact Hall.
  - rewrite <- Hp. exact Hjson.
Qed.

Lemma saved_perm (l : list record) : well_keyed l → saved l ≡ₚ l.
Proof. intros [Hnd _]. apply store_fold_nil. exact Hnd. Qed.

Lemma well_keyed_nil : well_keyed [].
Proof. split; [apply NoDup_nil_2 | split; constructor]. Qed.

Lemma remote_collection (S : string → list record) d t :
  collections d = (λ t, (t, S t)) <$> dataTypes → t ∈ dataTypes →
  well_keyed (S t) →
  default [] (Map_get t (collections (snapshot_json d))) = S t.
Proof.
  intros Hcols Ht (_ & _ & Hjson). cbn [snapshot_json collections].
  rewrite Hcols, <- list_fmap_compose.
  pose proof (Map_get_tabulate (λ t, record_json <$> S t) dataTypes t Ht) as Hget.
  etransitivity; [exact (f_equal (default []) Hget) |].
  apply records_json_data, Hjson.
Qed.

Lemma Forall2_restamped (l l' : list record) :
  Forall2 stamped l l' →
  Forall (λ r, id r ≠ "") l → Forall (λ r, truthy (createdAt r) = true) l →
  Forall2 restamped l l'.
Proof.
  induction 1 as [|r r' l l' Hs _ IH]; intros Hid Hc; constructor.
  - apply stamped_restamped; [exact Hs | |].
    + apply Forall_cons in Hid as [? _]. assumption.
    + apply Forall_cons in Hc as [? _]. assumption.
  - apply IH; [apply Forall_cons in Hid as [_ ?] | apply Forall_cons in Hc as [_ ?]];
      assumption.
Qed.



(** ** [SecurityManager.validatePin] *)

Lemma code_chr x : 0 ≤ x < 256 → code (ascii_of_nat (Z.to_nat x)) = x.
Proof. intros H. unfold code. rewrite nat_ascii_embedding; lia. Qed.

Lemma chr_code a : ascii_of_nat (Z.to_nat (code a)) = a.
Proof. unfold code. rewrite Nat2Z.id. apply ascii_nat_embedding. Qed.

Lemma code_inj a b : code a = code b → a = b.
Proof. intros H. rewrite <- (chr_code a), <- (chr_code b), H. reflexivity. Qed.

Lemma get_Some_lt s : ∀ i a, String.get i s = Some a → (i < String.length s)%nat.
Proof.
  induction s as [|c s IH]; intros [|i] a H; simpl in *; try discriminate; try lia.
  apply IH in H. lia.
Qed.

Lemma get_lt_Some s : ∀ i, (i < String.length s)%nat → ∃ a, String.get i s = Some a.
Proof.
  induction s as [|c s IH]; intros [|i] H; simpl in *; try lia; eauto.
  apply IH. lia.
Qed.

Lemma prefix_ramp k : ∀ n s c,
  String.prefix s (ramp k c n) = true ↔
  (String.length s ≤ n)%nat ∧
  ∀ i a, String.get i s = Some a → a = ascii_of_nat (Z.to_nat (c + k * Z.of_nat i)).
Proof.
  induction n as [|n IH]; intros s c; cbn [ramp].
  - destruct s as [|x s]; cbn [String.prefix String.length].
    + split; [intros _ | reflexivity]. split; [lia |]. intros i a H. destruct i; discriminate.
    + split; [discriminate | intros [H _]; lia].
  - destruct s as [|x s]; cbn [String.prefix String.length].
    + split; [intros _ | reflexivity]. split; [lia |]. intros i a H. destruct i; discriminate.
    + destruct (ascii_dec x (ascii_of_nat (Z.to_nat c))) as [->|Hne].
      * rewrite IH. split; intros [Hlen Hall]; (split; [lia |]).
        -- intros [|i] a H; cbn [String.get] in H.
           ++ injection H as <-. f_equal. f_equal. lia.
           ++ rewrite (Hall i a H). f_equal. f_equal. lia.
        -- intros i a H. rewrite (Hall (S i) a H). f_equal. f_equal. lia.
      * split; [discriminate |]. intros [_ Hall]. exfalso. apply Hne.
        rewrite (Hall 0%nat x eq_refl). f_equal. f_equal. lia.
Qed.

Lemma includes_ramp k s : ∀ n c,
  SecurityManager.includes (ramp k c n) s = true ↔
  ∃ j, (j ≤ n)%nat ∧ String.prefix s (ramp k (c + k * Z.of_nat j) (n - j)) = true.
Proof.
  induction n as [|n IH]; intros c.
  - cbn [ramp SecurityManager.includes]. rewrite orb_false_r. split.
    + intros H. exists 0%nat. split; [lia |]. exact H.
    + intros (j & Hj & H). assert (j = 0%nat) as -> by lia. exact H.
  - cbn [ramp SecurityManager.includes]. fold (ramp k c (S n)).
    rewrite orb_true_iff, IH. split.
    + intros [H | (j & Hj & H)].
      * exists 0%nat. split; [lia |]. replace (c + k * Z.of_nat 0) with c by lia. exact H.
      * exists (S j). split; [lia |].
        replace (c + k * Z.of_nat (S j)) with (c + k + k * Z.of_nat j) by lia. exact H.
    + intros ([|j] & Hj & H).
      * left. replace (c + k * Z.of_nat 0) with c in H by lia. exact H.
      * right. exists j. split; [lia |].
        replace (c + k * Z.of_nat (S j)) with (c + k + k * Z.of_nat j) in H by lia. exact H.
Qed.

Lemma steps_closed k s a0 :
  steps k s → String.get 0 s = Some a0 →
  ∀ i a, String.get i s = Some a → code a = code a0 + k * Z.of_nat i.
Proof.
  intros Hs H0. induction i as [|i IH]; intros a Hi.
  - rewrite H0 in Hi. injection Hi as <-. lia.
  - destruct (get_lt_Some s i) as (b & Hb); [apply get_Some_lt in Hi; lia |].
    rewrite (Hs i b a Hb Hi), (IH b Hb). lia.
Qed.

Lemma is_digit_code a : SecurityManager.is_digit a = true ↔ 48 ≤ code a ≤ 57.
Proof.
  unfold SecurityManager.is_digit, code.
  rewrite andb_true_iff, !Nat.leb_le. lia.
Qed.

Lemma includes_run k c0 s :
  (k = 1 ∧ c0 = 48) ∨ (k = -1 ∧ c0 = 57) →
  s ≠ "" →
  (∀ i a, String.get i s = Some a → SecurityManager.is_digit a = true) →
  SecurityManager.includes (ramp k c0 10) s = true ↔ steps k s.
Proof.
  intros Hk Hne Hd. rewrite includes_ramp. split.
  - intros (j & Hj & H). apply prefix_ramp in H as [Hlen Hall].
    assert (Hcode : ∀ i a, String.get i s = Some a →
                           code a = c0 + k * Z.of_nat j + k * Z.of_nat i).
    { intros i a Hi. rewrite (Hall i a Hi). apply code_chr.
      apply get_Some_lt in Hi. destruct Hk as [[-> ->]|[-> ->]]; lia. }
    intros i a b Ha Hb. rewrite (Hcode _ _ Ha), (Hcode _ _ Hb). lia.
  - intros Hs. destruct s as [|a0 s']; [contradiction |].
    pose proof (steps_closed k _ a0 Hs eq_refl) as Hc.
    pose proof (Hd 0%nat a0 eq_refl) as H0. apply is_digit_code in H0.
    set (n := String.length (String a0 s')).
    destruct (get_lt_Some (String a0 s') (n - 1)) as (z & Hz);
      [subst n; cbn [String.length]; lia |].
    pose proof (Hc _ _ Hz) as Hzc.
    pose proof (Hd _ _ Hz) as Hzd. apply is_digit_code in Hzd.
    assert (1 ≤ n)%nat by (subst n; cbn [String.length]; lia).
    exists (Z.to_nat (k * (code a0 - c0))). split.
    + destruct Hk as [[-> ->]|[-> ->]]; lia.
    + apply prefix_ramp. fold n. split.
      * destruct Hk as [[-> ->]|[-> ->]]; lia.
      * intros i a Hi. rewrite <- (chr_code a). f_equal. f_equal.
        rewrite (Hc _ _ Hi). destruct Hk as [[-> ->]|[-> ->]]; lia.
Qed.

Lemma forallb_get (P : ascii → bool) s :
  forallb P (list_ascii_of_string s) = true ↔
  ∀ i a, String.get i s = Some a → P a = true.
Proof.
  induction s as [|c s IH]; cbn [list_ascii_of_string forallb].
  - split; [| reflexivity]. intros _ [|i] a H; discriminate.
  - rewrite andb_true_iff, IH. split.
    + intros [Hc Hs] [|i] a H; cbn [String.get] in H.
      * injection H as <-. exact Hc.
      * eapply Hs. exact H.
    + intros H. split; [apply (H 0%nat); reflexivity |].
      intros i a Hi. apply (H (S i)). exact Hi.
Qed.

Lemma digits_only_get s :
  SecurityManager.digits_only s = true ↔
  s ≠ "" ∧ ∀ i a, String.get i s = Some a → SecurityManager.is_digit a = true.
Proof.
  unfold SecurityManager.digits_only. destruct s as [|c s].
  - split; [discriminate | intros [H _]; contradiction].
  - rewrite forallb_get. split; [intros H; split; [discriminate | exact H] | intros [_ H]; exact H].
Qed.

Lemma one_digit_repeated_steps s :
  (2 ≤ String.length s)%nat →
  (∀ i a, String.get i s = Some a → SecurityManager.is_digit a = true) →
  SecurityManager.one_digit_repeated s = true ↔ steps 0 s.
Proof.
  intros Hlen Hd. destruct s as [|c [|c' s]]; cbn [String.length] in Hlen; try lia.
  unfold SecurityManager.one_digit_repeated.
  rewrite (Hd 0%nat c eq_refl). cbn [andb]. rewrite forallb_get. split.
  - intros H i a b Ha Hb.
    assert (Hall : ∀ i a, String.get i (String c (String c' s)) = Some a → a = c).
    { intros [|j] x Hx; cbn [String.get] in Hx.
      - injection Hx as <-. reflexivity.
      - apply H in Hx. apply Ascii.eqb_eq in Hx. congruence. }
    rewrite (Hall _ _ Ha), (Hall _ _ Hb). lia.
  - intros Hs i a Hi. apply Ascii.eqb_eq. symmetry. apply code_inj.
    rewrite (steps_closed 0 _ c Hs eq_refl (S i) a Hi). lia.
Qed.

(** X1: [validatePin] accepts exactly the strings of four to eight decimal
    digits that neither go up by one from digit to digit, nor go down by
    one, nor repeat one digit; null, undefined and the empty string are
    refused. *)
Theorem validatePin_accepts (pin : string) :
  SecurityManager.valid (SecurityManager.validatePin None) = false ∧
  (SecurityManager.valid (SecurityManager.validatePin (Some pin)) = true ↔
   (4 ≤ String.length pin ≤ 8)%nat ∧
   (∀ i c, String.get i pin = Some c → SecurityManager.is_digit c = true) ∧
   ¬ steps 1 pin ∧ ¬ steps (-1) pin ∧ ¬ steps 0 pin).
Proof.
  split; [reflexivity |].
  unfold SecurityManager.validatePin.
  destruct (String.eqb_spec pin "") as [->|Hne]; cbn [orb].
  { cbn [SecurityManager.valid String.length]. split; [discriminate | intros [H _]; lia]. }
  destruct (Nat.ltb_spec (String.length pin) 4) as [Hlt|Hge].
  { cbn [SecurityManager.valid]. split; [discriminate | intros [H _]; lia]. }
  destruct (Nat.ltb_spec 8 (String.length pin)) as [Hgt|Hle].
  { cbn [SecurityManager.valid]. split; [discriminate | intros [H _]; lia]. }
  destruct (SecurityManager.digits_only pin) eqn:Hd; cbn [negb].
  2:{ cbn [SecurityManager.valid]. split; [discriminate |].
      intros (_ & Hall & _). assert (SecurityManager.digits_only pin = true) as Hd'
        by (apply digits_only_get; auto). congruence. }
  apply digits_only_get in Hd as [_ Hd].
  change "0123456789" with (ramp 1 48 10).
  change "9876543210" with (ramp (-1) 57 10).
  pose proof (includes_run 1 48 pin (or_introl (conj eq_refl eq_refl)) Hne Hd) as Hup.
  pose proof (includes_run (-1) 57 pin (or_intror (conj eq_refl eq_refl)) Hne Hd) as Hdown.
  pose proof (one_digit_repeated_steps pin ltac:(lia) Hd) as Hsame.
  destruct (SecurityManager.includes (ramp 1 48 10) pin) eqn:E1; cbn [orb].
  { cbn [SecurityManager.valid]. split; [discriminate |].
    intros (_ & _ & H & _). exfalso. apply H, Hup. reflexivity. }
  destruct (SecurityManager.includes (ramp (-1) 57 10) pin) eqn:E2.
  { cbn [SecurityManager.valid]. split; [discriminate |].
    intros (_ & _ & _ & H & _). exfalso. apply H, Hdown. reflexivity. }
  destruct (SecurityManager.one_digit_repeated pin) eqn:E3.
  { cbn [SecurityManager.valid]. split; [discriminate |].
    intros (_ & _ & _ & _ & H). exfalso. apply H, Hsame. reflexivity. }
  cbn [SecurityManager.valid]. split; [intros _ | reflexivity].
  split; [lia |]. split; [exact Hd |].
  split; [| split]; intros H; [apply Hup in H | apply Hdown in H | apply Hsame in H];
    discriminate.
Qed.

(** ** [SecurityManager.sanitizeInput] *)

Lemma append_cons x (a b : string) : String x a ++ b = String x (a ++ b).
Proof. reflexivity. Qed.

Lemma append_nil (b : string) : "" ++ b = b.
Proof. reflexivity. Qed.

Lemma string_app_assoc (a b c : string) : (a ++ b) ++ c = a ++ (b ++ c).
Proof.
  induction a as [|x a IH]; [reflexivity |].
  rewrite !append_cons, IH. reflexivity.
Qed.

Lemma string_app_length (a b : string) :
  String.length (a ++ b) = (String.length a + String.length b)%nat.
Proof.
  induction a as [|x a IH]; [reflexivity |].
  rewrite append_cons. cbn [String.length]. rewrite IH. reflexivity.
Qed.

Lemma replaceAll_app c by_ (a b : string) :
  SecurityManager.replaceAll c by_ (a ++ b) =
  SecurityManager.replaceAll c by_ a ++ SecurityManager.replaceAll c by_ b.
Proof.
  induction a as [|x a IH]; [reflexivity |].
  rewrite append_cons. cbn [SecurityManager.replaceAll]. rewrite IH.
  symmetry. apply string_app_assoc.
Qed.

(** The six replacements of [sanitizeInput], in its order. *)
Lemma replacements_char (x : ascii) :
  SecurityManager.replaceAll "/" "&#x2F;"
    (SecurityManager.replaceAll "'" "&#x27;"
       (SecurityManager.replaceAll SecurityManager.quote "&quot;"
          (SecurityManager.replaceAll ">" "&gt;"
             (SecurityManager.replaceAll "<" "&lt;"
                (SecurityManager.replaceAll "&" "&amp;" (String x "")))))) =
  escape x.
Proof. destruct x as [[] [] [] [] [] [] [] []]; reflexivity. Qed.

Lemma replacements_all (s : string) :
  SecurityManager.replaceAll "/" "&#x2F;"
    (SecurityManager.replaceAll "'" "&#x27;"
       (SecurityManager.replaceAll SecurityManager.quote "&quot;"
          (SecurityManager.replaceAll ">" "&gt;"
             (SecurityManager.replaceAll "<" "&lt;"
                (SecurityManager.replaceAll "&" "&amp;" s))))) =
  escape_all s.
Proof.
  induction s as [|x s IH]; [reflexivity |].
  change (String x s) with (String x "" ++ s).
  rewrite !replaceAll_app, IH, replacements_char. reflexivity.
Qed.

Lemma sanitizeInput_escape_all (s : string) :
  SecurityManager.sanitizeInput (Some s) = escape_all s.
Proof.
  unfold SecurityManager.sanitizeInput.
  destruct (String.eqb_spec s "") as [->|_]; [reflexivity | apply replacements_all].
Qed.

Lemma get_app (a b : string) i c :
  String.get i (a ++ b) = Some c →
  String.get i a = Some c ∨ String.get (i - String.length a) b = Some c.
Proof.
  revert i. induction a as [|x a IH]; intros i H.
  - right. rewrite append_nil in H. cbn [String.length]. rewrite Nat.sub_0_r. exact H.
  - rewrite append_cons in H. destruct i as [|i]; [left; exact H |].
    cbn [String.get String.length] in *. apply IH in H. exact H.
Qed.

Lemma escape_safe (x : ascii) i c :
  String.get i (escape x) = Some c →
  c ∉ ["<"; ">"; SecurityManager.quote; "'"; "/"]%char.
Proof.
  intros H. assert (Hb : forallb (λ c, negb (bool_decide
             (c ∈ ["<"; ">"; SecurityManager.quote; "'"; "/"]%char)))
             (list_ascii_of_string (escape x)) = true).
  { destruct x as [[] [] [] [] [] [] [] []]; vm_compute; reflexivity. }
  pose proof (proj1 (forallb_get _ _) Hb i c H) as Hc.
  apply negb_true_iff, bool_decide_eq_false in Hc. exact Hc.
Qed.

(** X2: [sanitizeInput] is the replacement of every character by its entity in
    one pass: the six replacements in a row never touch what an earlier one
    wrote. Its result holds none of the characters [<], [>], the double
    quote, the single quote and [/]; null and undefined give the empty
    string. *)
Theorem sanitizeInput_one_pass (s : string) :
  SecurityManager.sanitizeInput None = "" ∧
  SecurityManager.sanitizeInput (Some s) = escape_all s ∧
  (∀ i c, String.get i (SecurityManager.sanitizeInput (Some s)) = Some c →
          c ∉ ["<"; ">"; SecurityManager.quote; "'"; "/"]%char).
Proof.
  split; [reflexivity |]. split; [apply sanitizeInput_escape_all |].
  rewrite sanitizeInput_escape_all.
  induction s as [|x s IH]; intros i c H; [destruct i; discriminate |].
  cbn [escape_all] in H. apply get_app in H as [H|H].
  - eapply escape_safe. exact H.
  - eapply IH. exact H.
Qed.

Lemma escape_plain (x : ascii) : x ∉ special → escape x = String x "".
Proof.
  intros Hout. destruct x as [[] [] [] [] [] [] [] []];
    first [ reflexivity | exfalso; apply Hout; compute_done ].
Qed.

Lemma escape_cases (x : ascii) :
  (escape x = String x "" ∧ x ∉ special) ∨
  (x ∈ special ∧
   (x = "&"%char ∧ escape x = "&amp;" ∨ x = "<"%char ∧ escape x = "&lt;" ∨
    x = ">"%char ∧ escape x = "&gt;" ∨
    x = SecurityManager.quote ∧ escape x = "&quot;" ∨
    x = "'"%char ∧ escape x = "&#x27;" ∨ x = "/"%char ∧ escape x = "&#x2F;")).
Proof.
  destruct (decide (x ∈ special)) as [Hin|Hout].
  - right. split; [exact Hin |]. unfold special in Hin.
    rewrite !elem_of_cons, elem_of_nil in Hin.
    destruct Hin as [->|[->|[->|[->|[->|[->|[]]]]]]]; tauto.
  - left. split; [apply escape_plain |]; exact Hout.
Qed.

Lemma escape_all_inj (s : string) : ∀ t, escape_all s = escape_all t → s = t.
Proof.
  induction s as [|c s IH]; intros [|d t] H; cbn [escape_all] in H.
  - reflexivity.
  - exfalso. destruct (escape_cases d) as [[Hd _]|[_ Hd]];
      [| destruct Hd as [[_ Hd]|[[_ Hd]|[[_ Hd]|[[_ Hd]|[[_ Hd]|[_ Hd]]]]]]];
      rewrite Hd in H; rewrite ?append_cons in H; discriminate H.
  - exfalso. destruct (escape_cases c) as [[Hc _]|[_ Hc]];
      [| destruct Hc as [[_ Hc]|[[_ Hc]|[[_ Hc]|[[_ Hc]|[[_ Hc]|[_ Hc]]]]]]];
      rewrite Hc in H; rewrite ?append_cons in H; discriminate H.
  - assert (c = d ∧ escape_all s = escape_all t) as [-> Heq].
    { destruct (escape_cases c) as [[Hc Hcn]|[Hcs Hc]],
               (escape_cases d) as [[Hd Hdn]|[Hds Hd]].
      - rewrite Hc, Hd in H. rewrite ?append_cons, ?append_nil in H.
        split; congruence.
      - exfalso. apply Hcn.
        destruct Hd as [[_ Hd]|[[_ Hd]|[[_ Hd]|[[_ Hd]|[[_ Hd]|[_ Hd]]]]]];
          rewrite Hc, Hd in H; rewrite ?append_cons, ?append_nil in H;
          injection H as -> _; compute_done.
      - exfalso. apply Hdn.
        destruct Hc as [[_ Hc]|[[_ Hc]|[[_ Hc]|[[_ Hc]|[[_ Hc]|[_ Hc]]]]]];
          rewrite Hc, Hd in H; rewrite ?append_cons, ?append_nil in H;
          injection H as <- _; compute_done.
      - destruct Hc as [[-> Hc]|[[-> Hc]|[[-> Hc]|[[-> Hc]|[[-> Hc]|[-> Hc]]]]]],
                 Hd as [[-> Hd]|[[-> Hd]|[[-> Hd]|[[-> Hd]|[[-> Hd]|[-> Hd]]]]]];
          rewrite ?Hc, ?Hd in H; rewrite ?append_cons, ?append_nil in H;
          first [ discriminate H | split; congruence ]. }
    f_equal. apply IH. exact Heq.
Qed.

(** X3: [sanitizeInput] loses nothing: two different strings are sanitized to
    two different strings. *)
Theorem sanitizeInput_injective (s t : string) :
  SecurityManager.sanitizeInput (Some s) = SecurityManager.sanitizeInput (Some t)
  ↔ s = t.
Proof.
  rewrite !sanitizeInput_escape_all. split; [apply escape_all_inj | congruence].
Qed.

Lemma escape_length (c : ascii) :
  (1 ≤ String.length (escape c))%nat ∧
  (c ∈ special → 4 ≤ String.length (escape c))%nat.
Proof.
  destruct (escape_cases c) as [[Hc Hcn]|[Hcs Hc]].
  - rewrite Hc. cbn [String.length]. split; [lia | contradiction].
  - destruct Hc as [[_ Hc]|[[_ Hc]|[[_ Hc]|[[_ Hc]|[[_ Hc]|[_ Hc]]]]]];
      rewrite Hc; cbn [String.length]; split; intros; lia.
Qed.

Lemma escape_all_length (s : string) :
  (String.length s ≤ String.length (escape_all s))%nat.
Proof.
  induction s as [|c s IH]; [reflexivity |].
  cbn [escape_all String.length]. rewrite string_app_length.
  pose proof (proj1 (escape_length c)). lia.
Qed.

Lemma escape_all_fixed (s : string) :
  escape_all s = s ↔ ∀ i c, String.get i s = Some c → c ∉ special.
Proof.
  induction s as [|c s IH].
  - split; [| reflexivity]. intros _ [|i] c H; discriminate.
  - cbn [escape_all]. split.
    + intros H. destruct (decide (c ∈ special)) as [Hin|Hout].
      * exfalso. pose proof (f_equal String.length H) as Hlen.
        rewrite string_app_length in Hlen. cbn [String.length] in Hlen.
        pose proof (proj2 (escape_length c) Hin).
        pose proof (escape_all_length s). lia.
      * rewrite (escape_plain c Hout), append_cons, append_nil in H.
        injection H as H. intros [|i] x Hx; cbn [String.get] in Hx.
        -- injection Hx as <-. exact Hout.
        -- eapply (proj1 IH); eassumption.
    + intros H. rewrite (escape_plain c (H 0%nat c eq_refl)), append_cons, append_nil.
      f_equal. apply IH. intros i x Hx. apply (H (S i)). exact Hx.
Qed.

(** X4: [sanitizeInput] applied to its own result changes it again, unless the
    input holds none of the six characters it replaces: then both calls
    return the input. *)
Theorem sanitizeInput_twice (s : string) :
  (SecurityManager.sanitizeInput (Some (SecurityManager.sanitizeInput (Some s)))
   = SecurityManager.sanitizeInput (Some s)
   ↔ ∀ i c, String.get i s = Some c → c ∉ special) ∧
  (SecurityManager.sanitizeInput (Some s) = s
   ↔ ∀ i c, String.get i s = Some c → c ∉ special).
Proof.
  rewrite !sanitizeInput_escape_all. split; [| apply escape_all_fixed].
  rewrite <- escape_all_fixed. split; [apply escape_all_inj | congruence].
Qed.

(** ** [SecurityManager.generateUUID] *)

Lemma random_nibble (q : QArith_base.Q) :
  unit_interval q →
  0 ≤ SecurityManager.ToInt32 (QArith_base.Qmult q (QArith_base.Qmake 16 1)) < 16.
Proof.
  destruct q as [a b]. unfold unit_interval, QArith_base.Qle, QArith_base.Qlt.
  cbn [QArith_base.Qnum QArith_base.Qden]. intros [H0 H1].
  unfold SecurityManager.ToInt32.
  assert (Hle : QArith_base.Qle_bool (QArith_base.Qmake 0 1)
                  (QArith_base.Qmult (QArith_base.Qmake a b) (QArith_base.Qmake 16 1)) = true).
  { apply QArith_base.Qle_bool_iff. unfold QArith_base.Qle, QArith_base.Qmult.
    cbn [QArith_base.Qnum QArith_base.Qden]. lia. }
  rewrite Hle. unfold Qround.Qfloor, QArith_base.Qmult.
  cbn [QArith_base.Qnum QArith_base.Qden].
  assert (0 ≤ a * 16 / Z.pos (b * 1) < 16) as Hr.
  { split.
    - apply Z.div_pos; lia.
    - apply Z.div_lt_upper_bound; lia. }
  rewrite Z.mod_small by lia. lia.
Qed.

Lemma toString16_digit (v : Z) :
  0 ≤ v < 16 →
  SecurityManager.toString16 v = String (SecurityManager.hex_digit v) "" ∧
  SecurityManager.hex_digit v ∈ hex_digits.
Proof.
  intros H.
  assert (v ∈ [0; 1; 2; 3; 4; 5; 6; 7; 8; 9; 10; 11; 12; 13; 14; 15]) as Hv.
  { assert (v = 0 ∨ v = 1 ∨ v = 2 ∨ v = 3 ∨ v = 4 ∨ v = 5 ∨ v = 6 ∨ v = 7 ∨
            v = 8 ∨ v = 9 ∨ v = 10 ∨ v = 11 ∨ v = 12 ∨ v = 13 ∨ v = 14 ∨ v = 15)
      as Hv by lia.
    rewrite !elem_of_cons. tauto. }
  rewrite !elem_of_cons, elem_of_nil in Hv.
  repeat (destruct Hv as [->|Hv]; [split; [reflexivity | compute_done] |]).
  contradiction.
Qed.

Lemma uuid_char_x (q : QArith_base.Q) :
  unit_interval q →
  ∃ c, SecurityManager.uuid_char "x" q = String c "" ∧ c ∈ hex_digits.
Proof.
  intros Hq. unfold SecurityManager.uuid_char. cbn [Ascii.eqb Bool.eqb].
  destruct (toString16_digit _ (random_nibble q Hq)) as [-> Hin]. eauto.
Qed.

Lemma uuid_char_y (q : QArith_base.Q) :
  unit_interval q →
  ∃ c, SecurityManager.uuid_char "y" q = String c "" ∧ c ∈ ["8"; "9"; "a"; "b"]%char.
Proof.
  intros Hq. unfold SecurityManager.uuid_char. cbn [Ascii.eqb Bool.eqb].
  pose proof (random_nibble q Hq) as Hr.
  set (r := SecurityManager.ToInt32 _) in *.
  assert (r ∈ [0; 1; 2; 3; 4; 5; 6; 7; 8; 9; 10; 11; 12; 13; 14; 15]) as Hv.
  { assert (r = 0 ∨ r = 1 ∨ r = 2 ∨ r = 3 ∨ r = 4 ∨ r = 5 ∨ r = 6 ∨ r = 7 ∨
            r = 8 ∨ r = 9 ∨ r = 10 ∨ r = 11 ∨ r = 12 ∨ r = 13 ∨ r = 14 ∨ r = 15)
      as Hv by lia.
    rewrite !elem_of_cons. tauto. }
  clearbody r. rewrite !elem_of_cons, elem_of_nil in Hv.
  repeat (destruct Hv as [->|Hv]; [eexists; split; [reflexivity | compute_done] |]).
  contradiction.
Qed.

Lemma fill_get (Math_random : nat → QArith_base.Q) :
  (∀ k, unit_interval (Math_random k)) →
  ∀ template n,
    String.length (SecurityManager.fill Math_random n template)
      = String.length template ∧
    ∀ i c, String.get i template = Some c →
      ∃ c', String.get i (SecurityManager.fill Math_random n template) = Some c'
            ∧ filled c c'.
Proof.
  intros Hr. induction template as [|x t IH]; intros n.
  - split; [reflexivity |]. intros [|i] c H; discriminate.
  - cbn [SecurityManager.fill]. unfold filled.
    destruct (Ascii.eqb_spec x "x") as [->|Hx]; cbn [orb].
    + destruct (uuid_char_x _ (Hr n)) as (c' & -> & Hc').
      rewrite append_cons, append_nil. destruct (IH (S n)) as [Hlen Hget].
      split; [cbn [String.length]; rewrite Hlen; reflexivity |].
      intros [|i] c H; cbn [String.get] in *.
      * injection H as <-. exists c'. split; [reflexivity | exact Hc'].
      * apply Hget. exact H.
    + destruct (Ascii.eqb_spec x "y") as [->|Hy].
      * destruct (uuid_char_y _ (Hr n)) as (c' & -> & Hc').
        rewrite append_cons, append_nil. destruct (IH (S n)) as [Hlen Hget].
        split; [cbn [String.length]; rewrite Hlen; reflexivity |].
        intros [|i] c H; cbn [String.get] in *.
        -- injection H as <-. exists c'. split; [reflexivity | exact Hc'].
        -- apply Hget. exact H.
      * destruct (IH n) as [Hlen Hget].
        split; [cbn [String.length]; rewrite Hlen; reflexivity |].
        intros [|i] c H; cbn [String.get] in *.
        -- injection H as <-. exists x. split; [reflexivity |].
           destruct (Ascii.eqb_spec x "x"); [contradiction |].
           destruct (Ascii.eqb_spec x "y"); [contradiction | reflexivity].
        -- apply Hget. exact H.
Qed.

(** X5: whatever [Math.random] returns, [generateUUID] returns a string of 36
    characters with hyphens at the positions 8, 13, 18 and 23, the digit 4
    at position 14, one of 8, 9, a, b at position 19 and lower-case
    hexadecimal digits everywhere else. *)
Theorem generateUUID_format (Math_random : nat → QArith_base.Q) (n : nat) :
  (∀ k, unit_interval (Math_random k)) →
  let u := SecurityManager.generateUUID Math_random n in
  String.length u = 36%nat ∧
  (∀ i, i ∈ [8; 13; 18; 23]%nat → String.get i u = Some "-"%char) ∧
  String.get 14 u = Some "4"%char ∧
  (∃ c, String.get 19 u = Some c ∧ c ∈ ["8"; "9"; "a"; "b"]%char) ∧
  (∀ i c, String.get i u = Some c → i ∉ [8; 13; 18; 23]%nat → c ∈ hex_digits).
Proof.
  intros Hr u. subst u. unfold SecurityManager.generateUUID.
  destruct (fill_get Math_random Hr "xxxxxxxx-xxxx-4xxx-yxxx-xxxxxxxxxxxx" n)
    as [Hlen Hget].
  split; [exact Hlen |]. split; [| split; [| split]].
  - intros i Hi. rewrite !elem_of_cons, elem_of_nil in Hi.
    destruct Hi as [->|[->|[->|[->|[]]]]];
      (edestruct Hget as (c' & -> & Hc'); [reflexivity |]);
      unfold filled in Hc'; cbn in Hc'; rewrite Hc'; reflexivity.
  - edestruct (Hget 14%nat) as (c' & -> & Hc'); [reflexivity |].
    unfold filled in Hc'; cbn in Hc'. rewrite Hc'. reflexivity.
  - edestruct (Hget 19%nat) as (c' & -> & Hc'); [reflexivity |].
    exists c'. split; [reflexivity | exact Hc'].
  - intros i c Hi Hni. pose proof (get_Some_lt _ _ _ Hi) as Hlt.
    rewrite Hlen in Hlt. cbn [String.length] in Hlt.
    destruct (get_lt_Some "xxxxxxxx-xxxx-4xxx-yxxx-xxxxxxxxxxxx" i) as (t & Ht);
      [cbn [String.length]; lia |].
    destruct (Hget i t Ht) as (c' & Hc & Hf). rewrite Hi in Hc. injection Hc as <-.
    do 36 (destruct i as [|i];
      [ first [ exfalso; apply Hni; compute_done
              | cbn in Ht; injection Ht as <-; unfold filled in Hf; cbn in Hf;
                first [ exact Hf | subst c; compute_done
                      | (rewrite !elem_of_cons, elem_of_nil in Hf;
                         destruct Hf as [->|[->|[->|[->|[]]]]]; compute_done) ] ] |]).
    lia.
Qed.

Lemma unit_interval_half : unit_interval (QArith_base.Qmake 1 2).
Proof. split; [discriminate | reflexivity]. Qed.

Lemma generateUUID_format_witness :
  SecurityManager.generateUUID (λ _, QArith_base.Qmake 1 2) 0
    = "88888888-8888-4888-8888-888888888888" ∧
  String.length (SecurityManager.generateUUID (λ _, QArith_base.Qmake 1 2) 0)
    = 36%nat.
Proof.
  split; [reflexivity |].
  apply (generateUUID_format (λ _, QArith_base.Qmake 1 2) 0).
  intros _. apply unit_interval_half.
Defined.

(** ** [SecurityManager.generateRandomString] *)

Lemma pick_spec (values : list Z) :
  String.length (SecurityManager.pick values) = length values ∧
  ∀ i c, String.get i (SecurityManager.pick values) = Some c → c ∈ alphanumeric.
Proof.
  induction values as [|v values [IHlen IHget]].
  - split; [reflexivity |]. intros [|i] c H; discriminate.
  - cbn [SecurityManager.pick]. split; [cbn [String.length length]; rewrite IHlen; reflexivity |].
    intros [|i] c H; cbn [String.get] in H; [| eapply IHget; exact H].
    injection H as <-.
    change (Z.of_nat 62) with 62.
    pose proof (Z.mod_pos_bound v 62 ltac:(lia)) as Hm.
    assert (∃ j, (j < 62)%nat ∧ Z.to_nat (v mod 62) = j) as (j & Hj & ->)
      by (exists (Z.to_nat (v mod 62)); lia).
    clear Hm. do 62 (destruct j as [|j]; [compute_done |]). lia.
Qed.

(** X6: [generateRandomString(length)] returns [length] characters, each a
    letter or a digit, whatever numbers are drawn; beyond 16384 characters
    it throws. *)
Theorem generateRandomString_alphabet (random : nat → Z) (length : nat) :
  if 16384 <? Z.of_nat length
  then SecurityManager.generateRandomString random length = None
  else ∃ s, SecurityManager.generateRandomString random length = Some s ∧
            String.length s = length ∧
            ∀ i c, String.get i s = Some c → c ∈ alphanumeric.
Proof.
  unfold SecurityManager.generateRandomString.
  destruct (16384 <? Z.of_nat length); [reflexivity |].
  eexists. split; [reflexivity |].
  destruct (pick_spec ((λ i, random i mod 4294967296) <$> seq 0 length)) as [Hlen Hget].
  split; [rewrite Hlen, length_fmap, length_seq; reflexivity | exact Hget].
Qed.

(** ** More on [mergeCollection] *)

Lemma add_id_NoDup ks k : NoDup ks → NoDup (add_id ks k).
Proof.
  intros Hnd. unfold add_id. case_bool_decide as H; [exact Hnd |].
  apply NoDup_app. split; [exact Hnd | split].
  - intros x Hx Hx'. apply list_elem_of_singleton in Hx'. subst. contradiction.
  - apply NoDup_singleton.
Qed.

Lemma fold_add_id_NoDup l : ∀ ks, NoDup ks → NoDup (fold_left add_id l ks).
Proof.
  induction l as [|x l IH]; intros ks Hnd; [exact Hnd |].
  cbn [fold_left]. apply IH, add_id_NoDup, Hnd.
Qed.

Lemma fold_add_id_unique l : ∀ ks,
  NoDup l →
  fold_left add_id l ks = (ks ++ filter (λ i, i ∉ ks) l)%list.
Proof.
  induction l as [|x l IH]; intros ks Hnd; cbn [fold_left].
  - rewrite filter_nil, app_nil_r. reflexivity.
  - apply NoDup_cons in Hnd as [Hx Hnd]. rewrite (IH _ Hnd). unfold add_id.
    case_bool_decide as Hin.
    + rewrite filter_cons_False by (intros H; apply H, Hin). reflexivity.
    + rewrite filter_cons_True by exact Hin.
      rewrite <- app_assoc. cbn [app]. f_equal. f_equal.
      clear IH Hnd. induction l as [|y l IHl]; [reflexivity |].
      apply not_elem_of_cons in Hx as [Hne Hx].
      rewrite !filter_cons. rewrite (IHl Hx).
      destruct (decide (y ∉ (ks ++ [x])%list)) as [H1|H1], (decide (y ∉ ks)) as [H2|H2];
        try reflexivity.
      * exfalso. apply H2. intros H. apply H1. apply elem_of_app. auto.
      * exfalso. apply H1. intros H. apply elem_of_app in H as [H|H];
          [contradiction | apply list_elem_of_singleton in H; congruence].
Qed.

Lemma Map_set_add_id {V} k (v : V) (m : jsMap V) :
  (Map_set k v m).*1 = add_id m.*1 k.
Proof. apply Map_set_keys. Qed.

Lemma seed_from_keys (L : list record) : ∀ m : jsMap record,
  (fold_left (λ m item, Map_set (id item) item m) L m).*1
    = fold_left add_id (id <$> L) m.*1.
Proof.
  induction L as [|x L IH]; intros m; [reflexivity |].
  cbn [fold_left fmap list_fmap]. rewrite IH, Map_set_add_id. reflexivity.
Qed.

Lemma resolveConflict_either (E : env) self l r type v :
  resolveConflict E self l r type = Normal v → v = l ∨ v = r.
Proof.
  unfold resolveConflict.
  repeat match goal with
  | |- context [String.eqb ?a ?b] => destruct (String.eqb a b)
  end; try discriminate; try (intros [= <-]; auto).
  destruct (js_gt _ _); auto.
Qed.

Lemma mergeRemote_keys (E : env) self type R : ∀ m m',
  mergeRemote E self type R m = Normal m' → keyed m →
  m'.*1 = fold_left add_id (id <$> R) m.*1 ∧ keyed m'.
Proof.
  induction R as [|r R IH]; intros m m' H Hk; cbn [mergeRemote] in H.
  - injection H as <-. split; [reflexivity | exact Hk].
  - cbn [fold_left fmap list_fmap].
    destruct (Map_get (id r) m) as [l|] eqn:Hg.
    + destruct (resolveConflict E self l r type) as [v|e] eqn:Hres; [| discriminate].
      destruct (IH _ _ H) as [Hkeys Hk'].
      { apply keyed_set; [exact Hk |].
        destruct (resolveConflict_either _ _ _ _ _ _ Hres) as [-> | ->];
          [apply Hk; exact Hg | reflexivity]. }
      rewrite Map_set_add_id in Hkeys. split; assumption.
    + destruct (IH _ _ H) as [Hkeys Hk'].
      { apply keyed_set; [exact Hk | reflexivity]. }
      rewrite Map_set_add_id in Hkeys. split; assumption.
Qed.

(** X7: whenever [mergeCollection] returns, under any strategy and on any
    input, the ids of the result are the ids of the local items followed by
    those of the remote items, each once, in the order of their first
    occurrence: no id comes out twice, and on inputs with unique ids the
    local order is kept and the ids that only the remote side has follow in
    the remote order. *)
Theorem mergeCollection_order (E : env) self L R type out :
  mergeCollection E self L R type = Normal out →
  id <$> out = first_seen ((id <$> L) ++ (id <$> R)) ∧
  NoDup (id <$> out) ∧
  (NoDup (id <$> L) → NoDup (id <$> R) →
   id <$> out = ((id <$> L) ++ filter (λ i, i ∉ id <$> L) (id <$> R))%list).
Proof.
  unfold mergeCollection. intros H.
  destruct (mergeRemote E self type R (seed L)) as [m'|e] eqn:Hm; [| discriminate].
  injection H as <-.
  destruct (mergeRemote_keys E self type R _ _ Hm (seed_keyed L)) as [Hkeys Hk].
  unfold seed in Hkeys at 1. rewrite seed_from_keys in Hkeys. cbn [fmap list_fmap] in Hkeys.
  assert (Hnd : NoDup m'.*1).
  { rewrite Hkeys. apply fold_add_id_NoDup, fold_add_id_NoDup, NoDup_nil_2. }
  rewrite (keyed_values_ids m' Hk Hnd).
  assert (Hfirst : m'.*1 = first_seen ((id <$> L) ++ (id <$> R))).
  { rewrite Hkeys. unfold first_seen. rewrite fold_left_app. reflexivity. }
  split; [exact Hfirst |]. split; [exact Hnd |].
  intros HL HR. rewrite Hkeys.
  rewrite (fold_add_id_unique (id <$> L) [] HL).
  rewrite (fold_add_id_unique (id <$> R) _ HR). cbn [app].
  assert (Hall : filter (λ i, i ∉ []) (id <$> L) = id <$> L).
  { clear. induction (id <$> L) as [|x l IH]; [reflexivity |].
    rewrite filter_cons_True by apply not_elem_of_nil. rewrite IH. reflexivity. }
  rewrite Hall. reflexivity.
Qed.

Lemma mergeCollection_order_witness :
  ∃ out, mergeCollection quiet (alice "last-write-wins" None)
           [t2; t1_local; t2] [t1_newer; t1_remote] "transactions" = Normal out ∧
         id <$> out = ["t2"; "t1"].
Proof.
  eexists. split; [reflexivity |].
  refine (proj1 (mergeCollection_order quiet (alice "last-write-wins" None)
                   [t2; t1_local; t2] [t1_newer; t1_remote] "transactions" _ _)).
  reflexivity.
Defined.

Lemma mergeRemote_lookup (E : env) self type R : ∀ m m',
  mergeRemote E self type R m = Normal m' → NoDup (id <$> R) →
  (∀ k, k ∉ id <$> R → Map_get k m' = Map_get k m) ∧
  (∀ r, r ∈ R →
     match Map_get (id r) m with
     | None => Map_get (id r) m' = Some r
     | Some l => ∃ v, resolveConflict E self l r type = Normal v ∧
                      Map_get (id r) m' = Some v
     end).
Proof.
  induction R as [|r R IH]; intros m m' H Hnd; cbn [mergeRemote] in H.
  - injection H as <-. split; [reflexivity |]. intros r Hr. inversion Hr.
  - rewrite fmap_cons in Hnd. apply NoDup_cons in Hnd as [Hr Hnd].
    assert (∃ v, mergeRemote E self type R (Map_set (id r) v m) = Normal m' ∧
                 match Map_get (id r) m with
                 | None => v = r
                 | Some l => resolveConflict E self l r type = Normal v
                 end) as (v & Hrun & Hv).
    { destruct (Map_get (id r) m) as [l|]; [| eauto].
      destruct (resolveConflict E self l r type) as [v|e]; [eauto | discriminate]. }
    destruct (IH _ _ Hrun Hnd) as [Hout Hin]. split.
    + intros k Hk. rewrite fmap_cons in Hk. apply not_elem_of_cons in Hk as [Hne Hk].
      rewrite (Hout k Hk). apply Map_get_set_ne. congruence.
    + intros r' Hr'. apply elem_of_cons in Hr' as [-> | Hr'].
      * rewrite (Hout (id r) Hr), Map_get_set_eq.
        destruct (Map_get (id r) m) as [l|]; [eauto | congruence].
      * assert (id r ≠ id r') as Hne.
        { intros Heq. apply Hr. rewrite Heq. apply list_elem_of_fmap_2. exact Hr'. }
        pose proof (Hin r' Hr') as Hcase.
        rewrite (Map_get_set_ne _ _ _ _ Hne) in Hcase. exact Hcase.
Qed.

Lemma seed_lookup (L : list record) k :
  NoDup (id <$> L) →
  match Map_get k (seed L) with
  | None => k ∉ id <$> L
  | Some l => l ∈ L ∧ id l = k
  end.
Proof.
  intros HL. destruct (Map_get k (seed L)) as [l|] eqn:Hg.
  - split; [eapply seed_get_elem; exact Hg | apply (seed_keyed L); exact Hg].
  - apply Map_get_None in Hg. rewrite <- seed_keys. exact Hg.
Qed.

(** What [mergeCollection] returns on collections with unique ids: the
    items of one side whose id the other side does not have, and for each
    id of both sides what the resolver makes of the local and the remote
    item. *)
Lemma mergeCollection_content (E : env) self L R type out :
  NoDup (id <$> L) → NoDup (id <$> R) →
  mergeCollection E self L R type = Normal out →
  ∀ x, x ∈ out ↔
    (x ∈ L ∧ id x ∉ id <$> R) ∨ (x ∈ R ∧ id x ∉ id <$> L) ∨
    (∃ l r, l ∈ L ∧ r ∈ R ∧ id l = id r ∧
            resolveConflict E self l r type = Normal x).
Proof.
  intros HL HR. unfold mergeCollection. intros H.
  destruct (mergeRemote E self type R (seed L)) as [m'|e] eqn:Hm; [| discriminate].
  injection H as <-.
  destruct (mergeRemote_keys E self type R _ _ Hm (seed_keyed L)) as [Hkeys Hk].
  assert (Hnd : NoDup m'.*1).
  { rewrite Hkeys. apply fold_add_id_NoDup, seed_NoDup. }
  destruct (mergeRemote_lookup E self type R _ _ Hm HR) as [Hout Hin].
  intros x. rewrite (elem_of_Map_values m' x Hk Hnd). split.
  - intros Hx. destruct (decide (id x ∈ id <$> R)) as [HxR|HxR].
    + apply list_elem_of_fmap in HxR as (r & Hid & Hr).
      pose proof (Hin r Hr) as Hcase. pose proof (seed_lookup L (id r) HL) as Hs.
      destruct (Map_get (id r) (seed L)) as [l|].
      * destruct Hcase as (v & Hres & Hv). rewrite <- Hid, Hx in Hv.
        injection Hv as <-. destruct Hs as [Hl Hlid].
        right. right. exists l, r. auto.
      * rewrite <- Hid, Hx in Hcase. injection Hcase as <-.
        right. left. split; assumption.
    + rewrite (Hout _ HxR) in Hx. left. split; [| exact HxR].
      eapply seed_get_elem. exact Hx.
  - intros [[Hx HxR] | [[Hx HxL] | (l & r & Hl & Hr & Hid & Hres)]].
    + rewrite (Hout _ HxR). apply seed_get; assumption.
    + pose proof (Hin x Hx) as Hcase. pose proof (seed_lookup L (id x) HL) as Hs.
      destruct (Map_get (id x) (seed L)) as [l|]; [| exact Hcase].
      destruct Hs as [Hl Hlid]. exfalso. apply HxL. rewrite <- Hlid.
      apply list_elem_of_fmap_2. exact Hl.
    + pose proof (Hin r Hr) as Hcase.
      rewrite <- Hid, (seed_get L l HL Hl) in Hcase.
      destruct Hcase as (v & Hres' & Hv). rewrite Hres in Hres'.
      injection Hres' as <-.
      assert (id x = id l) as ->.
      { destruct (resolveConflict_either _ _ _ _ _ _ Hres) as [-> | ->]; congruence. }
      exact Hv.
Qed.

(** X8: under ['last-write-wins'] two devices that merge each other's
    collection end with the same records: when every id the two sides
    share carries the same record on both, or two valid time stamps that
    differ, merging the remote collection into the local one and merging the
    local one into the remote one give the same records, up to their
    order. *)
Theorem mergeCollection_converges (E : env) self L R type :
  conflictResolutionStrategy self = "last-write-wins" →
  NoDup (id <$> L) → NoDup (id <$> R) →
  (∀ l r, l ∈ L → r ∈ R → id l = id r →
     l = r ∨ ∃ a b, recordTime E l = Some a ∧ recordTime E r = Some b ∧ a ≠ b) →
  ∃ o1 o2,
    mergeCollection E self L R type = Normal o1 ∧
    mergeCollection E self R L type = Normal o2 ∧
    o1 ≡ₚ o2.
Proof.
  intros Hs HL HR Hpairs.
  assert (Hnm : conflictResolutionStrategy self ≠ "manual") by (rewrite Hs; discriminate).
  destruct (mergeCollection_union E self L R type Hnm HL HR) as (o1 & H1 & Hnd1 & _).
  destruct (mergeCollection_union E self R L type Hnm HR HL) as (o2 & H2 & Hnd2 & _).
  exists o1, o2. split; [exact H1 |]. split; [exact H2 |].
  apply NoDup_Permutation;
    [eapply NoDup_fmap_1; exact Hnd1 | eapply NoDup_fmap_1; exact Hnd2 |].
  assert (Hsym : ∀ l r x, l ∈ L → r ∈ R → id l = id r →
            resolveConflict E self l r type = Normal x ↔
            resolveConflict E self r l type = Normal x).
  { intros l r x Hl Hr Hid. unfold resolveConflict. rewrite Hs. cbn [String.eqb Ascii.eqb Bool.eqb].
    destruct (Hpairs l r Hl Hr Hid) as [-> | (a & b & -> & -> & Hab)]; [reflexivity |].
    cbn [js_gt]. destruct (Z.ltb_spec b a), (Z.ltb_spec a b); try lia; reflexivity. }
  intros x.
  rewrite (mergeCollection_content E self L R type o1 HL HR H1 x).
  rewrite (mergeCollection_content E self R L type o2 HR HL H2 x).
  split.
  - intros [H | [H | (l & r & Hl & Hr & Hid & Hres)]]; [tauto | tauto |].
    right. right. exists r, l. repeat split; try assumption; [congruence |].
    apply (Hsym l r x Hl Hr Hid). exact Hres.
  - intros [H | [H | (r & l & Hr & Hl & Hid & Hres)]]; [tauto | tauto |].
    right. right. exists l, r. repeat split; try assumption; [congruence |].
    apply (Hsym l r x Hl Hr (eq_sym Hid)). exact Hres.
Qed.

Lemma mergeCollection_converges_witness :
  ∃ o1 o2,
    mergeCollection quiet (alice "last-write-wins" None)
      [t1_local; t2] [t1_newer] "transactions" = Normal o1 ∧
    mergeCollection quiet (alice "last-write-wins" None)
      [t1_newer] [t1_local; t2] "transactions" = Normal o2 ∧
    o1 ≡ₚ o2.
Proof.
  apply (mergeCollection_converges quiet); [reflexivity | compute_done | compute_done |].
  intros l r Hl Hr _. right.
  rewrite !elem_of_cons, elem_of_nil in Hl. rewrite !elem_of_cons, elem_of_nil in Hr.
  destruct Hr as [-> | []]. destruct Hl as [-> | [-> | []]];
    eexists _, _; (split; [reflexivity |]); (split; [reflexivity |]); discriminate.
Defined.

(** X9: merging a collection with itself, or with any part of itself, under any
    strategy but ['manual'], gives the collection back as it is. *)
Theorem mergeCollection_absorbs (E : env) self type (L R : list record) :
  conflictResolutionStrategy self ≠ "manual" →
  NoDup (id <$> L) → (∀ r, r ∈ R → r ∈ L) →
  mergeCollection E self L R type = Normal L ∧
  mergeCollection E self L L type = Normal L ∧
  mergeCollection E self L [] type = Normal L.
Proof.
  intros Hs HL HR. split; [| split]; apply mergeCollection_same; try assumption.
  - auto.
  - intros r Hr. inversion Hr.
Qed.

Lemma mergeCollection_absorbs_witness :
  mergeCollection quiet (alice "remote-wins" None) [t1_local; t2] [t2]
    "transactions" = Normal [t1_local; t2].
Proof.
  apply (mergeCollection_absorbs quiet); [discriminate | compute_done |].
  intros r Hr. apply list_elem_of_singleton in Hr. subst. apply elem_of_cons.
  right. apply elem_of_cons. left. reflexivity.
Defined.

(** ** The queue and the local store *)

Lemma keeps_keeps_on_throw {A B} (f : world → B) (m : M A) :
  keeps f m → keeps_on_throw f m.
Proof. intros H w e _. apply H. Qed.

Lemma total_keeps_on_throw {A B} (f : world → B) (m : M A) :
  total m → keeps_on_throw f m.
Proof. intros H w e He. destruct (H w) as [a Ha]. congruence. Qed.

Lemma keeps_on_throw_bind {A B C} (f : world → B) (m : M A) (k : A → M C) :
  keeps f m → (∀ a, keeps_on_throw f (k a)) → keeps_on_throw f (bind m k).
Proof.
  intros Hm Hk w e. unfold bind. specialize (Hm w).
  destruct (m w) as [[a|e'] w'] eqn:Hmw; cbn [fst snd] in *.
  - intros He. rewrite (Hk a w' e He). exact Hm.
  - intros _. exact Hm.
Qed.

Lemma total_modify (g : world → world) : total (modify g).
Proof. intros w. exists tt. reflexivity. Qed.

Lemma total_ret {A} (a : A) : total (ret a).
Proof. intros w. exists a. reflexivity. Qed.

Lemma db_ensure_keeps {B} (E : env) (f : world → B) :
  (∀ w, f (next_dbCall w) = f w) → (∀ b w, f (set_dbOpen b w) = f w) →
  keeps f (db_ensure E).
Proof.
  intros H1 H2. unfold db_ensure, db_init. frame; try apply H2.
  apply db_request_keeps. exact H1.
Qed.

Lemma syncOperation_keeps_durable (l : loc) : keeps dbSyncQueue (syncOperation l).
Proof. unfold syncOperation, update_item. frame; reflexivity. Qed.

Lemma attempt_keeps_on_throw (E : env) (l : loc) :
  keeps_on_throw dbSyncQueue (attempt E l).
Proof.
  unfold attempt, removeFromQueue, update_item, db_delete_syncQueue.
  apply keeps_on_throw_bind; [apply syncOperation_keeps_durable | intros _].
  apply keeps_on_throw_bind; [frame; reflexivity | intros _].
  apply keeps_on_throw_bind; [frame | intros o].
  apply keeps_on_throw_bind; [frame; reflexivity | intros _].
  apply keeps_on_throw_bind; [frame | intros db].
  destruct db; [| apply total_keeps_on_throw, total_ret].
  apply keeps_on_throw_bind; [apply db_ensure_keeps; reflexivity | intros _].
  apply keeps_on_throw_bind; [apply db_request_keeps; reflexivity | intros _].
  apply total_keeps_on_throw, total_modify.
Qed.

Lemma recordFailure_keeps_durable (l : loc) e : keeps dbSyncQueue (recordFailure l e).
Proof. unfold recordFailure, removeFromQueue, update_item. frame; reflexivity. Qed.

Lemma processOp_failure_durable (E : env) l w e :
  fst (attempt E l w) = Throw e →
  dbSyncQueue (snd (processOp E l w)) = dbSyncQueue w.
Proof.
  intros He. pose proof (attempt_keeps_on_throw E l w e He) as Hk.
  unfold processOp, try_catch. destruct (attempt E l w) as [[u|e'] w1]; [discriminate |].
  cbn [fst snd] in *. rewrite (recordFailure_keeps_durable l e' w1). exact Hk.
Qed.

Lemma loadSyncQueue_total (E : env) : total (loadSyncQueue E).
Proof.
  intros w. unfold loadSyncQueue, try_catch.
  match goal with |- context [bind ?m ?k w] => destruct (bind m k w) as [[u|e] w'] end.
  - exists u. reflexivity.
  - exists tt. reflexivity.
Qed.

Lemma filter_pending_fresh (h items : list queueItem) (w : world) :
  heap w = (h ++ items)%list →
  (λ l, heap w !! l) <$> List.filter (is_pending w) (seq (length h) (length items))
  = Some <$> List.filter (λ q, String.eqb (status q) "pending") items.
Proof.
  intros Hh. revert h Hh. induction items as [|q items IH]; intros h Hh; [reflexivity |].
  cbn [length seq List.filter]. unfold is_pending at 1.
  assert (Hq : heap w !! length h = Some q).
  { rewrite Hh. rewrite lookup_app_r by lia. rewrite Nat.sub_diag. reflexivity. }
  rewrite Hq.
  assert (Hrest : (λ l, heap w !! l) <$> List.filter (is_pending w) (seq (S (length h)) (length items))
                  = Some <$> List.filter (λ q, String.eqb (status q) "pending") items).
  { specialize (IH (h ++ [q])%list). rewrite length_app in IH. cbn [length] in IH.
    rewrite Nat.add_1_r in IH. apply IH. rewrite Hh, <- app_assoc. reflexivity. }
  destruct (String.eqb (status q) "pending").
  - rewrite !fmap_cons, Hq, Hrest. reflexivity.
  - exact Hrest.
Qed.

Lemma loadSyncQueue_open (E : env) w :
  dbOpen w = true → dbFault E (dbCalls w) = false →
  loadSyncQueue E w =
    (Normal tt,
     let w1 := set_heap (λ h, app h (dbSyncQueue w)) (next_dbCall w) in
     set_this (set_syncQueue
                 (List.filter (is_pending w1)
                    (seq (length (heap w)) (length (dbSyncQueue w))))) w1).
Proof.
  intros Hdb Hf.
  unfold loadSyncQueue, try_catch, db_getAll_syncQueue, allocate, db_ensure,
    db_request, bind, gets, modify, ret.
  rewrite Hdb. cbv beta iota. rewrite Hdb. cbv beta iota. rewrite Hf. reflexivity.
Qed.

Lemma loadSyncQueue_fault (E : env) w :
  dbOpen w = true → dbFault E (dbCalls w) = true →
  loadSyncQueue E w = (Normal tt, next_dbCall w).
Proof.
  intros Hdb Hf.
  unfold loadSyncQueue, try_catch, db_getAll_syncQueue, allocate, db_ensure,
    db_request, bind, gets, modify, ret.
  rewrite Hdb. cbv beta iota. rewrite Hdb. cbv beta iota. rewrite Hf. reflexivity.
Qed.

Lemma loadSyncQueue_closed (E : env) w :
  dbOpen w = false → loadSyncQueue E w = (Normal tt, w).
Proof.
  intros Hdb. unfold loadSyncQueue, try_catch, bind, gets, ret.
  rewrite Hdb. reflexivity.
Qed.

Lemma loadSyncQueue_loads (E : env) w :
  dbOpen w = true → dbFault E (dbCalls w) = false →
  let w' := snd (loadSyncQueue E w) in
  queued w' = Some <$> List.filter (λ q, String.eqb (status q) "pending") (dbSyncQueue w) ∧
  dbSyncQueue w' = dbSyncQueue w ∧
  (∀ l, (l < length (heap w))%nat → heap w' !! l = heap w !! l).
Proof.
  intros Hdb Hf. rewrite (loadSyncQueue_open E w Hdb Hf). cbn [snd].
  unfold queued.
  cbn [this set_this syncQueue set_syncQueue heap set_heap next_dbCall dbSyncQueue].
  split; [| split; [reflexivity |]].
  - exact (filter_pending_fresh (heap w) (dbSyncQueue w)
             (set_heap (λ h, app h (dbSyncQueue w)) (next_dbCall w)) eq_refl).
  - intros l Hl. rewrite lookup_app_l by exact Hl. reflexivity.
Qed.

(** X10: [loadSyncQueue] never rejects. On an open database whose request is
    answered it makes the queue the stored items whose [status] is
    ['pending'], as new objects, and leaves the store as it is; on a closed
    database it does nothing, and when the request fails the queue and the
    objects stay as they are. *)
Theorem loadSyncQueue_reloads (E : env) (w : world) :
  (∃ u, fst (loadSyncQueue E w) = Normal u) ∧
  (if dbOpen w then
     if dbFault E (dbCalls w) then
       syncQueue (this (snd (loadSyncQueue E w))) = syncQueue (this w) ∧
       heap (snd (loadSyncQueue E w)) = heap w
     else
       queued (snd (loadSyncQueue E w)) =
         Some <$> List.filter (λ q, String.eqb (status q) "pending") (dbSyncQueue w) ∧
       dbSyncQueue (snd (loadSyncQueue E w)) = dbSyncQueue w
   else snd (loadSyncQueue E w) = w).
Proof.
  split; [apply loadSyncQueue_total |].
  destruct (dbOpen w) eqn:Hdb.
  - destruct (dbFault E (dbCalls w)) eqn:Hf.
    + rewrite (loadSyncQueue_fault E w Hdb Hf). split; reflexivity.
    + destruct (loadSyncQueue_loads E w Hdb Hf) as (H1 & H2 & _). split; assumption.
  - rewrite (loadSyncQueue_closed E w Hdb). reflexivity.
Qed.

(** X11: a failed attempt is not recorded in the local store: whatever made the
    attempt throw, the stored queue is as it was, so that the next
    [loadSyncQueue] (on an open database whose request is answered) queues
    every stored item whose stored [status] is ['pending'] again, the failed
    one among them with the [retryCount] it was stored with. *)
Theorem failure_is_not_durable (E : env) l w e :
  fst (attempt E l w) = Throw e →
  let w1 := snd (processOp E l w) in
  dbSyncQueue w1 = dbSyncQueue w ∧
  (dbOpen w1 = true → dbFault E (dbCalls w1) = false →
   queued (snd (loadSyncQueue E w1)) =
     Some <$> List.filter (λ q, String.eqb (status q) "pending") (dbSyncQueue w)).
Proof.
  intros He w1. pose proof (processOp_failure_durable E l w e He) as Hd.
  fold w1 in Hd. split; [exact Hd |]. intros Hdb Hf.
  destruct (loadSyncQueue_loads E w1 Hdb Hf) as (H1 & _). rewrite <- Hd. exact H1.
Qed.

Lemma failure_is_not_durable_witness :
  let w := snd (enqueue quiet None (set_onLine false household)) in
  (status <$> heap (snd (processOp quiet 0%nat w)) !! 0%nat) = Some "failed" ∧
  (status <$> dbSyncQueue (snd (processOp quiet 0%nat w))) = ["pending"] ∧
  dbSyncQueue (snd (processOp quiet 0%nat w)) = dbSyncQueue w.
Proof.
  intros w. split; [reflexivity |]. split; [reflexivity |].
  eapply (failure_is_not_durable quiet 0%nat w). reflexivity.
Defined.

Lemma enqueue_saved (E : env) op w :
  dbOpen w = true → dbFault E (dbCalls w) = false → uuid E (drawn w) ≠ "" →
  ∃ W, enqueue E op w = (Normal tt, W) ∧
    heap W = (heap w ++ [new_item E op w])%list ∧
    this W = set_syncQueue (syncQueue (this w) ++ [length (heap w)])%list (this w) ∧
    dbSyncQueue W = store_put q_id (new_item E op w) (dbSyncQueue w) ∧
    onLine W = onLine w ∧ dbOpen W = true ∧ dbCalls W = S (dbCalls w) ∧
    dbRecords W = dbRecords w ∧ remote W = remote w.
Proof.
  intros Hdb Hf Hu. unfold enqueue.
  rewrite bind_generateUUID, bind_Date_now, !bind_gets, !bind_modify, bind_gets.
  cbn [dbOpen set_this set_heap next_tick next_draw this heap]. rewrite Hdb.
  unfold db_save_syncQueue.
  erewrite bind_returns by (apply db_ensure_open; exact Hdb).
  rewrite bind_gets. cbn [heap set_this set_heap next_tick next_draw].
  rewrite lookup_app_r by reflexivity. rewrite Nat.sub_diag. cbn [lookup list_lookup].
  cbn [q_id q_createdAt truthy negb].
  apply String.eqb_neq in Hu. rewrite Hu. cbn [negb].
  rewrite bind_ret, bind_assoc, bind_Date_now, bind_ret, bind_Date_now.
  unfold update_item. rewrite bind_modify.
  unfold db_request at 1. unfold bind at 1.
  cbn [dbCalls set_heap set_this next_tick next_draw]. rewrite Hf.
  unfold modify. eexists. split; [reflexivity |].
  cbn [heap this dbSyncQueue onLine dbOpen dbCalls dbRecords remote ticks
       set_dbSyncQueue next_dbCall set_heap set_this next_tick next_draw].
  rewrite alter_app_r_alt by reflexivity. rewrite Nat.sub_diag.
  repeat split; try assumption; reflexivity.
Qed.

(** X12: offline, or while a cycle or a drain is running, on an open database
    whose request is answered, [queueOperation] resolves with the operation
    queued and stored: the new item is ['pending'], carries the payload and
    the vector clock of the moment, is the last of the queue and is in the
    store; the clock of the manager is as it was. *)
Theorem queueOperation_defers (E : env) op w :
  onLine w && negb (syncInProgress (this w)) = false →
  dbOpen w = true → dbFault E (dbCalls w) = false → uuid E (drawn w) ≠ "" →
  let w' := snd (queueOperation E op w) in
  fst (queueOperation E op w) = Normal tt ∧
  heap w' = (heap w ++ [new_item E op w])%list ∧
  this w' = set_syncQueue (syncQueue (this w) ++ [length (heap w)])%list (this w) ∧
  new_item E op w ∈ dbSyncQueue w'.
Proof.
  intros Hc Hdb Hf Hu w'. subst w'.
  destruct (enqueue_saved E op w Hdb Hf Hu)
    as (W & Hrun & Hheap & Hthis & Hstore & Honline & _).
  unfold queueOperation. rewrite (bind_returns _ _ _ _ _ Hrun), bind_gets.
  rewrite Honline, Hthis. cbn [syncInProgress set_syncQueue]. rewrite Hc.
  cbn [fst snd ret]. repeat split; try assumption.
  rewrite Hstore. clear. induction (dbSyncQueue w) as [|y s IH]; cbn [store_put].
  - apply elem_of_cons. auto.
  - destruct (String.compare _ _); apply elem_of_cons; auto.
Qed.

Lemma queueOperation_defers_witness :
  syncQueue (this (snd (queueOperation quiet (Some add_transaction)
                          (set_onLine false household)))) = [0%nat].
Proof.
  refine (f_equal syncQueue (proj1 (proj2 (proj2
    (queueOperation_defers quiet (Some add_transaction)
       (set_onLine false household) _ _ _ _))))); try reflexivity.
  discriminate.
Defined.

(** ** A drain that succeeds *)

Lemma other_id_id_at w i l :
  other_id w i l = bool_decide (id_at w l ≠ Some i).
Proof.
  unfold other_id, id_at. destruct (heap w !! l) as [q|]; cbn [fmap option_fmap option_map].
  - destruct (String.eqb_spec (q_id q) i) as [->|Hne]; cbn [negb].
    + symmetry. apply bool_decide_eq_false_2. intros H. apply H. reflexivity.
    + symmetry. apply bool_decide_eq_true_2. congruence.
  - symmetry. apply bool_decide_eq_true_2. discriminate.
Qed.

Lemma attempt_success (E : env) l w q p :
  heap w !! l = Some q → operation q = Some p →
  dbOpen w = true → dbFault E (dbCalls w) = false →
  ∃ W, attempt E l w = (Normal tt, W) ∧
    heap W !! l = Some (set_status "completed"
                          (set_q_vectorClock (vectorClock (bumped (this w))) q)) ∧
    (∀ l', l' ≠ l → heap W !! l' = heap w !! l') ∧
    this W = set_syncQueue
               (List.filter (λ l', bool_decide (id_at w l' ≠ Some (q_id q)))
                  (syncQueue (this w)))
               (bumped (this w)) ∧
    dbSyncQueue W =
      List.filter (λ x, negb (String.eqb (q_id x) (q_id q))) (dbSyncQueue w) ∧
    dbOpen W = true ∧ dbCalls W = S (dbCalls w) ∧ onLine W = onLine w ∧
    dbRecords W = dbRecords w ∧ remote W = remote w.
Proof.
  intros Hq Hop Hdb Hf. unfold attempt.
  unfold syncOperation.
  rewrite !bind_assoc, bind_modify, !bind_assoc, bind_gets, !bind_assoc, bind_gets.
  cbn [heap set_this this]. rewrite Hq. unfold update_item.
  rewrite !bind_assoc, bind_modify, Hop, bind_ret, bind_modify, bind_gets.
  cbn [heap set_heap set_this]. rewrite !list_lookup_alter_eq, Hq.
  cbn [fmap option_fmap option_map default from_option Datatypes.id q_id set_status set_q_vectorClock].
  unfold removeFromQueue. rewrite bind_modify, bind_gets.
  cbn [dbOpen set_this set_heap]. rewrite Hdb.
  unfold db_delete_syncQueue.
  erewrite bind_returns by (apply db_ensure_open; exact Hdb).
  unfold db_request at 1. unfold bind at 1.
  cbn [dbCalls set_heap set_this]. rewrite Hf. unfold modify.
  eexists. split; [reflexivity |].
  cbn [heap this dbSyncQueue dbOpen dbCalls onLine dbRecords remote
       set_dbSyncQueue next_dbCall set_this set_heap].
  split; [| split; [| split; [| repeat split; assumption]]].
  - rewrite !list_lookup_alter_eq, Hq. reflexivity.
  - intros l' Hne. rewrite !list_lookup_alter_ne by congruence. reflexivity.
  - unfold bumped. f_equal. apply List.filter_ext. intros l'.
    rewrite other_id_id_at. unfold id_at. cbn [heap set_heap set_this].
    destruct (decide (l' = l)) as [->|Hne].
    + rewrite !list_lookup_alter_eq, Hq. reflexivity.
    + rewrite !list_lookup_alter_ne by congruence. reflexivity.
Qed.

Lemma processOp_success (E : env) l w q p :
  heap w !! l = Some q → operation q = Some p →
  dbOpen w = true → dbFault E (dbCalls w) = false →
  ∃ W, processOp E l w = (Normal tt, W) ∧
    heap W !! l = Some (set_status "completed"
                          (set_q_vectorClock (vectorClock (bumped (this w))) q)) ∧
    (∀ l', l' ≠ l → heap W !! l' = heap w !! l') ∧
    this W = set_syncQueue
               (List.filter (λ l', bool_decide (id_at w l' ≠ Some (q_id q)))
                  (syncQueue (this w)))
               (bumped (this w)) ∧
    dbSyncQueue W =
      List.filter (λ x, negb (String.eqb (q_id x) (q_id q))) (dbSyncQueue w) ∧
    dbOpen W = true ∧ dbCalls W = S (dbCalls w) ∧ onLine W = onLine w ∧
    dbRecords W = dbRecords w ∧ remote W = remote w.
Proof.
  intros Hq Hop Hdb Hf.
  destruct (attempt_success E l w q p Hq Hop Hdb Hf) as (W & Hrun & H).
  exists W. split; [| exact H]. unfold processOp, try_catch. rewrite Hrun. reflexivity.
Qed.

Lemma filter_filter {A} (f g : A → bool) (l : list A) :
  List.filter f (List.filter g l) = List.filter (λ x, g x && f x) l.
Proof.
  induction l as [|x l IH]; [reflexivity |]. cbn [List.filter].
  destruct (g x); cbn [List.filter andb]; [destruct (f x) |]; rewrite IH; reflexivity.
Qed.

Lemma filter_all {A} (f : A → bool) (l : list A) :
  (∀ x, f x = true) → List.filter f l = l.
Proof.
  intros H. induction l as [|x l IH]; [reflexivity |].
  cbn [List.filter]. rewrite H, IH. reflexivity.
Qed.

Lemma drain_loop (E : env) :
  (∀ n, dbFault E n = false) →
  ∀ ls u, NoDup ls → (∀ l, l ∈ ls → has_payload u l) → dbOpen u = true →
  ∃ u', forEach (processOp E) ls u = (Normal tt, u') ∧
    (∀ l, l ∈ ls → (status <$> heap u' !! l) = Some "completed") ∧
    (∀ l, l ∉ ls → heap u' !! l = heap u !! l) ∧
    (∀ l, id_at u' l = id_at u l) ∧
    syncQueue (this u') =
      List.filter (λ l', bool_decide (id_at u l' ∉ id_at u <$> ls))
        (syncQueue (this u)) ∧
    vectorClock (this u') =
      Nat.iter (length ls) (bump (memberCode (this u))) (vectorClock (this u)) ∧
    memberCode (this u') = memberCode (this u) ∧
    syncInProgress (this u') = syncInProgress (this u) ∧
    dbSyncQueue u' =
      List.filter (λ x, bool_decide (Some (q_id x) ∉ id_at u <$> ls))
        (dbSyncQueue u) ∧
    dbOpen u' = true ∧ dbRecords u' = dbRecords u ∧ remote u' = remote u.
Proof.
  intros Hcalm. induction ls as [|l ls IH]; intros u Hnd Hpay Hdb.
  - exists u. split; [reflexivity |].
    split; [intros l Hl; inversion Hl |]. split; [reflexivity |]. split; [reflexivity |].
    split.
    { symmetry. apply filter_all. intros l'.
      apply bool_decide_eq_true_2, not_elem_of_nil. }
    split; [reflexivity |]. split; [reflexivity |]. split; [reflexivity |].
    split; [| auto].
    symmetry. apply filter_all. intros x.
    apply bool_decide_eq_true_2, not_elem_of_nil.
  - apply NoDup_cons in Hnd as [Hl Hnd].
    destruct (Hpay l) as (q & p & Hq & Hop); [apply elem_of_cons; auto |].
    destruct (processOp_success E l u q p Hq Hop Hdb (Hcalm _))
      as (W & Hrun & HWl & HWother & HWthis & HWstore & HWdb & _ & _ & HWrec & HWrem).
    assert (HidW : ∀ l', id_at W l' = id_at u l').
    { intros l'. unfold id_at. destruct (decide (l' = l)) as [->|Hne].
      - rewrite HWl, Hq. reflexivity.
      - rewrite (HWother l' Hne). reflexivity. }
    destruct (IH W Hnd) as (u' & Hrun' & Hdone & Hother & Hid & Hqueue & Hclock & Hmem
                            & Hflag & Hstore & Hdb' & Hrec & Hrem).
    { intros l' Hl'. destruct (Hpay l') as (q' & p' & Hq' & Hop');
        [apply elem_of_cons; auto |].
      exists q', p'. split; [| exact Hop'].
      rewrite HWother; [exact Hq' |]. intros ->. contradiction. }
    { exact HWdb. }
    exists u'. split.
    { cbn [forEach]. rewrite (bind_returns _ _ _ _ _ Hrun). exact Hrun'. }
    assert (Hidl : id_at u l = Some (q_id q)) by (unfold id_at; rewrite Hq; reflexivity).
    split; [| split; [| split; [| split; [| split; [| split; [| split; [| split]]]]]]].
    + intros l' Hl'. apply elem_of_cons in Hl' as [-> | Hl']; [| apply Hdone; exact Hl'].
      rewrite (Hother l Hl), HWl. reflexivity.
    + intros l' Hl'. apply not_elem_of_cons in Hl' as [Hne Hl'].
      rewrite (Hother l' Hl'). apply HWother. exact Hne.
    + intros l'. rewrite Hid. apply HidW.
    + rewrite Hqueue, HWthis. cbn [syncQueue set_syncQueue].
      rewrite filter_filter. apply List.filter_ext. intros l'.
      rewrite !HidW, fmap_cons, Hidl.
      assert (id_at W <$> ls = id_at u <$> ls) as ->
        by (apply list_fmap_ext; intros; apply HidW).
      destruct (decide (id_at u l' = Some (q_id q))) as [Heq|Hne].
      * rewrite (bool_decide_eq_false_2 (id_at u l' ≠ Some (q_id q)))
          by (intros H; apply H, Heq).
        cbn [andb]. symmetry. apply bool_decide_eq_false_2. intros H. apply H.
        rewrite Heq. apply elem_of_cons. auto.
      * rewrite (bool_decide_eq_true_2 (id_at u l' ≠ Some (q_id q))) by exact Hne.
        cbn [andb]. apply bool_decide_ext. rewrite not_elem_of_cons. tauto.
    + rewrite Hclock, HWthis. cbn [length]. rewrite Nat.iter_succ_r. reflexivity.
    + rewrite Hmem, HWthis. reflexivity.
    + rewrite Hflag, HWthis. reflexivity.
    + rewrite Hstore, HWstore, filter_filter. apply List.filter_ext. intros x.
      rewrite fmap_cons, Hidl.
      assert (id_at W <$> ls = id_at u <$> ls) as ->
        by (apply list_fmap_ext; intros; apply HidW).
      destruct (String.eqb_spec (q_id x) (q_id q)) as [Heq|Hne]; cbn [negb andb].
      * symmetry. apply bool_decide_eq_false_2. intros H. apply H.
        rewrite Heq. apply elem_of_cons. auto.
      * apply bool_decide_ext. rewrite not_elem_of_cons. split; [| tauto].
        intros H. split; [congruence | exact H].
    + split; [exact Hdb' |]. split; congruence.
Qed.

Lemma filter_none {A} (f : A → bool) (l : list A) :
  (∀ x, x ∈ l → f x = false) → List.filter f l = [].
Proof.
  induction l as [|x l IH]; intros H; [reflexivity |].
  cbn [List.filter]. rewrite (H x) by (apply elem_of_cons; auto).
  apply IH. intros y Hy. apply H. apply elem_of_cons. auto.
Qed.

Lemma elem_of_filter_bool {A} (f : A → bool) (l : list A) x :
  x ∈ List.filter f l ↔ x ∈ l ∧ f x = true.
Proof. rewrite !list_elem_of_In. apply filter_In. Qed.

Lemma NoDup_filter_bool {A} (f : A → bool) (l : list A) :
  NoDup l → NoDup (List.filter f l).
Proof.
  induction 1 as [|x l Hx Hnd IH]; cbn [List.filter]; [constructor |].
  destruct (f x); [| exact IH]. constructor; [| exact IH].
  rewrite elem_of_filter_bool. tauto.
Qed.

(** What a drain on an idle manager leaves, with the store open and
    answering. *)
Lemma drain_idle (E : env) w :
  (∀ n, dbFault E n = false) →
  syncInProgress (this w) = false → dbOpen w = true →
  NoDup (syncQueue (this w)) → (∀ l, l ∈ pending w → has_payload w l) →
  let w' := snd (processSyncQueue E w) in
  fst (processSyncQueue E w) = Normal tt ∧
  syncInProgress (this w') = false ∧
  (∀ l, l ∈ pending w → (status <$> heap w' !! l) = Some "completed") ∧
  syncQueue (this w') =
    List.filter (λ l', bool_decide (id_at w l' ∉ id_at w <$> pending w))
      (syncQueue (this w)) ∧
  pending w' = [] ∧
  vectorClock (this w') =
    Nat.iter (length (pending w)) (bump (memberCode (this w)))
      (vectorClock (this w)) ∧
  dbSyncQueue w' =
    List.filter (λ x, bool_decide (Some (q_id x) ∉ id_at w <$> pending w))
      (dbSyncQueue w).
Proof.
  intros Hcalm Hflag Hdb Hnd Hpay w'. subst w'.
  unfold processSyncQueue. rewrite bind_gets.
  destruct (drain_refused w) eqn:Hr.
  - unfold drain_refused in Hr. rewrite Hflag, orb_false_r in Hr.
    apply Nat.eqb_eq in Hr. destruct (syncQueue (this w)) as [|l q] eqn:Hq;
      [| discriminate].
    assert (Hp : pending w = []) by (unfold pending; rewrite Hq; reflexivity).
    cbn [fst snd ret]. rewrite Hp, Hq.
    repeat split; try assumption; try reflexivity.
    + intros l Hl. inversion Hl.
    + symmetry. apply filter_all. intros x. apply bool_decide_eq_true_2, not_elem_of_nil.
  - rewrite bind_modify. unfold drain_body. rewrite try_finally_modify, bind_gets.
    set (w0 := set_this (set_syncInProgress true) w).
    change (pending w0) with (pending w).
    destruct (drain_loop E Hcalm (pending w) w0) as
      (u' & Hrun & Hdone & Hother & Hid & Hqueue & Hclock & Hmem & _ & Hstore & _).
    { apply NoDup_filter_bool. exact Hnd. }
    { exact Hpay. }
    { exact Hdb. }
    rewrite Hrun. cbn [fst snd].
    change (id_at w0) with (id_at w) in *.
    cbn [this set_this syncInProgress set_syncInProgress syncQueue vectorClock
         heap dbSyncQueue].
    change (syncQueue (this w0)) with (syncQueue (this w)) in Hqueue.
    change (vectorClock (this w0)) with (vectorClock (this w)) in Hclock.
    change (memberCode (this w0)) with (memberCode (this w)) in Hclock.
    change (dbSyncQueue w0) with (dbSyncQueue w) in Hstore.
    split; [reflexivity |]. split; [reflexivity |]. split; [exact Hdone |].
    split; [exact Hqueue |]. split; [| split; assumption].
    unfold pending. cbn [this set_this syncQueue set_syncInProgress].
    apply filter_none. intros l Hl. rewrite Hqueue in Hl.
    apply elem_of_filter_bool in Hl as [Hl Hnot].
    apply bool_decide_eq_true_1 in Hnot.
    assert (Hlp : l ∉ pending w).
    { intros H. apply Hnot. apply list_elem_of_fmap_2. exact H. }
    unfold is_pending. cbn [heap set_this]. rewrite (Hother l Hlp).
    change (heap w0 !! l) with (heap w !! l).
    destruct (heap w !! l) as [q|] eqn:Hq; [| reflexivity].
    destruct (String.eqb (status q) "pending") eqn:Hs; [| reflexivity].
    exfalso. apply Hlp. unfold pending. apply elem_of_filter_bool.
    split; [exact Hl |]. unfold is_pending. rewrite Hq. exact Hs.
Qed.


Lemma quiet_never_fails : ∀ n, dbFault quiet n = false.
Proof. reflexivity. Qed.




(** ** [init] and the return of the connection *)

Lemma loadSyncQueue_keeps {B} (E : env) (f : world → B) :
  (∀ w, f (next_dbCall w) = f w) → (∀ b w, f (set_dbOpen b w) = f w) →
  (∀ g w, f (set_heap g w) = f w) →
  (∀ q w, f (set_this (set_syncQueue q) w) = f w) →
  keeps f (loadSyncQueue E).
Proof.
  intros H1 H2 H3 H4.
  unfold loadSyncQueue, db_getAll_syncQueue, allocate.
  frame; try apply H3; try apply H4.
  - apply db_ensure_keeps; assumption.
  - apply db_request_keeps; assumption.
Qed.




(** ** The remote document *)

(** X17: [getRemoteData] never rejects and writes nothing: whatever the answer,
    it leaves the world as it was but for the count of requests. *)
Theorem getRemoteData_reads_only (E : env) w :
  ∃ r, getRemoteData E w = (Normal r, w) ∨
       getRemoteData E w = (Normal r, next_netCall w).
Proof.
  unfold getRemoteData. rewrite bind_gets.
  destruct (gistId (this w)) as [g|]; [| exists RemoteNull; left; reflexivity].
  destruct (String.eqb g ""); [exists RemoteNull; left; reflexivity |].
  unfold try_catch, bind, net_request, gets, throw, ret, lift.
  destruct (netFault E (netCalls w)); try (exists RemoteNull; right; reflexivity).
  cbn [remote next_netCall].
  destruct (remote w !! g) as [[c|]|]; try (exists RemoteNull; right; reflexivity).
  destruct c as [|text| |b|d]; try (exists RemoteNull; right; reflexivity).
  - exists (RemoteOther b). right. reflexivity.
  - cbn [parseRemote]. destruct (encrypted d && truthy (JStr (familyCode (this w))));
      eexists; right; reflexivity.
Qed.

(** X18: what [uploadData] has written can be read back without the family code:
    after an upload that the server accepts, [getRemoteData] of a manager
    with the same gist returns the uploaded snapshot, as JSON carries it,
    when its family code is the uploader's and also when it has no family
    code at all; with any other family code it returns null. *)
Theorem upload_then_read (E : env) d w g reader :
  gistId (this w) = Some g → g ≠ "" → is_Some (remote w !! g) →
  netFault E (netCalls w) = NetOk → netFault E (S (netCalls w)) = NetOk →
  let w1 := snd (uploadData E d w) in
  fst (uploadData E d w) = Normal tt ∧
  fst (getRemoteData E (set_this (set_familyCode reader) w1)) =
    Normal (if String.eqb reader "" || String.eqb (familyCode (this w)) reader
            then RemoteObject (snapshot_json d) else RemoteNull).
Proof.
  intros Hg Hne [x Hx] Hn1 Hn2 w1. subst w1.
  assert (Hup : uploadData E d w =
    (Normal tt,
     set_remote (<[g := Some (JsonDoc {| plain := snapshot_json d; encrypted := true;
                         data := Some (encrypt d (familyCode (this w))) |})]>)
       (next_netCall w))).
  { unfold uploadData. rewrite bind_gets, Hg.
    destruct (String.eqb_spec g ""); [contradiction |].
    unfold bind, net_request, gets, modify, ret. rewrite Hn1.
    cbn [remote next_netCall]. rewrite Hx. reflexivity. }
  rewrite Hup. cbn [fst snd]. split; [reflexivity |].
  unfold getRemoteData. rewrite bind_gets.
  cbn [this set_this set_remote next_netCall gistId set_familyCode set_identity].
  rewrite Hg. destruct (String.eqb_spec g ""); [contradiction |].
  unfold try_catch, bind, net_request, gets, throw, ret, lift.
  cbn [netCalls set_this set_remote next_netCall remote]. rewrite Hn2.
  rewrite lookup_insert_eq. cbn [parseRemote encrypted data plain andb truthy
    familyCode this set_this set_familyCode set_identity fst].
  destruct (String.eqb_spec reader "") as [->|Hr]; cbn [negb orb]; [reflexivity |].
  unfold decrypt, encrypt.
  destruct (String.eqb (familyCode (this w)) reader); reflexivity.
Qed.

Lemma upload_then_read_witness :
  fst (getRemoteData quiet
         (set_this (set_familyCode "")
            (snd (uploadData quiet bob_snapshot shared_home)))) =
    Normal (RemoteObject (snapshot_json bob_snapshot)).
Proof.
  refine (proj2 (upload_then_read quiet bob_snapshot shared_home "g1" "" _ _ _ _ _));
    try reflexivity.
  - discriminate.
  - eexists. reflexivity.
Defined.



Lemma createGist_ok (E : env) newId w :
  netFault E (netCalls w) = NetOk →
  createGist E newId w =
    (Normal newId,
     set_this (set_gistId (Some newId))
       (set_remote (<[newId := Some new_file]>)
          (next_netCall (next_tick w)))).
Proof.
  intros Hn. unfold createGist. rewrite bind_Date_now.
  unfold bind, net_request. change (netCalls (next_tick w)) with (netCalls w).
  rewrite Hn. reflexivity.
Qed.


Lemma quiet_calm : calm quiet.
Proof. split; reflexivity. Qed.


(** ** What [syncNow] reports *)

Lemma bind_report {A C} (G : list (string * string) * bool * option Z →
                             list (string * string) * bool * option Z → Prop)
    (m : M A) (k : A → M C) :
  keeps report m →
  (∀ a w1, match k a w1 with
           | (Normal _, w2) => G (report w1) (report w2)
           | (Throw _, w2) => report w2 = report w1
           end) →
  ∀ w, match bind m k w with
       | (Normal _, w2) => G (report w) (report w2)
       | (Throw _, w2) => report w2 = report w
       end.
Proof.
  intros Hm Hk w. unfold bind. specialize (Hm w).
  destruct (m w) as [[a|e] w1]; cbn [snd] in Hm.
  - specialize (Hk a w1). rewrite Hm in Hk. exact Hk.
  - exact Hm.
Qed.

Lemma processOp_keeps_report (E : env) l : keeps report (processOp E l).
Proof.
  unfold processOp, attempt, recordFailure, syncOperation, update_item,
    removeFromQueue, db_delete_syncQueue, db_ensure, db_init.
  frame; try reflexivity.
  all: apply db_request_keeps; reflexivity.
Qed.

Lemma processSyncQueue_keeps_report (E : env) : keeps report (processSyncQueue E).
Proof.
  unfold processSyncQueue, drain_body.
  apply keeps_bind; [apply keeps_gets | intros w0].
  destruct (drain_refused w0); [apply keeps_ret |].
  apply keeps_bind; [apply keeps_modify; reflexivity | intros _].
  apply keeps_try_finally; [| apply keeps_modify; reflexivity].
  apply keeps_bind; [apply keeps_gets | intros ls].
  apply keeps_forEach. intros l _. apply processOp_keeps_report.
Qed.

Lemma getLocalData_keeps_report (E : env) : keeps report (getLocalData E).
Proof.
  unfold getLocalData, db_getAll, db_ensure, db_init.
  frame; try reflexivity.
  all: first [ apply db_request_keeps | apply Date_now_keeps ]; reflexivity.
Qed.

Lemma getRemoteData_keeps_report (E : env) : keeps report (getRemoteData E).
Proof.
  unfold getRemoteData. frame; try (apply net_request_keeps; reflexivity).
Qed.

Lemma mergeData_keeps_report (E : env) l r : keeps report (mergeData E l r).
Proof.
  unfold mergeData. frame; try reflexivity.
  apply Date_now_keeps; reflexivity.
Qed.

Lemma saveLocalData_keeps_report (E : env) d : keeps report (saveLocalData E d).
Proof.
  unfold saveLocalData, saveCollection, db_clear, db_saveBatch, stampRecord,
    db_ensure, db_init.
  frame; try reflexivity.
  all: first [ apply db_request_keeps | apply Date_now_keeps
             | apply generateUUID_keeps ]; reflexivity.
Qed.

Lemma uploadData_keeps_report (E : env) d : keeps report (uploadData E d).
Proof.
  unfold uploadData. frame; try reflexivity.
  all: apply net_request_keeps; reflexivity.
Qed.

Lemma syncCycle_report (E : env) w :
  match syncCycle E w with
  | (Normal _, w2) =>
      uiLog w2 = (uiLog w ++ if appContext w then told_success else [])%list ∧
      appContext w2 = appContext w ∧ is_Some (lastSyncTime (this w2))
  | (Throw _, w2) => report w2 = report w
  end.
Proof.
  unfold syncCycle.
  set (G := λ b b' : list (string * string) * bool * option Z,
         b'.1.1 = (b.1.1 ++ if b.1.2 then told_success else [])%list ∧
         b'.1.2 = b.1.2 ∧ is_Some b'.2).
  refine (bind_report G _ _ (processSyncQueue_keeps_report E) _ w). intros _ w1.
  refine (bind_report G _ _ (getLocalData_keeps_report E) _ w1). intros localData w2.
  refine (bind_report G _ _ (keeps_gets report this) _ w2). intros self w3.
  refine (bind_report G _ _ _ _ w3).
  { destruct (gistId_truthy self); [apply getRemoteData_keeps_report | apply keeps_ret]. }
  intros remoteData w4.
  refine (bind_report G _ _ (mergeData_keeps_report E _ _) _ w4). intros merged w5.
  refine (bind_report G _ _ (saveLocalData_keeps_report E _) _ w5). intros merged' w6.
  refine (bind_report G _ _ _ _ w6).
  { destruct (gistId_truthy self); [apply uploadData_keeps_report | apply keeps_ret]. }
  intros _ w7.
  rewrite bind_Date_now, bind_modify, bind_gets.
  cbn [appContext set_this next_tick].
  subst G. cbn beta. unfold report.
  destruct (appContext w7) eqn:Hc; unfold ui;
    rewrite ?bind_assoc, ?bind_modify, ?bind_ret;
    cbn [ret fst snd uiLog appContext this set_this set_uiLog next_tick
         lastSyncTime set_lastSyncTime].
  - rewrite <- app_assoc. split; [reflexivity |]. split; [exact Hc | eauto].
  - rewrite app_nil_r. split; [reflexivity |]. split; [exact Hc | eauto].
Qed.

Lemma syncNow_rest_eq (E : env) w1 :
  syncNow_rest E w1 =
    match syncCycle E w1 with
    | (Normal _, w2) => (Normal tt, set_this (set_syncInProgress false) w2)
    | (Throw _, w2) =>
        (Normal tt,
         set_this (set_syncInProgress false)
           (if appContext w2
            then set_uiLog (λ l, app l told_error) w2
            else w2))
    end.
Proof.
  unfold syncNow_rest. rewrite try_finally_modify.
  unfold try_catch.
  destruct (syncCycle E w1) as [[d|e] w2] eqn:Hcyc.
  - rewrite (bind_returns _ _ _ _ _ Hcyc). reflexivity.
  - rewrite (bind_throws _ _ _ _ _ Hcyc).
    rewrite bind_gets. destruct (appContext w2); [| reflexivity].
    unfold ui. rewrite bind_modify. unfold modify. cbn [fst snd].
    destruct w2. unfold set_uiLog, told_error. cbn. rewrite <- app_assoc. reflexivity.
Qed.

(** X21: [syncNow] tells the host application how the sync went, once: after
    the status ['syncing'], the status ['success'] and its notification when
    the cycle completes, and then the time of the last sync is set; the
    status ['error'] and its notification when anything in the cycle throws,
    and then the time of the last sync stays what it was. Without a host
    application nothing is told. *)
Theorem syncNow_reports (E : env) w :
  sync_refused w = false →
  let w0 := set_this (set_syncInProgress true) w in
  let w1 := if appContext w then snd (ui "setSyncStatus" "syncing" w0) else w0 in
  let w' := snd (syncNow E w) in
  match fst (syncCycle E w1) with
  | Normal _ =>
      uiLog w' =
        (uiLog w ++ if appContext w
                    then ("setSyncStatus", "syncing") :: told_success else [])%list ∧
      is_Some (lastSyncTime (this w'))
  | Throw _ =>
      uiLog w' =
        (uiLog w ++ if appContext w
                    then ("setSyncStatus", "syncing") :: told_error else [])%list ∧
      lastSyncTime (this w') = lastSyncTime (this w)
  end.
Proof.
  intros Hr w0 w1 w'. subst w'. unfold syncNow.
  rewrite bind_gets, Hr, bind_modify. fold w0. unfold syncNow_body.
  rewrite bind_gets.
  assert (Hbody : bind (if appContext w0 then ui "setSyncStatus" "syncing" else ret tt)
                    (λ _, syncNow_rest E) w0 = syncNow_rest E w1).
  { subst w1. change (appContext w0) with (appContext w).
    destruct (appContext w); reflexivity. }
  rewrite Hbody, syncNow_rest_eq.
  assert (Hlog1 : uiLog w1 = (uiLog w ++ if appContext w
                                        then [("setSyncStatus", "syncing")] else [])%list).
  { subst w1. destruct (appContext w); [reflexivity |]. rewrite app_nil_r. reflexivity. }
  assert (Hctx1 : appContext w1 = appContext w).
  { subst w1. destruct (appContext w) eqn:Hc; [| exact Hc]. exact Hc. }
  assert (Hlast1 : lastSyncTime (this w1) = lastSyncTime (this w))
    by (subst w1; destruct (appContext w); reflexivity).
  pose proof (syncCycle_report E w1) as Hrep.
  clearbody w1. clear Hbody.
  destruct (syncCycle E w1) as [[d|e] w2]; cbn [fst snd];
    cbn [this set_this uiLog lastSyncTime set_syncInProgress].
  - destruct Hrep as (Hlog & _ & Hlast).
    split; [| exact Hlast]. rewrite Hlog, Hlog1, Hctx1, <- app_assoc.
    destruct (appContext w); reflexivity.
  - unfold report in Hrep. injection Hrep as Hlog Hctx Hlast.
    rewrite Hctx, Hctx1.
    destruct (appContext w) eqn:Hc;
      cbn [snd uiLog set_uiLog this lastSyncTime told_error app].
    + rewrite Hlog, Hlog1, Hlast, Hlast1, <- !app_assoc. split; reflexivity.
    + rewrite Hlog, Hlog1, Hlast, Hlast1. split; reflexivity.
Qed.

Lemma syncNow_reports_witness :
  uiLog (snd (syncNow save_fails household)) =
    [("setSyncStatus", "syncing"); ("setSyncStatus", "error");
     ("showNotification", "Sync failed. Will retry...")] ∧
  lastSyncTime (this (snd (syncNow save_fails household))) = None.
Proof.
  pose proof (syncNow_reports save_fails household eq_refl) as H.
  cbv zeta in H.
  assert (Hthrow : ∃ e, fst (syncCycle save_fails
            (snd (ui "setSyncStatus" "syncing"
                    (set_this (set_syncInProgress true) household)))) = Throw e)
    by (eexists; vm_compute; reflexivity).
  destruct Hthrow as [e He]. change (appContext household) with true in H.
  cbv iota in H. rewrite He in H. exact H.
Defined.

(** ** The local store: single records *)

Lemma store_get_put (x : record) (s : list record) (k : string) :
  store_get k (store_put id x s) =
    if String.eqb (id x) k then Some x else store_get k s.
Proof.
  unfold store_get. induction s as [|y s IH]; cbn [store_put find].
  - reflexivity.
  - destruct (String.compare (id x) (id y)) eqn:Hc; cbn [find].
    + apply String.compare_eq_iff in Hc. rewrite <- Hc.
      destruct (String.eqb (id x) k); reflexivity.
    + destruct (String.eqb (id x) k); reflexivity.
    + rewrite IH. destruct (String.eqb_spec (id y) k) as [Hy|Hy]; [| reflexivity].
      destruct (String.eqb_spec (id x) k) as [Hx|Hx]; [| reflexivity].
      exfalso. rewrite <- Hx in Hy. rewrite Hy in Hc.
      pose proof (String.compare_antisym (id x) (id x)) as Ha.
      rewrite Hc in Ha. discriminate.
Qed.

Lemma store_get_delete (i : string) (s : list record) (k : string) :
  store_get k (store_delete i s) =
    if String.eqb i k then None else store_get k s.
Proof.
  unfold store_get, store_delete. induction s as [|y s IH]; cbn [List.filter find].
  - destruct (String.eqb i k); reflexivity.
  - destruct (String.eqb_spec (id y) i) as [Hy|Hy]; cbn [negb find].
    + rewrite IH. subst i. destruct (String.eqb_spec (id y) k); reflexivity.
    + rewrite IH. destruct (String.eqb_spec (id y) k) as [Hk|Hk]; [| reflexivity].
      destruct (String.eqb_spec i k); [congruence | reflexivity].
Qed.

Lemma store_get_id (i : string) (s : list record) (r : record) :
  store_get i s = Some r → id r = i.
Proof.
  unfold store_get. intros H. apply find_some in H as [_ H].
  apply String.eqb_eq. exact H.
Qed.

Lemma store_delete_absent (i : string) (s : list record) :
  store_get i s = None → store_delete i s = s.
Proof.
  unfold store_get, store_delete. induction s as [|y s IH]; cbn [List.filter find].
  - reflexivity.
  - destruct (String.eqb (id y) i); [discriminate |].
    intros H. cbn [negb]. rewrite (IH H). reflexivity.
Qed.

Lemma store_Map_set (w : world) (f : jsMap (list record) → jsMap (list record)) s :
  store (set_dbRecords f w) s = default [] (Map_get s (f (dbRecords w))).
Proof. reflexivity. Qed.

Lemma spread_get (name : string) (b : jsMap jsval) : ∀ a : jsMap jsval,
  NoDup b.*1 →
  Map_get name (spread a b) =
    match Map_get name b with
    | Some v => Some v
    | None => Map_get name a
    end.
Proof.
  unfold spread. induction b as [|[k v] b IH]; intros a Hnd; cbn [fold_left].
  - reflexivity.
  - rewrite fmap_cons in Hnd. apply NoDup_cons in Hnd as [Hk Hnd]. cbn [fst] in Hk.
    rewrite (IH _ Hnd). cbn [fst snd Map_get].
    destruct (String.eqb_spec k name) as [->|Hne].
    + apply Map_get_None in Hk. rewrite Hk. apply Map_get_set_eq.
    + rewrite (Map_get_set_ne _ _ _ _ Hne). reflexivity.
Qed.

Lemma Map_get_filter_keys (name : string) (P : string → bool) (b : jsMap jsval) :
  P name = true →
  Map_get name (List.filter (λ p, P (fst p)) b) = Map_get name b.
Proof.
  intros HP. induction b as [|[k v] b IH]; [reflexivity |].
  cbn [List.filter fst]. destruct (P k) eqn:Hk; cbn [Map_get].
  - rewrite IH. reflexivity.
  - rewrite IH. destruct (String.eqb_spec k name); [congruence | reflexivity].
Qed.

Lemma filter_keys_NoDup (P : string * jsval → bool) (b : jsMap jsval) :
  NoDup b.*1 → NoDup (List.filter P b).*1.
Proof.
  induction b as [|p b IH]; [intros; constructor |].
  rewrite fmap_cons. intros Hnd. apply NoDup_cons in Hnd as [Hk Hnd].
  cbn [List.filter]. destruct (P p); [| exact (IH Hnd)].
  rewrite fmap_cons. apply NoDup_cons. split; [| exact (IH Hnd)].
  intros Hin. apply Hk. apply list_elem_of_fmap in Hin as (q & -> & Hq).
  apply list_elem_of_fmap. exists q. split; [reflexivity |].
  apply list_elem_of_In in Hq. apply filter_In in Hq as [Hq _].
  apply list_elem_of_In. exact Hq.
Qed.

Lemma stampRecord_run (E : env) (r : record) (w : world) :
  ∃ r' w' n,
    stampRecord E r w = (Normal r', w') ∧
    id r' = (if truthy (JStr (id r)) then id r else uuid E (drawn w)) ∧
    fields r' = fields r ∧
    truthy (createdAt r') = true ∧
    (truthy (createdAt r) = true → createdAt r' = createdAt r) ∧
    ticks w' = S n ∧ updatedAt r' = JStr (toISOString (clock E n)) ∧
    db_state w' = db_state w.
Proof.
  unfold stampRecord.
  destruct (truthy (JStr (id r))) eqn:Hid; cbn [negb];
    rewrite ?bind_assoc, ?bind_generateUUID, !bind_ret; cbn [createdAt set_id];
    destruct (truthy (createdAt r)) eqn:Hc; cbn [negb];
    rewrite ?bind_assoc, ?bind_Date_now, !bind_ret, bind_Date_now;
    eexists _, _, _; (split; [reflexivity |]);
    cbn [id fields createdAt updatedAt set_updatedAt set_createdAt set_id
         ticks next_tick next_draw];
    repeat split; try reflexivity; try assumption;
    try (intros; reflexivity); try apply toISOString_truthy; try discriminate.
Qed.

Lemma db_ensure_inv (E : env) (w w0 : world) :
  db_ensure E w = (Normal tt, w0) →
  dbOpen w0 = true ∧ dbRecords w0 = dbRecords w ∧ ticks w0 = ticks w ∧
  drawn w0 = drawn w.
Proof.
  unfold db_ensure. rewrite bind_gets. destruct (dbOpen w) eqn:Ho.
  - intros [= <-]. auto.
  - unfold db_init, db_request, bind, modify.
    destruct (dbFault E (dbCalls w)); [discriminate |].
    intros [= <-]. auto.
Qed.

Lemma db_ensure_throws (E : env) (w w0 : world) e :
  db_ensure E w = (Throw e, w0) →
  e = Error "The database request failed" ∧ dbRecords w0 = dbRecords w.
Proof.
  unfold db_ensure. rewrite bind_gets. destruct (dbOpen w) eqn:Ho.
  - discriminate.
  - unfold db_init, db_request, bind, modify.
    destruct (dbFault E (dbCalls w)); [| discriminate].
    intros [= <- <-]. auto.
Qed.

Lemma db_request_inv (E : env) (w : world) :
  (db_request E w = (Normal tt, next_dbCall w) ∧ dbFault E (dbCalls w) = false) ∨
  (db_request E w = (Throw (Error "The database request failed"), next_dbCall w) ∧
   dbFault E (dbCalls w) = true).
Proof.
  unfold db_request. destruct (dbFault E (dbCalls w)); auto.
Qed.

Lemma db_ensure_cases (E : env) (w : world) :
  (∃ w0, db_ensure E w = (Normal tt, w0)) ∨
  (∃ w0, db_ensure E w = (Throw (Error "The database request failed"), w0) ∧
         dbRecords w0 = dbRecords w).
Proof.
  destruct (db_ensure E w) as [[[]|e] w0] eqn:He.
  - left. eauto.
  - right. destruct (db_ensure_throws _ _ _ _ He) as [-> Hd]. eauto.
Qed.

(** How [save] ends. *)
Lemma db_save_cases (E : env) (s : string) (data : record) (w : world) :
  let w' := snd (db_save E s data w) in
  match fst (db_save E s data w) with
  | Normal k =>
      ∃ r n,
        k = id r ∧
        id r = (if truthy (JStr (id data)) then id data
                else uuid E (drawn w)) ∧
        fields r = fields data ∧
        truthy (createdAt r) = true ∧
        (truthy (createdAt data) = true → createdAt r = createdAt data) ∧
        ticks w' = S n ∧ updatedAt r = JStr (toISOString (clock E n)) ∧
        s ∈ stores ∧ dbOpen w' = true ∧
        dbRecords w' = Map_set s (store_put id r (store w s)) (dbRecords w)
  | Throw e => dbRecords w' = dbRecords w
  end.
Proof.
  intros w'. subst w'. unfold db_save.
  destruct (db_ensure_cases E w) as [[w0 He]|[w0 [He Hd]]].
  2:{ rewrite (bind_throws _ _ _ _ _ He). exact Hd. }
  rewrite (bind_returns _ _ _ _ _ He).
  destruct (db_ensure_inv _ _ _ He) as (Ho & Hd & Ht & Hdr).
  unfold db_transaction. case_bool_decide as Hs.
  2:{ unfold throw, bind. cbn [fst snd]. exact Hd. }
  rewrite bind_ret.
  destruct (stampRecord_run E data w0) as (r & w1 & n & Hr & Hid & Hf & Hct & Hc & Hn & Hu & Hst).
  unfold db_state in Hst. injection Hst as Ho1 Hd1 Hc1.
  rewrite ?bind_assoc.
  rewrite (bind_returns _ _ _ _ _ Hr).
  destruct (db_request_inv E w1) as [[Hq _]|[Hq _]].
  2:{ rewrite (bind_throws _ _ _ _ _ Hq). cbn [fst snd]. 
      change (dbRecords (next_dbCall w1)) with (dbRecords w1). congruence. }
  rewrite (bind_returns _ _ _ _ _ Hq), bind_modify. unfold ret. cbn [fst snd].
  exists r, n. rewrite Hid, Hdr. repeat split; try assumption.
  - cbn. congruence.
  - cbn. unfold store. rewrite Hd1, Hd. reflexivity.
Qed.

Lemma db_get_started (E : env) (s : string) (w : world) :
  try_catch (bind (db_transaction s) (λ _, ret true)) (λ error, ret false) w =
    (Normal (bool_decide (s ∈ stores)), w).
Proof.
  unfold try_catch, db_transaction, bind, ret, throw.
  case_bool_decide; reflexivity.
Qed.

Lemma db_get_open (E : env) (s i : string) (w : world) :
  dbOpen w = true → s ∈ stores → dbFault E (dbCalls w) = false →
  db_get E s i w =
    (Normal (match store_get i (store w s) with
             | Some r => Found r
             | None => GotUndefined
             end), next_dbCall w).
Proof.
  intros Ho Hs Hf. unfold db_get.
  rewrite (bind_returns _ _ _ _ _ (db_ensure_open E w Ho)).
  rewrite (bind_returns _ _ _ _ _ (db_get_started E s w)).
  rewrite (bool_decide_eq_true_2 _ Hs).
  destruct (db_request_inv E w) as [[Hq _]|[_ Hq]]; [| congruence].
  rewrite (bind_returns _ _ _ _ _ Hq). reflexivity.
Qed.

(** How [get] ends. *)
Lemma db_get_cases (E : env) (s i : string) (w : world) :
  let w' := snd (db_get E s i w) in
  dbRecords w' = dbRecords w ∧ ticks w' = ticks w ∧ drawn w' = drawn w ∧
  match fst (db_get E s i w) with
  | Normal (Found r) => store_get i (store w s) = Some r ∧ s ∈ stores
  | Normal GotUndefined => store_get i (store w s) = None ∧ s ∈ stores
  | Normal GotNull => s ∉ stores
  | Throw e => e = Error "The database request failed"
  end.
Proof.
  intros w'. subst w'. unfold db_get.
  destruct (db_ensure E w) as [[[]|e] w0] eqn:He.
  2:{ rewrite (bind_throws _ _ _ _ _ He). cbn [fst snd].
      unfold db_ensure in He. rewrite bind_gets in He.
      destruct (dbOpen w); [discriminate |].
      unfold db_init, db_request, bind, modify in He.
      destruct (dbFault E (dbCalls w)); [| discriminate].
      injection He as <- <-. auto. }
  rewrite (bind_returns _ _ _ _ _ He).
  destruct (db_ensure_inv _ _ _ He) as (Ho & Hd & Ht & Hdr).
  rewrite (bind_returns _ _ _ _ _ (db_get_started E s w0)).
  case_bool_decide as Hs.
  - destruct (db_request_inv E w0) as [[Hq _]|[Hq _]].
    + rewrite (bind_returns _ _ _ _ _ Hq). unfold gets. cbn [fst snd].
      change (dbRecords (next_dbCall w0)) with (dbRecords w0).
      change (ticks (next_dbCall w0)) with (ticks w0).
      change (drawn (next_dbCall w0)) with (drawn w0).
      unfold store. rewrite Hd.
      destruct (store_get i _); auto.
    + rewrite (bind_throws _ _ _ _ _ Hq). cbn [fst snd].
      change (dbRecords (next_dbCall w0)) with (dbRecords w0).
      change (ticks (next_dbCall w0)) with (ticks w0).
      change (drawn (next_dbCall w0)) with (drawn w0). auto.
  - unfold ret. cbn [fst snd]. auto.
Qed.

(** X22: [save] resolves to the key of the record it has put, which a [get] of
    that key then returns: the data given with its stamps. No other record
    and no other store has changed; a [save] that rejects has changed
    nothing. *)
Theorem save_then_get (E : env) (storeName : string) (data : record) w :
  let w' := snd (db_save E storeName data w) in
  match fst (db_save E storeName data w) with
  | Normal k =>
      (id data ≠ "" → k = id data) ∧
      (∃ r n,
         holds w' storeName k r ∧
         (dbFault E (dbCalls w') = false →
          fst (db_get E storeName k w') = Normal (Found r)) ∧
         id r = k ∧ fields r = fields data ∧
         truthy (createdAt r) = true ∧
         (truthy (createdAt data) = true → createdAt r = createdAt data) ∧
         ticks w' = S n ∧ updatedAt r = JStr (toISOString (clock E n))) ∧
      (∀ j, j ≠ k →
         store_get j (store w' storeName) = store_get j (store w storeName)) ∧
      (∀ s, s ≠ storeName → store w' s = store w s)
  | Throw _ => dbRecords w' = dbRecords w
  end.
Proof.
  intros w'. pose proof (db_save_cases E storeName data w) as H.
  cbv zeta in H. fold w' in H.
  destruct (fst (db_save E storeName data w)) as [k|e]; [| exact H].
  destruct H as (r & n & Hk & Hid & Hf & Hct & Hc & Hn & Hu & Hs & Ho & Hd).
  assert (Hstore : store w' storeName = store_put id r (store w storeName)).
  { unfold store at 1. rewrite Hd, Map_get_set_eq. reflexivity. }
  assert (Hholds : holds w' storeName k r).
  { unfold holds. rewrite Hstore, store_get_put, Hk, String.eqb_refl. reflexivity. }
  split; [| split; [| split]].
  - intros Hne. rewrite Hk, Hid. cbn [truthy].
    destruct (String.eqb_spec (id data) ""); [contradiction | reflexivity].
  - exists r, n. repeat split; try assumption; [| symmetry; exact Hk].
    intros Hfault. rewrite (db_get_open E _ _ _ Ho Hs Hfault).
    unfold holds in Hholds. rewrite Hholds. reflexivity.
  - intros j Hj. rewrite Hstore, store_get_put.
    destruct (String.eqb_spec (id r) j); [congruence | reflexivity].
  - intros s Hne. unfold store. rewrite Hd, Map_get_set_ne by congruence.
    reflexivity.
Qed.

(** X23: [update] of a key that is not empty, when it resolves, resolves to that
    key and has replaced the record under it: the id is the key whatever
    [updates] says, [updatedAt] is the time of the save, every other
    property is the one of [updates] where it has one and the old one where
    it has none. No other record and no other store has changed; an
    [update] that rejects has changed nothing. *)
Theorem update_writes (E : env) (storeName i : string)
    (updates : jsMap jsval) w :
  i ≠ "" → NoDup updates.*1 →
  let w' := snd (db_update E storeName i updates w) in
  match fst (db_update E storeName i updates w) with
  | Normal k =>
      k = i ∧
      (∃ r r' n,
         holds w storeName i r ∧ holds w' storeName i r' ∧ id r' = i ∧
         ticks w' = S n ∧ updatedAt r' = JStr (toISOString (clock E n)) ∧
         (∀ name, name ∉ stamp_names →
            Map_get name (fields r') =
              match Map_get name updates with
              | Some v => Some v
              | None => Map_get name (fields r)
              end) ∧
         (truthy (default (createdAt r) (Map_get "createdAt" updates)) = true →
          createdAt r' = default (createdAt r) (Map_get "createdAt" updates))) ∧
      (∀ j, j ≠ i →
         store_get j (store w' storeName) = store_get j (store w storeName)) ∧
      (∀ s, s ≠ storeName → store w' s = store w s)
  | Throw _ => dbRecords w' = dbRecords w
  end.
Proof.
  intros Hi Hnd w'. subst w'. unfold db_update.
  pose proof (db_get_cases E storeName i w) as Hg. cbv zeta in Hg.
  destruct (db_get E storeName i w) as [[[r| |]|e] w0] eqn:Hget;
    cbn [fst snd] in Hg; destruct Hg as (Hd0 & Ht0 & Hdr0 & Hg).
  2,3: rewrite (bind_returns _ _ _ _ _ Hget); exact Hd0.
  2: rewrite (bind_throws _ _ _ _ _ Hget); exact Hd0.
  destruct Hg as [Hr Hs].
  rewrite (bind_returns _ _ _ _ _ Hget), bind_Date_now.
  set (updated := {| id := i; updatedAt := _; createdAt := _; fields := _ |}).
  pose proof (db_save_cases E storeName updated (next_tick w0)) as H.
  cbv zeta in H.
  destruct (db_save E storeName updated (next_tick w0)) as [[k|e] w1];
    cbn [fst snd] in H |- *.
  2:{ rewrite H. exact Hd0. }
  destruct H as (r' & n & Hk & Hid & Hf & Hct & Hc & Hn & Hu & _ & Ho & Hd).
  assert (Hid' : id r' = i).
  { rewrite Hid. subst updated. cbn [id truthy].
    destruct (String.eqb_spec i ""); [contradiction | reflexivity]. }
  assert (Hst0 : store (next_tick w0) storeName = store w storeName).
  { unfold store. change (dbRecords (next_tick w0)) with (dbRecords w0).
    rewrite Hd0. reflexivity. }
  assert (Hstore : store w1 storeName = store_put id r' (store w storeName)).
  { unfold store at 1. rewrite Hd, Map_get_set_eq, Hst0. reflexivity. }
  split; [congruence |]. split; [| split].
  - exists r, r', n. split; [exact Hr |]. split; [| split; [exact Hid' |]].
    { unfold holds. rewrite Hstore, store_get_put, Hid', String.eqb_refl.
      reflexivity. }
    split; [exact Hn |]. split; [exact Hu |]. split.
    + intros name Hname. rewrite Hf. subst updated. cbn [fields].
      rewrite spread_get by (apply filter_keys_NoDup; exact Hnd).
      pose proof (Map_get_filter_keys name
                    (λ k, negb (bool_decide (k ∈ stamp_names))) updates) as Hfk.
      cbv beta in Hfk. rewrite Hfk; [reflexivity |].
      rewrite (bool_decide_eq_false_2 _ Hname). reflexivity.
    + intros Htr. apply Hc. exact Htr.
  - intros j Hj. rewrite Hstore, store_get_put, Hid'.
    destruct (String.eqb_spec i j); [congruence | reflexivity].
  - intros s Hne. unfold store. rewrite Hd, Map_get_set_ne by congruence.
    change (dbRecords (next_tick w0)) with (dbRecords w0). rewrite Hd0.
    reflexivity.
Qed.

Lemma update_writes_witness :
  let w' := snd (db_update quiet "transactions" "t1" [("amount", JNum 99)]
                   household) in
  match fst (db_update quiet "transactions" "t1" [("amount", JNum 99)]
               household) with
  | Normal k =>
      k = "t1" ∧
      (∃ r r' n,
         holds household "transactions" "t1" r ∧
         holds w' "transactions" "t1" r' ∧ id r' = "t1" ∧
         ticks w' = S n ∧ updatedAt r' = JStr (toISOString (clock quiet n)) ∧
         (∀ name, name ∉ stamp_names →
            Map_get name (fields r') =
              match Map_get name [("amount", JNum 99)] with
              | Some v => Some v
              | None => Map_get name (fields r)
              end) ∧
         (truthy (default (createdAt r)
                    (Map_get "createdAt" [("amount", JNum 99)])) = true →
          createdAt r' =
            default (createdAt r) (Map_get "createdAt" [("amount", JNum 99)]))) ∧
      (∀ j, j ≠ "t1" →
         store_get j (store w' "transactions") =
           store_get j (store household "transactions")) ∧
      (∀ s, s ≠ "transactions" → store w' s = store household s)
  | Throw _ => dbRecords w' = dbRecords household
  end.
Proof.
  apply (update_writes quiet "transactions" "t1" [("amount", JNum 99)] household).
  - discriminate.
  - vm_compute. repeat constructor; set_solver.
Defined.

(** X24: [update] of a key under which the store holds nothing, or on a name
    that is no object store, never resolves and changes nothing: it rejects
    with the error that names the key and the store, unless a request to
    the database has failed before. *)
Theorem update_missing (E : env) (storeName i : string)
    (updates : jsMap jsval) w :
  store_get i (store w storeName) = None ∨ storeName ∉ stores →
  let out := db_update E storeName i updates w in
  dbRecords (snd out) = dbRecords w ∧
  (fst out =
     Throw (Error ("Item with ID " ++ i ++ " not found in " ++ storeName)) ∨
   fst out = Throw (Error "The database request failed")).
Proof.
  intros Hmiss out. subst out. unfold db_update.
  pose proof (db_get_cases E storeName i w) as Hg. cbv zeta in Hg.
  destruct (db_get E storeName i w) as [[[r| |]|e] w0] eqn:Hget;
    cbn [fst snd] in Hg; destruct Hg as (Hd0 & Ht0 & Hdr0 & Hg).
  - destruct Hg as [Hr Hs]. destruct Hmiss; [congruence | contradiction].
  - rewrite (bind_returns _ _ _ _ _ Hget). cbn [fst snd throw]. auto.
  - rewrite (bind_returns _ _ _ _ _ Hget). cbn [fst snd throw]. auto.
  - rewrite (bind_throws _ _ _ _ _ Hget). cbn [fst snd]. subst e. auto.
Qed.

Lemma update_missing_witness :
  let out := db_update quiet "transactions" "t9" [("amount", JNum 99)]
               household in
  dbRecords (snd out) = dbRecords household ∧
  (fst out =
     Throw (Error ("Item with ID " ++ "t9" ++ " not found in " ++ "transactions")) ∨
   fst out = Throw (Error "The database request failed")).
Proof.
  apply (update_missing quiet "transactions" "t9" [("amount", JNum 99)] household).
  left. reflexivity.
Defined.

(** X25: after a [delete] that resolves, the store holds nothing under the key
    and a [get] of it resolves to undefined. No other record and no other
    store has changed, and nothing at all when the key was not there. *)
Theorem delete_then_get (E : env) (storeName i : string) w :
  fst (db_delete E storeName i w) = Normal tt →
  let w' := snd (db_delete E storeName i w) in
  store_get i (store w' storeName) = None ∧
  (dbFault E (dbCalls w') = false →
   fst (db_get E storeName i w') = Normal GotUndefined) ∧
  (∀ j, j ≠ i →
     store_get j (store w' storeName) = store_get j (store w storeName)) ∧
  (∀ s, s ≠ storeName → store w' s = store w s) ∧
  (store_get i (store w storeName) = None →
   store w' storeName = store w storeName).
Proof.
  intros Hok w'. subst w'. revert Hok. unfold db_delete.
  destruct (db_ensure_cases E w) as [[w0 He]|[w0 [He Hd]]].
  2:{ rewrite (bind_throws _ _ _ _ _ He). discriminate. }
  rewrite (bind_returns _ _ _ _ _ He).
  destruct (db_ensure_inv _ _ _ He) as (Ho & Hd & Ht & Hdr).
  unfold db_transaction. case_bool_decide as Hs.
  2:{ unfold throw, bind. discriminate. }
  rewrite bind_ret.
  destruct (db_request_inv E w0) as [[Hq _]|[Hq _]].
  2:{ rewrite (bind_throws _ _ _ _ _ Hq). discriminate. }
  rewrite (bind_returns _ _ _ _ _ Hq). unfold modify. cbn [fst snd]. intros _.
  set (w1 := set_dbRecords _ _).
  assert (Hstore : store w1 storeName = store_delete i (store w storeName)).
  { unfold store, w1. cbn [dbRecords set_dbRecords next_dbCall].
    rewrite Map_get_set_eq, Hd. reflexivity. }
  assert (Hnone : store_get i (store w1 storeName) = None).
  { rewrite Hstore, store_get_delete, String.eqb_refl. reflexivity. }
  split; [exact Hnone |]. split; [| split; [| split]].
  - intros Hf. rewrite (db_get_open E storeName i w1 Ho Hs Hf), Hnone.
    reflexivity.
  - intros j Hj. rewrite Hstore, store_get_delete.
    destruct (String.eqb_spec i j); [congruence | reflexivity].
  - intros s Hne. unfold store, w1. cbn [dbRecords set_dbRecords next_dbCall].
    rewrite Map_get_set_ne by congruence. rewrite Hd. reflexivity.
  - intros Habs. rewrite Hstore. apply store_delete_absent. exact Habs.
Qed.

Lemma delete_then_get_witness :
  let w' := snd (db_delete quiet "transactions" "t1" household) in
  store_get "t1" (store w' "transactions") = None ∧
  (dbFault quiet (dbCalls w') = false →
   fst (db_get quiet "transactions" "t1" w') = Normal GotUndefined) ∧
  (∀ j, j ≠ "t1" →
     store_get j (store w' "transactions") =
       store_get j (store household "transactions")) ∧
  (∀ s, s ≠ "transactions" → store w' s = store household s) ∧
  (store_get "t1" (store household "transactions") = None →
   store w' "transactions" = store household "transactions").
Proof.
  apply (delete_then_get quiet "transactions" "t1" household). reflexivity.
Defined.

(** ** What reaches the network *)

Lemma network_of_gist (w w' : world) :
  network_and_gist w' = network_and_gist w → network w' = network w.
Proof. unfold network_and_gist, network. intros [= -> -> _]. reflexivity. Qed.

Lemma bind_keeps_at {A C B} (f : world → B) (m : M A) (k : A → M C) w :
  keeps f m →
  (∀ a w1, f w1 = f w → f (snd (k a w1)) = f w1) →
  f (snd (bind m k w)) = f w.
Proof.
  intros Hm Hk. unfold bind. specialize (Hm w).
  destruct (m w) as [[a|e] w1]; cbn [snd] in Hm |- *; [| exact Hm].
  rewrite (Hk a w1 Hm). exact Hm.
Qed.

Lemma processOp_keeps_network (E : env) l :
  keeps network_and_gist (processOp E l).
Proof.
  unfold processOp, attempt, recordFailure, syncOperation, update_item,
    removeFromQueue, db_delete_syncQueue, db_ensure, db_init.
  frame; try reflexivity.
  all: apply db_request_keeps; reflexivity.
Qed.

Lemma processSyncQueue_keeps_network (E : env) :
  keeps network_and_gist (processSyncQueue E).
Proof.
  unfold processSyncQueue, drain_body.
  apply keeps_bind; [apply keeps_gets | intros w0].
  destruct (drain_refused w0); [apply keeps_ret |].
  apply keeps_bind; [apply keeps_modify; reflexivity | intros _].
  apply keeps_try_finally; [| apply keeps_modify; reflexivity].
  apply keeps_bind; [apply keeps_gets | intros ls].
  apply keeps_forEach. intros l _. apply processOp_keeps_network.
Qed.

Lemma enqueue_keeps_network (E : env) op :
  keeps network_and_gist (enqueue E op).
Proof.
  unfold enqueue, db_save_syncQueue, update_item, db_ensure, db_init.
  frame; try reflexivity.
  all: first [ apply db_request_keeps | apply Date_now_keeps
             | apply generateUUID_keeps ]; reflexivity.
Qed.

Lemma getLocalData_keeps_network (E : env) :
  keeps network_and_gist (getLocalData E).
Proof.
  unfold getLocalData, db_getAll, db_ensure, db_init.
  frame; try reflexivity.
  all: first [ apply db_request_keeps | apply Date_now_keeps ]; reflexivity.
Qed.

Lemma mergeData_keeps_network (E : env) l r :
  keeps network_and_gist (mergeData E l r).
Proof.
  unfold mergeData. frame; try reflexivity.
  apply Date_now_keeps; reflexivity.
Qed.

Lemma saveLocalData_keeps_network (E : env) d :
  keeps network_and_gist (saveLocalData E d).
Proof.
  unfold saveLocalData, saveCollection, db_clear, db_saveBatch, stampRecord,
    db_ensure, db_init.
  frame; try reflexivity.
  all: first [ apply db_request_keeps | apply Date_now_keeps
             | apply generateUUID_keeps ]; reflexivity.
Qed.

Lemma gist_falsy_at (w w1 : world) :
  gistId_truthy (this w) = false →
  network_and_gist w1 = network_and_gist w →
  gistId_truthy (this w1) = false.
Proof.
  unfold network_and_gist, gistId_truthy. intros H [= _ _ ->]. exact H.
Qed.

Lemma syncCycle_local (E : env) w :
  gistId_truthy (this w) = false →
  network_and_gist (snd (syncCycle E w)) = network_and_gist w.
Proof.
  intros Hg. unfold syncCycle.
  apply bind_keeps_at; [apply processSyncQueue_keeps_network |].
  intros _ w1 H1.
  apply bind_keeps_at; [apply getLocalData_keeps_network |].
  intros localData w2 H2. rewrite bind_gets.
  assert (Hg2 : gistId_truthy (this w2) = false).
  { apply (gist_falsy_at w); [exact Hg | congruence]. }
  rewrite Hg2, bind_ret.
  apply bind_keeps_at; [apply mergeData_keeps_network |].
  intros merged w3 H3.
  apply bind_keeps_at; [apply saveLocalData_keeps_network |].
  intros merged' w4 _. rewrite bind_ret. revert w4.
  apply keeps_bind; [apply Date_now_keeps; reflexivity | intros now].
  unfold ui. frame; reflexivity.
Qed.

(** X26: the queue never reaches the network. [queueOperation] and
    [processSyncQueue] make no request and leave every gist as it is,
    whatever the state and whatever fails: an operation is marked
    ['completed'] and dropped from the queue without being sent anywhere. *)
Theorem queue_stays_local (E : env) op w :
  network (snd (queueOperation E op w)) = network w ∧
  network (snd (processSyncQueue E w)) = network w.
Proof.
  split; apply network_of_gist.
  - revert w. change (keeps network_and_gist (queueOperation E op)).
    unfold queueOperation.
    apply keeps_bind; [apply enqueue_keeps_network | intros _].
    apply keeps_bind; [apply keeps_gets | intros w0].
    destruct (onLine w0 && negb (syncInProgress (this w0))); [| apply keeps_ret].
    apply keeps_try_catch; [apply processSyncQueue_keeps_network |].
    intros _. apply keeps_ret.
  - apply processSyncQueue_keeps_network.
Qed.

(** X27: without a gist, a sync stays on the device. When the manager has
    no gist id, or an empty one, [syncNow] makes no request and leaves every
    gist as it is, whether the cycle completes or fails. *)
Theorem no_gist_no_request (E : env) w :
  gistId_truthy (this w) = false →
  network (snd (syncNow E w)) = network w.
Proof.
  intros Hg. apply network_of_gist. unfold syncNow.
  rewrite bind_gets. destruct (sync_refused w); [reflexivity |].
  rewrite bind_modify. unfold syncNow_body. rewrite bind_gets.
  set (w0 := set_this (set_syncInProgress true) w).
  assert (Hrest : ∀ w1, network_and_gist w1 = network_and_gist w →
            network_and_gist (snd (syncNow_rest E w1)) = network_and_gist w).
  { intros w1 H1. rewrite syncNow_rest_eq.
    pose proof (syncCycle_local E w1 (gist_falsy_at w w1 Hg H1)) as Hc.
    destruct (syncCycle E w1) as [[d|e] w2]; cbn [snd] in Hc |- *.
    - rewrite <- H1, <- Hc. reflexivity.
    - rewrite <- H1, <- Hc. destruct (appContext w2); reflexivity. }
  destruct (appContext w0).
  - unfold ui. rewrite bind_modify. apply Hrest. reflexivity.
  - rewrite bind_ret. apply Hrest. reflexivity.
Qed.

Lemma no_gist_no_request_witness :
  network (snd (syncNow quiet household)) = network household.
Proof.
  apply (no_gist_no_request quiet household). reflexivity.
Defined.
